(** * Scribe logging client: connection lifecycle and Thrift call codec

    A shallow embedding of

    - [scribe_logging/_thrift/scribe/scribe.py]: the generated Thrift
      client for the single [Log] call ([Client], [Log_args], [Log_result]);
    - [scribe_logging/scribe_logging_client.py]: the Twisted client
      [ScribeClient] that shares one connection between its callers.

    Python objects that are shared by reference (Deferreds, the Thrift
    client of a connection) live in explicit stores and are named by
    identifiers.  Exceptions are an error result; a method that raises
    after it mutated [self] keeps the mutation. *)

From Stdlib Require Import ZArith Lia List Sorted.
From Stdlib Require Import Strings.Byte Strings.String.
From stdpp Require Import base option list gmap.

Local Open Scope Z_scope.

(** ** Exceptions and results *)

(** Modelled from the spec: the class [TApplicationException] of the
    thrift library is not among the sources.  The spec gives the
    structured application exception as (errorCode: i32, message:
    string); [MISSING_RESULT] is the code [recv_Log] passes for a reply
    without a result. *)
Module TApplicationException.
Record t : Type := mk { type : Z; message : option string }.
Definition UNKNOWN := 0.
Definition MISSING_RESULT := 5.
End TApplicationException.

Inductive exn : Type :=
  | EOFError                    (* transport ran out of bytes *)
  | StructError                 (* struct.pack: value out of range *)
  | RecursionError              (* a decoding loop exceeded its budget *)
  | KeyError (k : Z)            (* dict.pop on a missing key *)
  | AttributeError              (* attribute access on None *)
  | AlreadyCalledError          (* Deferred fired twice *)
  | ConnectError (reason : string)
  | Thrown (x : TApplicationException.t).

Inductive result (A : Type) : Type :=
  | Ok (a : A)
  | Raise (e : exn).
Arguments Ok {A} a.
Arguments Raise {A} e.

(** ** State and exceptions

    [St S A] is a computation over a mutable state [S] that returns an
    [A] or raises; the state reached when it raises is kept, as the
    fields of a Python object keep what a method assigned before it
    raised. *)

Definition St (S A : Type) : Type := S -> result A * S.

Definition ret {S A} (a : A) : St S A := fun s => (Ok a, s).

Definition bind {S A B} (m : St S A) (k : A -> St S B) : St S B :=
  fun s => match m s with
           | (Ok a, s') => k a s'
           | (Raise e, s') => (Raise e, s')
           end.

Definition raise {S A} (e : exn) : St S A := fun s => (Raise e, s).

Definition gets {S A} (f : S -> A) : St S A := fun s => (Ok (f s), s).

Definition modify {S} (f : S -> S) : St S unit := fun s => (Ok tt, f s).

(** try: ... except: the exception becomes a value *)
Definition try_except {S A} (m : St S A) : St S (result A) :=
  fun s => let (r, s') := m s in (Ok r, s').

(** The transport of a protocol object is a byte buffer: what is left to
    read of a received message, or what has been written so far. *)
Definition bytes := list byte.
Definition Trans (A : Type) : Type := St bytes A.

(** A [while True] loop that reads at least one byte per turn ends, by
    a [break] or by [EOFError], within as many turns as the buffer has
    bytes, plus one; [with_budget] gives a loop that many turns. *)
Definition with_budget {A} (loop : nat -> Trans A) : Trans A :=
  fun bs => loop (S (length bs)) bs.

Declare Scope st_scope.
Delimit Scope st_scope with st.
Notation "'let*' x ':=' m 'in' k" := (bind m (fun x => k))
  (at level 10, x pattern, m at level 200, k at level 200) : st_scope.
Notation "m >> k" := (bind m (fun _ => k))
  (at level 61, left associativity) : st_scope.
Local Open Scope st_scope.

(** ** Thrift constants

    Modelled from the spec: [TType] and [TMessageType] of the thrift
    library are not among the sources.  The message kinds are those of
    the spec's envelope (CALL=1, REPLY=2, EXCEPTION=3); the type tags
    are the ones of the binary protocol the spec asks the client to be
    bit-compatible with. *)

Module TType.
Definition STOP := 0.
Definition VOID := 1.
Definition BOOL := 2.
Definition BYTE := 3.
Definition DOUBLE := 4.
Definition I16 := 6.
Definition I32 := 8.
Definition I64 := 10.
Definition STRING := 11.
Definition STRUCT := 12.
Definition MAP := 13.
Definition SET := 14.
Definition LIST := 15.
End TType.

Module TMessageType.
Definition CALL := 1.
Definition REPLY := 2.
Definition EXCEPTION := 3.
Definition ONEWAY := 4.
End TMessageType.

(** ** Binary protocol

    Modelled from the spec: the protocol objects [iprot] and [oprot] the
    generated code calls are thrift's [TBinaryProtocol], which is not
    among the sources.  The spec's struct rule gives what is on the
    wire: a struct is a sequence of (field id, field type, value)
    entries closed by a stop marker, a list is (element type, count)
    followed by the elements; struct, field and list delimiters take no
    other bytes.  The calls are given at the level of bytes: integers
    are big-endian two's complement as [struct.pack] packs them, a
    string is an [i32] length followed by its bytes. *)

Module TBinaryProtocol.

Definition Z_of_byte (b : byte) : Z := Z.of_N (Byte.to_N b).

Definition byte_of_Z (z : Z) : byte :=
  match Byte.of_N (Z.to_N (z mod 256)) with
  | Some b => b
  | None => "000"%byte
  end.

(** the [n] low bytes of [z], most significant first *)
Fixpoint be_encode (n : nat) (z : Z) : bytes :=
  match n with
  | O => []
  | S k => be_encode k (z / 256) ++ [byte_of_Z z]
  end.

Definition be_decode (bs : bytes) : Z :=
  fold_left (fun acc b => acc * 256 + Z_of_byte b) bs 0.

Definition to_signed (n : nat) (u : Z) : Z :=
  if u <? 2 ^ (8 * Z.of_nat n - 1) then u else u - 2 ^ (8 * Z.of_nat n).

Definition in_range (n : nat) (z : Z) : bool :=
  (- 2 ^ (8 * Z.of_nat n - 1) <=? z) && (z <? 2 ^ (8 * Z.of_nat n - 1)).

(** trans.write(buff) *)
Definition write (buff : bytes) : Trans unit :=
  modify (fun out => out ++ buff).

(** trans.readAll(sz): the loop body does not run for [sz <= 0] *)
Definition readAll (sz : Z) : Trans bytes :=
  fun bs =>
    if sz <=? Z.of_nat (length bs)
    then (Ok (take (Z.to_nat sz) bs), drop (Z.to_nat sz) bs)
    else (Raise EOFError, bs).

(** struct.pack of an [n]-byte signed integer, then trans.write *)
Definition writeInt (n : nat) (z : Z) : Trans unit :=
  if in_range n z then write (be_encode n z) else raise StructError.

Definition readInt (n : nat) : Trans Z :=
  let* buff := readAll (Z.of_nat n) in
  ret (to_signed n (be_decode buff)).

Definition writeByte := writeInt 1.
Definition writeI16 := writeInt 2.
Definition writeI32 := writeInt 4.
Definition writeI64 := writeInt 8.
Definition readByte := readInt 1.
Definition readI16 := readInt 2.
Definition readI32 := readInt 4.
Definition readI64 := readInt 8.

Definition readBool : Trans bool :=
  let* b := readByte in ret (negb (b =? 0)).

(** eight bytes; the value is only ever skipped *)
Definition readDouble : Trans unit :=
  let* _ := readAll 8 in ret tt.

Definition writeString (s : string) : Trans unit :=
  writeI32 (Z.of_nat (String.length s)) >> write (list_byte_of_string s).

Definition readString : Trans string :=
  let* len := readI32 in
  let* str := readAll len in
  ret (string_of_list_byte str).

Definition writeStructBegin (name : string) : Trans unit := ret tt.
Definition writeStructEnd : Trans unit := ret tt.
Definition readStructBegin : Trans unit := ret tt.
Definition readStructEnd : Trans unit := ret tt.

Definition writeFieldBegin (name : string) (type id : Z) : Trans unit :=
  writeByte type >> writeI16 id.
Definition writeFieldEnd : Trans unit := ret tt.
Definition writeFieldStop : Trans unit := writeByte TType.STOP.

(** returns (ftype, fid); the field name is never on the wire *)
Definition readFieldBegin : Trans (Z * Z) :=
  let* type := readByte in
  if type =? TType.STOP then ret (type, 0)
  else let* id := readI16 in ret (type, id).
Definition readFieldEnd : Trans unit := ret tt.

Definition writeListBegin (etype size : Z) : Trans unit :=
  writeByte etype >> writeI32 size.
Definition writeListEnd : Trans unit := ret tt.

Definition readListBegin : Trans (Z * Z) :=
  let* etype := readByte in
  let* size := readI32 in
  ret (etype, size).
Definition readListEnd : Trans unit := ret tt.

Definition readMapBegin : Trans (Z * Z * Z) :=
  let* ktype := readByte in
  let* vtype := readByte in
  let* size := readI32 in
  ret (ktype, vtype, size).
Definition readMapEnd : Trans unit := ret tt.

Definition readSetBegin : Trans (Z * Z) :=
  let* etype := readByte in
  let* size := readI32 in
  ret (etype, size).
Definition readSetEnd : Trans unit := ret tt.

(** for i in range(count): body *)
Fixpoint for_range (count : nat) (body : Trans unit) : Trans unit :=
  match count with
  | O => ret tt
  | S k => body >> for_range k body
  end.

(** The field loop of [skip] on a struct; every turn reads at least
    the type byte, so [budget] turns are enough for [budget] bytes. *)
Fixpoint skip_fields (budget : nat) (skip_value : Z -> Trans unit)
  : Trans unit :=
  match budget with
  | O => raise RecursionError
  | S k =>
      let* (type, _) := readFieldBegin in
      if type =? TType.STOP then ret tt
      else skip_value type >> readFieldEnd >> skip_fields k skip_value
  end.

(** TProtocolBase.skip, with the nesting depth bounded by [depth];
    a type it does not know consumes nothing. *)
Fixpoint skip_depth (depth : nat) (type : Z) {struct depth} : Trans unit :=
  match depth with
  | O => raise RecursionError
  | S d =>
      if type =? TType.STOP then ret tt
      else if type =? TType.BOOL then readBool >> ret tt
      else if type =? TType.BYTE then readByte >> ret tt
      else if type =? TType.I16 then readI16 >> ret tt
      else if type =? TType.I32 then readI32 >> ret tt
      else if type =? TType.I64 then readI64 >> ret tt
      else if type =? TType.DOUBLE then readDouble
      else if type =? TType.STRING then readString >> ret tt
      else if type =? TType.STRUCT then
        readStructBegin >>
        with_budget (fun n => skip_fields n (skip_depth d)) >>
        readStructEnd
      else if type =? TType.MAP then
        let* (ktype, vtype, size) := readMapBegin in
        for_range (Z.to_nat size) (skip_depth d ktype >> skip_depth d vtype) >>
        readMapEnd
      else if type =? TType.SET then
        let* (etype, size) := readSetBegin in
        for_range (Z.to_nat size) (skip_depth d etype) >> readSetEnd
      else if type =? TType.LIST then
        let* (etype, size) := readListBegin in
        for_range (Z.to_nat size) (skip_depth d etype) >> readListEnd
      else ret tt
  end.

(** A value nested [d] deep takes at least [d] bytes, so the length of
    the buffer bounds the depth. *)
Definition skip (type : Z) : Trans unit :=
  with_budget (fun depth => skip_depth depth type).

(** strictWrite, the default of TBinaryProtocolFactory *)
Definition VERSION_1 := -2147418112.
Definition writeMessageBegin (name : string) (type seqid : Z) : Trans unit :=
  writeI32 (Z.lor VERSION_1 type) >> writeString name >> writeI32 seqid.
Definition writeMessageEnd : Trans unit := ret tt.
Definition readMessageEnd : Trans unit := ret tt.

End TBinaryProtocol.

Import TBinaryProtocol.

(** Modelled from the spec: [TApplicationException.read] of the thrift
    library, by the struct rule: field 1 is the message (string), field
    2 the type code (i32), any other field is skipped. *)
Fixpoint TApplicationException_read_fields (budget : nat)
    (self : TApplicationException.t) : Trans TApplicationException.t :=
  match budget with
  | O => raise RecursionError
  | S k =>
      let* (ftype, fid) := readFieldBegin in
      if ftype =? TType.STOP then ret self
      else
        let* self' :=
          (if fid =? 1 then
             if ftype =? TType.STRING then
               let* s := readString in
               ret (TApplicationException.mk
                       (TApplicationException.type self) (Some s))
             else skip ftype >> ret self
           else if fid =? 2 then
             if ftype =? TType.I32 then
               let* i := readI32 in
               ret (TApplicationException.mk
                       i (TApplicationException.message self))
             else skip ftype >> ret self
           else skip ftype >> ret self) in
        readFieldEnd >> TApplicationException_read_fields k self'
  end.

Definition TApplicationException_read (self : TApplicationException.t)
  : Trans TApplicationException.t :=
  readStructBegin >>
  let* self' := with_budget (fun n => TApplicationException_read_fields n self) in
  readStructEnd >> ret self'.

(** ** ttypes.LogEntry *)

Module LogEntry.

Record t : Type := mk { category : option string; message : option string }.

(** Modelled from the spec: [ttypes.py], which declares [LogEntry], is
    not among the sources.  The spec gives the struct as field id 1
    (category, string) and field id 2 (message, string), encoded by the
    struct rule: (field type, field id, value) entries closed by a stop
    marker, a field whose value is None left out, an unknown field id
    or type skipped on decode. *)
Fixpoint read_fields (budget : nat) (self : t) : Trans t :=
  match budget with
  | O => raise RecursionError
  | S k =>
      let* (ftype, fid) := readFieldBegin in
      if ftype =? TType.STOP then ret self
      else
        let* self' :=
          (if fid =? 1 then
             if ftype =? TType.STRING then
               let* s := readString in ret (mk (Some s) (message self))
             else skip ftype >> ret self
           else if fid =? 2 then
             if ftype =? TType.STRING then
               let* s := readString in ret (mk (category self) (Some s))
             else skip ftype >> ret self
           else skip ftype >> ret self) in
        readFieldEnd >> read_fields k self'
  end.

Definition read (self : t) : Trans t :=
  readStructBegin >>
  let* self' := with_budget (fun n => read_fields n self) in
  readStructEnd >> ret self'.

Definition write (self : t) : Trans unit :=
  writeStructBegin "LogEntry" >>
  (match category self with
   | Some c =>
       writeFieldBegin "category" TType.STRING 1 >>
       writeString c >> writeFieldEnd
   | None => ret tt
   end) >>
  (match message self with
   | Some m =>
       writeFieldBegin "message" TType.STRING 2 >>
       writeString m >> writeFieldEnd
   | None => ret tt
   end) >>
  writeFieldStop >> writeStructEnd.

End LogEntry.

(** ** scribe.Log_args *)

Module Log_args.

Record t : Type := mk { messages : option (list LogEntry.t) }.

(** Log_args(): messages=None *)
Definition init : t := mk None.

(** for _i4 in xrange(_size0): read one LogEntry and append it *)
Fixpoint read_elems (count : nat) (acc : list LogEntry.t)
  : Trans (list LogEntry.t) :=
  match count with
  | O => ret acc
  | S k =>
      let* _elem5 := LogEntry.read (LogEntry.mk None None) in
      read_elems k (acc ++ [_elem5])
  end.

(** the [while True] loop of [read] *)
Fixpoint read_fields (budget : nat) (self : t) : Trans t :=
  match budget with
  | O => raise RecursionError
  | S k =>
      let* (ftype, fid) := readFieldBegin in
      if ftype =? TType.STOP then ret self
      else
        let* self' :=
          (if fid =? 1 then
             if ftype =? TType.LIST then
               let* (_etype3, _size0) := readListBegin in
               let* elems := read_elems (Z.to_nat _size0) [] in
               readListEnd >> ret (mk (Some elems))
             else skip ftype >> ret self
           else skip ftype >> ret self) in
        readFieldEnd >> read_fields k self'
  end.

(** The protocol of the client is a plain TBinaryProtocol, so the
    [fastbinary] branch is not taken. *)
Definition read (self : t) : Trans t :=
  readStructBegin >>
  let* self' := with_budget (fun n => read_fields n self) in
  readStructEnd >> ret self'.

(** for iter6 in self.messages: iter6.write(oprot) *)
Fixpoint write_elems (l : list LogEntry.t) : Trans unit :=
  match l with
  | [] => ret tt
  | iter6 :: l' => LogEntry.write iter6 >> write_elems l'
  end.

Definition write (self : t) : Trans unit :=
  writeStructBegin "Log_args" >>
  (match messages self with
   | Some ms =>
       writeFieldBegin "messages" TType.LIST 1 >>
       writeListBegin TType.STRUCT (Z.of_nat (length ms)) >>
       write_elems ms >>
       writeListEnd >> writeFieldEnd
   | None => ret tt
   end) >>
  writeFieldStop >> writeStructEnd.

End Log_args.

(** ** scribe.Log_result *)

Module Log_result.

Record t : Type := mk { success : option Z }.

(** Log_result(): success=None *)
Definition init : t := mk None.

Fixpoint read_fields (budget : nat) (self : t) : Trans t :=
  match budget with
  | O => raise RecursionError
  | S k =>
      let* (ftype, fid) := readFieldBegin in
      if ftype =? TType.STOP then ret self
      else
        let* self' :=
          (if fid =? 0 then
             if ftype =? TType.I32 then
               let* i := readI32 in ret (mk (Some i))
             else skip ftype >> ret self
           else skip ftype >> ret self) in
        readFieldEnd >> read_fields k self'
  end.

Definition read (self : t) : Trans t :=
  readStructBegin >>
  let* self' := with_budget (fun n => read_fields n self) in
  readStructEnd >> ret self'.

Definition write (self : t) : Trans unit :=
  writeStructBegin "Log_result" >>
  (match success self with
   | Some v =>
       writeFieldBegin "success" TType.I32 0 >>
       writeI32 v >> writeFieldEnd
   | None => ret tt
   end) >>
  writeFieldStop >> writeStructEnd.

End Log_result.

(** ** Objects shared by reference

    A Deferred and a connection's protocol object are reached from
    several places (the queue of waiters and the caller that was handed
    the Deferred; [_client] and the callbacks that received it), so they
    are kept in stores and named by their index there. *)

Definition did := nat.   (* a Deferred *)
Definition pid := nat.   (* a ThriftClientProtocol *)

(** _LossNotifyingWrapperProtocol: what a finished connect hands over *)
Record _LossNotifyingWrapperProtocol : Type := { wrapped : pid }.

(** The values that travel through the callback chains. *)
Inductive value : Type :=
  | VNone
  | VWrapper (client : _LossNotifyingWrapperProtocol)
  | VProtocol (p : pid)
  | VInt (i : Z)
  | VDeferred (d : did).

Inductive outcome : Type :=
  | Success (v : value)
  | Failure (e : exn).

(** The callbacks the client adds to a Deferred. *)
Inductive handler : Type :=
  | cb_connection                        (* addCallbacks(self._connection_made, self._connection_failed) *)
  | cb_log (entries : list LogEntry.t).  (* addCallback(_log) *)

(** twisted.internet.defer.Deferred: the callbacks not yet run, and the
    current result once [callback] or [errback] was called. *)
Record Deferred : Type := {
  callbacks : list handler;
  called : option outcome;
}.

(** scribe.Client.  Its transport buffers what is written and sends the
    buffer as one message on flush. *)
Record Client : Type := {
  _seqid : Z;
  _reqs : gmap Z did;
  wbuf : bytes;
  sent : list bytes;
}.

Inductive conn_state : Type := NOT_CONNECTED | CONNECTING | CONNECTED.

Record ScribeClient : Type := {
  _state : conn_state;
  _client : option pid;
  _waiting : list did;
}.

Record World : Type := {
  scribe : ScribeClient;
  deferreds : list Deferred;
  protocols : list Client;
  connects : list did;            (* Deferreds of endpoint.connect, oldest first *)
  fired : list (did * outcome);   (* callback()/errback() calls, oldest first *)
}.

Definition M (A : Type) : Type := St World A.

Definition set_scribe (f : ScribeClient -> ScribeClient) (w : World) : World :=
  {| scribe := f (scribe w); deferreds := deferreds w;
     protocols := protocols w; connects := connects w; fired := fired w |}.

Definition set_deferreds (f : list Deferred -> list Deferred) (w : World) : World :=
  {| scribe := scribe w; deferreds := f (deferreds w);
     protocols := protocols w; connects := connects w; fired := fired w |}.

Definition set_protocols (f : list Client -> list Client) (w : World) : World :=
  {| scribe := scribe w; deferreds := deferreds w;
     protocols := f (protocols w); connects := connects w; fired := fired w |}.

Definition set_connects (f : list did -> list did) (w : World) : World :=
  {| scribe := scribe w; deferreds := deferreds w;
     protocols := protocols w; connects := f (connects w); fired := fired w |}.

Definition set_fired (f : list (did * outcome) -> list (did * outcome))
    (w : World) : World :=
  {| scribe := scribe w; deferreds := deferreds w;
     protocols := protocols w; connects := connects w; fired := f (fired w) |}.

(** Deferred() *)
Definition new_Deferred : M did :=
  let* d := gets (fun w => length (deferreds w)) in
  modify (set_deferreds (fun ds => ds ++ [{| callbacks := []; called := None |}])) >>
  ret d.

Definition get_Deferred (d : did) : M Deferred :=
  let* o := gets (fun w => deferreds w !! d) in
  match o with
  | Some x => ret x
  | None => raise AttributeError
  end.

Definition put_Deferred (d : did) (x : Deferred) : M unit :=
  modify (set_deferreds (fun ds => <[d := x]> ds)).

(** protocol.client *)
Definition get_Client (p : pid) : M Client :=
  let* o := gets (fun w => protocols w !! p) in
  match o with
  | Some c => ret c
  | None => raise AttributeError
  end.

Definition modify_Client (p : pid) (f : Client -> Client) : M unit :=
  modify (set_protocols (fun ps => match ps !! p with
                                   | Some c => <[p := f c]> ps
                                   | None => ps
                                   end)).

(** run protocol calls on the write buffer of the client's transport *)
Definition on_transport {A} (p : pid) (m : Trans A) : M A :=
  let* c := get_Client p in
  let (r, buf) := m (wbuf c) in
  modify_Client p (fun c => {| _seqid := _seqid c; _reqs := _reqs c;
                               wbuf := buf; sent := sent c |}) >>
  match r with
  | Ok a => ret a
  | Raise e => raise e
  end.

(** oprot.trans.flush(): the buffer goes out as one message *)
Definition flush (p : pid) : M unit :=
  modify_Client p (fun c => {| _seqid := _seqid c; _reqs := _reqs c;
                               wbuf := []; sent := sent c ++ [wbuf c] |}).

(** run protocol calls on the bytes of a received message *)
Definition on_message {A} (iprot : bytes) (m : Trans A) : M A :=
  match fst (m iprot) with
  | Ok a => ret a
  | Raise e => raise e
  end.

(** ** scribe.Client: sending *)

(** Client.__init__ *)
Definition Client_init : Client :=
  {| _seqid := 0; _reqs := ∅; wbuf := []; sent := [] |}.

Definition send_Log (p : pid) (messages : list LogEntry.t) : M unit :=
  let* c := get_Client p in
  on_transport p
    (writeMessageBegin "Log" TMessageType.CALL (_seqid c) >>
     Log_args.write (Log_args.mk (Some messages)) >>
     writeMessageEnd) >>
  flush p.

Definition Log (p : pid) (messages : list LogEntry.t) : M did :=
  modify_Client p (fun c => {| _seqid := _seqid c + 1; _reqs := _reqs c;
                               wbuf := wbuf c; sent := sent c |}) >>
  let* d := new_Deferred in
  modify_Client p (fun c => {| _seqid := _seqid c;
                               _reqs := <[_seqid c := d]> (_reqs c);
                               wbuf := wbuf c; sent := sent c |}) >>
  send_Log p messages >>
  ret d.

(** ** Deferreds *)

(** The closure [_log] of [ScribeClient.log]:
    [return client.client.Log(entries)] *)
Definition _log (entries : list LogEntry.t) (client : value) : M value :=
  match client with
  | VProtocol p =>
      let* _ := get_Client p in
      let* d := Log p entries in
      ret (VDeferred d)
  | _ => raise AttributeError
  end.

(** What a callback returns or raises becomes the next result. *)
Definition as_outcome (m : M value) : M outcome :=
  let* r := try_except m in
  match r with
  | Ok v => ret (Success v)
  | Raise e => ret (Failure e)
  end.

Section Callbacks.

(** the pair (self._connection_made, self._connection_failed) *)
Variable connection_callbacks : outcome -> M outcome.

Definition run_callback (cb : handler) (r : outcome) : M outcome :=
  match cb with
  | cb_connection => connection_callbacks r
  | cb_log entries =>
      match r with
      | Success client => as_outcome (_log entries client)
      | Failure e => ret (Failure e)      (* no errback: passed on *)
      end
  end.

(** Deferred._runCallbacks: the callbacks run in the order they were
    added; a callback that returns a Deferred pauses the chain, which
    then takes the outcome of that Deferred. *)
Fixpoint run_callbacks (cbs : list handler) (r : outcome)
  : M (list handler * outcome) :=
  match cbs with
  | [] => ret ([], r)
  | cb :: rest =>
      let* r' := run_callback cb r in
      match r' with
      | Success (VDeferred _) => ret (rest, r')
      | _ => run_callbacks rest r'
      end
  end.

(** Deferred.callback and Deferred.errback *)
Definition fire (d : did) (r : outcome) : M unit :=
  let* x := get_Deferred d in
  match called x with
  | Some _ => raise AlreadyCalledError
  | None =>
      modify (set_fired (fun l => l ++ [(d, r)])) >>
      put_Deferred d {| callbacks := callbacks x; called := Some r |} >>
      let* (rest, r') := run_callbacks (callbacks x) r in
      put_Deferred d {| callbacks := rest; called := Some r' |}
  end.

(** Deferred.addCallbacks: on a Deferred that already has its result
    the callback runs at once. *)
Definition addCallbacks (d : did) (cb : handler) : M unit :=
  let* x := get_Deferred d in
  match called x with
  | None =>
      put_Deferred d {| callbacks := callbacks x ++ [cb]; called := None |}
  | Some (Success (VDeferred d')) =>
      put_Deferred d {| callbacks := callbacks x ++ [cb];
                        called := Some (Success (VDeferred d')) |}
  | Some r =>
      let* (rest, r') := run_callbacks (callbacks x ++ [cb]) r in
      put_Deferred d {| callbacks := rest; called := Some r' |}
  end.

End Callbacks.

(** ** ScribeClient *)

(** ScribeClient.__init__; [_state] is the class attribute *)
Definition ScribeClient_init : ScribeClient :=
  {| _state := NOT_CONNECTED; _client := None; _waiting := [] |}.

Definition client_value (c : option pid) : value :=
  match c with
  | Some p => VProtocol p
  | None => VNone
  end.

Definition _notify_connected : M did :=
  let* d := new_Deferred in
  modify (set_scribe (fun s => {| _state := _state s; _client := _client s;
                                  _waiting := _waiting s ++ [d] |})) >>
  ret d.

(** [d.callback(self._client)] inside [_connection_made].  The Deferred
    is one of the waiters; the callbacks of a waiter are [_log] closures,
    the connection callbacks being added to the Deferred of a connect
    only, so running one here would be a re-entry. *)
Definition callback_waiter (d : did) (v : value) : M unit :=
  fire (fun _ => raise RecursionError) d (Success v).

(** while self._waiting: d = self._waiting.pop(0); d.callback(self._client) *)
Fixpoint while_waiting (budget : nat) : M unit :=
  let* s := gets scribe in
  match _waiting s with
  | [] => ret tt
  | d :: rest =>
      match budget with
      | O => raise RecursionError
      | S k =>
          modify (set_scribe (fun s => {| _state := _state s;
                                          _client := _client s;
                                          _waiting := rest |})) >>
          callback_waiter d (client_value (_client s)) >>
          while_waiting k
      end
  end.

Definition _connection_made (client : value) : M value :=
  modify (set_scribe (fun s => {| _state := CONNECTED; _client := _client s;
                                  _waiting := _waiting s |})) >>
  match client with
  | VWrapper wr =>
      modify (set_scribe (fun s => {| _state := _state s;
                                      _client := Some (wrapped wr);
                                      _waiting := _waiting s |})) >>
      let* n := gets (fun w => length (_waiting (scribe w))) in
      while_waiting n >>
      let* s := gets scribe in
      ret (client_value (_client s))
  | _ => raise AttributeError
  end.

(** [log.err] only reports; it is left out. *)
Definition _connection_lost (reason : exn) : M value :=
  modify (set_scribe (fun s => {| _state := NOT_CONNECTED; _client := None;
                                  _waiting := _waiting s |})) >>
  ret VNone.

Definition _connection_failed (reason : exn) : M value :=
  modify (set_scribe (fun s => {| _state := NOT_CONNECTED; _client := None;
                                  _waiting := _waiting s |})) >>
  ret VNone.

(** The callback is [_connection_made], the errback [_connection_failed]. *)
Definition connection_callbacks (r : outcome) : M outcome :=
  match r with
  | Success client => as_outcome (_connection_made client)
  | Failure reason => as_outcome (_connection_failed reason)
  end.

Definition callback (d : did) (v : value) : M unit :=
  fire connection_callbacks d (Success v).

Definition errback (d : did) (e : exn) : M unit :=
  fire connection_callbacks d (Failure e).

(** twisted.internet.defer.succeed *)
Definition succeed (v : value) : M did :=
  let* d := new_Deferred in
  callback d v >>
  ret d.

(** self._scribe_endpoint.connect(self._client_factory): a connect is
    started and its Deferred returned; the reactor fires it later. *)
Definition endpoint_connect : M did :=
  let* d := new_Deferred in
  modify (set_connects (fun l => l ++ [d])) >>
  ret d.

Definition _get_client : M did :=
  let* s := gets scribe in
  match _state s with
  | NOT_CONNECTED =>
      modify (set_scribe (fun s => {| _state := CONNECTING;
                                      _client := _client s;
                                      _waiting := _waiting s |})) >>
      let* d := endpoint_connect in
      addCallbacks connection_callbacks d cb_connection >>
      ret d
  | CONNECTING => _notify_connected
  | CONNECTED => succeed (client_value (_client s))
  end.

(** The [messages] argument of [log]: one string or a list of strings. *)
Inductive messages_arg : Type :=
  | one_message (message : string)
  | many_messages (messages : list string).

(** ttypes.LogEntry(category, message) *)
Definition LogEntry_new (category message : string) : LogEntry.t :=
  LogEntry.mk (Some category) (Some message).

Definition log_entries (category : string) (messages : messages_arg)
  : list LogEntry.t :=
  let messages :=
    match messages with
    | one_message m => [m]           (* isinstance(messages, basestring) *)
    | many_messages l => l
    end in
  map (fun message => LogEntry_new category message) messages.

Definition log (category : string) (messages : messages_arg) : M did :=
  let entries := log_entries category messages in
  let* d := _get_client in
  addCallbacks connection_callbacks d (cb_log entries) >>
  ret d.

(** ** scribe.Client: receiving *)

Definition recv_Log (p : pid) (iprot : bytes) (mtype rseqid : Z) : M unit :=
  let* c := get_Client p in
  match _reqs c !! rseqid with
  | None => raise (KeyError rseqid)
  | Some d =>
      modify_Client p (fun c => {| _seqid := _seqid c;
                                   _reqs := delete rseqid (_reqs c);
                                   wbuf := wbuf c; sent := sent c |}) >>
      if mtype =? TMessageType.EXCEPTION then
        let* x := on_message iprot
                    (let* x := TApplicationException_read
                                 (TApplicationException.mk
                                    TApplicationException.UNKNOWN None) in
                     readMessageEnd >> ret x) in
        errback d (Thrown x)
      else
        let* result := on_message iprot
                         (let* result := Log_result.read Log_result.init in
                          readMessageEnd >> ret result) in
        match Log_result.success result with
        | Some v => callback d (VInt v)
        | None =>
            errback d (Thrown (TApplicationException.mk
                                 TApplicationException.MISSING_RESULT
                                 (Some "Log failed: unknown result"%string)))
        end
  end.

(** ** The reactor

    What happens to the client from outside: a connect finishes (the
    factory builds the protocol, whose [connectionMade] creates the
    [scribe.Client], and the endpoint fires the Deferred of the connect
    with the wrapper), a connect fails, or the connection is lost. *)

Definition connect_succeeded (d : did) : M unit :=
  let* p := gets (fun w => length (protocols w)) in
  modify (set_protocols (fun ps => ps ++ [Client_init])) >>
  callback d (VWrapper {| wrapped := p |}).

Definition connect_failed (d : did) (reason : string) : M unit :=
  errback d (ConnectError reason).

Definition World_init : World :=
  {| scribe := ScribeClient_init; deferreds := []; protocols := [];
     connects := []; fired := [] |}.

(** ** Sequences of calls *)

(** A caller's entry points into [ScribeClient]. *)
Inductive call : Type :=
  | call_get_client
  | call_log (category : string) (messages : messages_arg).

Definition do_call (c : call) : M did :=
  match c with
  | call_get_client => _get_client
  | call_log category messages => log category messages
  end.

(** The calls one after the other; the Deferred each one returned. *)
Fixpoint do_calls (cs : list call) : M (list did) :=
  match cs with
  | [] => ret []
  | c :: cs' =>
      let* d := do_call c in
      let* ds := do_calls cs' in
      ret (d :: ds)
  end.

(** The invariant that ties the stored connection to the state. *)
Definition client_iff_connected (s : ScribeClient) : Prop :=
  _client s <> None <-> _state s = CONNECTED.

(** ** Notions used by the statements *)

(** A Deferred that was not fired, with its callbacks. *)
Definition with_cbs (cbs : list handler) : Deferred :=
  {| callbacks := cbs; called := None |}.

(** [preserves P m]: whatever [m] returns or raises, the world it leaves
    is related by [P] to the world it started from. *)
Definition preserves {A} (P : World -> World -> Prop) (m : M A) : Prop :=
  forall w, P w (snd (m w)).


(** The client's own fields are as they were. *)
Definition same_scribe (w w' : World) : Prop := scribe w' = scribe w.

(** What issuing a Thrift call changes: the connections, and Deferreds
    that are new. *)
Definition call_issued (w w' : World) : Prop :=
  scribe w' = scribe w /\ fired w' = fired w /\ connects w' = connects w /\
  exists extra, deferreds w' = deferreds w ++ extra.

(** A waiter as [_get_client] and [log] leave it in the queue: not
    fired, and with [_log] closures for callbacks. *)
Definition is_log (cb : handler) : Prop :=
  match cb with
  | cb_log _ => True
  | cb_connection => False
  end.

Definition pending_waiter (w : World) (d : did) : Prop :=
  exists cbs, deferreds w !! d = Some (with_cbs cbs) /\ Forall is_log cbs.

Definition waiters_pending (w : World) : Prop :=
  NoDup (_waiting (scribe w)) /\
  Forall (pending_waiter w) (_waiting (scribe w)).

(** The state and the stored connection are as they were. *)
Definition same_connection (w w' : World) : Prop :=
  _state (scribe w') = _state (scribe w) /\
  _client (scribe w') = _client (scribe w).

(** A result that is neither a wrapper nor a protocol: no callback of
    the client does anything with it but fail or pass it on. *)
Definition inert (r : outcome) : Prop :=
  match r with
  | Success (VWrapper _) | Success (VProtocol _) => False
  | _ => True
  end.

(** Everything but the fields of the client is as it was. *)
Definition only_scribe (w w' : World) : Prop :=
  deferreds w' = deferreds w /\ protocols w' = protocols w /\
  connects w' = connects w /\ fired w' = fired w.

(** ** Sequences of calls on one connection *)

Inductive client_call : Type :=
  | call_Log (messages : list LogEntry.t)
  | call_recv_Log (iprot : bytes) (mtype rseqid : Z).

Definition do_client_call (p : pid) (c : client_call) : M unit :=
  match c with
  | call_Log messages => Log p messages >> ret tt
  | call_recv_Log iprot mtype rseqid => recv_Log p iprot mtype rseqid
  end.

Definition seqid_of (p : pid) (w : World) : Z :=
  match protocols w !! p with
  | Some c => _seqid c
  | None => 0
  end.

(** The calls one after the other, each on the world the one before left
    (a call that raised has raised to its own caller). *)
Fixpoint do_client_calls (p : pid) (cs : list client_call) (w : World) : World :=
  match cs with
  | [] => w
  | c :: cs' => do_client_calls p cs' (snd (do_client_call p c w))
  end.

(** The sequence ids the [Log] calls among them allocated, in order. *)
Fixpoint seqids_allocated (p : pid) (cs : list client_call) (w : World) : list Z :=
  match cs with
  | [] => []
  | c :: cs' =>
      let w' := snd (do_client_call p c w) in
      match c with
      | call_Log _ => seqid_of p w' :: seqids_allocated p cs' w'
      | call_recv_Log _ _ _ => seqids_allocated p cs' w'
      end
  end.

(** No pending call has a sequence id above the last one allocated. *)
Definition reqs_bounded (c : Client) : Prop :=
  forall k, is_Some (_reqs c !! k) -> k <= _seqid c.

(** The exception of a reply without a result. *)
Definition missing_result : exn :=
  Thrown (TApplicationException.mk TApplicationException.MISSING_RESULT
            (Some "Log failed: unknown result"%string)).

(** The pending call [rseqid] of connection [p], whose Deferred is [d],
    got the result [r]: [callback] or [errback] was called on [d] with
    it, [d] now has a result, and the call is gone from [_reqs]. *)
Definition resolved_with (p : pid) (rseqid : Z) (d : did) (r : outcome)
    (w w' : World) : Prop :=
  fired w' = fired w ++ [(d, r)] /\
  (exists x', deferreds w' = <[d := x']> (deferreds w) /\ called x' <> None) /\
  (exists c c', protocols w !! p = Some c /\
                protocols w' = <[p := c']> (protocols w) /\
                _reqs c' = delete rseqid (_reqs c) /\
                _seqid c' = _seqid c) /\
  connects w' = connects w.

(** ** Concrete worlds and messages *)

(** One [log] call, then the connect succeeds: connection 0 has one
    pending call, with sequence id 1. *)
Definition one_pending_call : World :=
  snd ((log "app" (one_message "hello") >> connect_succeeded 0%nat) World_init).

(** The struct of a TApplicationException with type 5 and the message
    "Log failed: unknown result", as a server writes it. *)
Definition exception_reply : bytes :=
  snd ((writeFieldBegin "message" TType.STRING 1 >>
        writeString "Log failed: unknown result" >> writeFieldEnd >>
        writeFieldBegin "type" TType.I32 2 >>
        writeI32 5 >> writeFieldEnd >>
        writeFieldStop) []).

(** A result struct without the success field. *)
Definition empty_reply : bytes :=
  snd (Log_result.write (Log_result.mk None) []).

(** The calls of connection [p] are as they were: same last sequence id,
    same pending calls. *)
Definition same_calls (p : pid) (w w' : World) : Prop :=
  forall c, protocols w !! p = Some c ->
            exists c', protocols w' !! p = Some c' /\
                       _seqid c' = _seqid c /\ _reqs c' = _reqs c.

(** ** The bytes of a value

    [writes m bs]: the calls [m] append [bs] to whatever was written
    before.  [reads m bs a]: the calls [m] consume [bs] from the front of
    the buffer and return [a]. *)

Definition writes (m : Trans unit) (bs : bytes) : Prop :=
  forall out, m out = (Ok tt, out ++ bs).

Definition reads {A} (m : Trans A) (bs : bytes) (a : A) : Prop :=
  forall rest, m (bs ++ rest) = (Ok a, rest).

(** A length or a count that fits the [i32] that carries it. *)
Definition fits_i32 (n : nat) : Prop := Z.of_nat n < 2 ^ 31.

Definition enc_string (s : string) : bytes :=
  TBinaryProtocol.be_encode 4 (Z.of_nat (String.length s)) ++
  list_byte_of_string s.

Definition enc_field_begin (type id : Z) : bytes :=
  TBinaryProtocol.be_encode 1 type ++ TBinaryProtocol.be_encode 2 id.

Definition enc_string_field (id : Z) (o : option string) : bytes :=
  match o with
  | Some s => enc_field_begin TType.STRING id ++ enc_string s
  | None => []
  end.

Definition enc_LogEntry (e : LogEntry.t) : bytes :=
  enc_string_field 1 (LogEntry.category e) ++
  enc_string_field 2 (LogEntry.message e) ++
  TBinaryProtocol.be_encode 1 TType.STOP.

Definition enc_messages_field (ms : list LogEntry.t) : bytes :=
  enc_field_begin TType.LIST 1 ++
  TBinaryProtocol.be_encode 1 TType.STRUCT ++
  TBinaryProtocol.be_encode 4 (Z.of_nat (length ms)) ++
  concat (map enc_LogEntry ms).

Definition enc_Log_args (self : Log_args.t) : bytes :=
  match Log_args.messages self with
  | Some ms => enc_messages_field ms
  | None => []
  end ++ TBinaryProtocol.be_encode 1 TType.STOP.

Definition string_fits (o : option string) : Prop :=
  match o with
  | Some s => fits_i32 (String.length s)
  | None => True
  end.

Definition entry_fits (e : LogEntry.t) : Prop :=
  string_fits (LogEntry.category e) /\ string_fits (LogEntry.message e).

(** ** Values of any type on the wire

    What a peer may put in a field this client does not know: a value
    of one of the types of the protocol. *)

#[local] Unset Elimination Schemes.

Inductive tvalue : Type :=
  | TBool (b : bool)
  | TByte (z : Z)
  | TDouble (bits : Z)
  | TI16 (z : Z)
  | TI32 (z : Z)
  | TI64 (z : Z)
  | TString (s : string)
  | TStruct (fields : list (Z * tvalue))
  | TMap (ktype vtype : Z) (entries : list (tvalue * tvalue))
  | TSet (etype : Z) (elems : list tvalue)
  | TList (etype : Z) (elems : list tvalue).

Definition ttype_of (v : tvalue) : Z :=
  match v with
  | TBool _ => TType.BOOL
  | TByte _ => TType.BYTE
  | TDouble _ => TType.DOUBLE
  | TI16 _ => TType.I16
  | TI32 _ => TType.I32
  | TI64 _ => TType.I64
  | TString _ => TType.STRING
  | TStruct _ => TType.STRUCT
  | TMap _ _ _ => TType.MAP
  | TSet _ _ => TType.SET
  | TList _ _ => TType.LIST
  end.

Fixpoint enc_value (v : tvalue) : bytes :=
  match v with
  | TBool b => TBinaryProtocol.be_encode 1 (if b then 1 else 0)
  | TByte z => TBinaryProtocol.be_encode 1 z
  | TDouble bits => TBinaryProtocol.be_encode 8 bits
  | TI16 z => TBinaryProtocol.be_encode 2 z
  | TI32 z => TBinaryProtocol.be_encode 4 z
  | TI64 z => TBinaryProtocol.be_encode 8 z
  | TString s => enc_string s
  | TStruct fields =>
      concat (map (fun f => enc_field_begin (ttype_of (snd f)) (fst f) ++
                            enc_value (snd f)) fields) ++
      TBinaryProtocol.be_encode 1 TType.STOP
  | TMap ktype vtype entries =>
      TBinaryProtocol.be_encode 1 ktype ++ TBinaryProtocol.be_encode 1 vtype ++
      TBinaryProtocol.be_encode 4 (Z.of_nat (length entries)) ++
      concat (map (fun e => enc_value (fst e) ++ enc_value (snd e)) entries)
  | TSet etype elems | TList etype elems =>
      TBinaryProtocol.be_encode 1 etype ++
      TBinaryProtocol.be_encode 4 (Z.of_nat (length elems)) ++
      concat (map enc_value elems)
  end.

(** how deep the containers of a value nest *)
Fixpoint height (v : tvalue) : nat :=
  match v with
  | TStruct fields => S (list_max (map (fun f => height (snd f)) fields))
  | TMap _ _ entries =>
      S (list_max (map (fun e => Nat.max (height (fst e)) (height (snd e)))
                       entries))
  | TSet _ elems | TList _ elems => S (list_max (map height elems))
  | _ => O
  end.

(** A value is well formed when every number fits its width, every
    length and count fits an [i32], and the elements of a container have
    the type the container announces. *)
Inductive value_ok : tvalue -> Prop :=
  | ok_bool b : value_ok (TBool b)
  | ok_byte z : TBinaryProtocol.in_range 1 z = true -> value_ok (TByte z)
  | ok_double bits :
      TBinaryProtocol.in_range 8 bits = true -> value_ok (TDouble bits)
  | ok_i16 z : TBinaryProtocol.in_range 2 z = true -> value_ok (TI16 z)
  | ok_i32 z : TBinaryProtocol.in_range 4 z = true -> value_ok (TI32 z)
  | ok_i64 z : TBinaryProtocol.in_range 8 z = true -> value_ok (TI64 z)
  | ok_string s : fits_i32 (String.length s) -> value_ok (TString s)
  | ok_struct fields :
      Forall (fun f => TBinaryProtocol.in_range 2 (fst f) = true /\
                       value_ok (snd f)) fields ->
      value_ok (TStruct fields)
  | ok_map ktype vtype entries :
      TBinaryProtocol.in_range 1 ktype = true ->
      TBinaryProtocol.in_range 1 vtype = true ->
      fits_i32 (length entries) ->
      Forall (fun e => (ttype_of (fst e) = ktype /\ value_ok (fst e)) /\
                       (ttype_of (snd e) = vtype /\ value_ok (snd e)))
             entries ->
      value_ok (TMap ktype vtype entries)
  | ok_set etype elems :
      TBinaryProtocol.in_range 1 etype = true ->
      fits_i32 (length elems) ->
      Forall (fun x => ttype_of x = etype /\ value_ok x) elems ->
      value_ok (TSet etype elems)
  | ok_list etype elems :
      TBinaryProtocol.in_range 1 etype = true ->
      fits_i32 (length elems) ->
      Forall (fun x => ttype_of x = etype /\ value_ok x) elems ->
      value_ok (TList etype elems).

#[local] Set Elimination Schemes.

(** A field on the wire: its id and its value. *)
Definition enc_field (f : Z * tvalue) : bytes :=
  enc_field_begin (ttype_of (snd f)) (fst f) ++ enc_value (snd f).

Definition enc_fields (fs : list (Z * tvalue)) : bytes :=
  concat (map enc_field fs).

Definition field_ok (f : Z * tvalue) : Prop :=
  TBinaryProtocol.in_range 2 (fst f) = true /\ value_ok (snd f).

(** A field [Log_args.read] has no use for: not id 1, or not a list. *)
Definition extra_for_Log_args (f : Z * tvalue) : Prop :=
  field_ok f /\ (fst f <> 1 \/ ttype_of (snd f) <> TType.LIST).

(** A field [Log_result.read] has no use for: not id 0, or not an i32. *)
Definition extra_for_Log_result (f : Z * tvalue) : Prop :=
  field_ok f /\ (fst f <> 0 \/ ttype_of (snd f) <> TType.I32).

Definition enc_success_field (v : Z) : bytes :=
  enc_field_begin TType.I32 0 ++ TBinaryProtocol.be_encode 4 v.

(** Three callers while there is no connection. *)
Definition three_calls : list call :=
  [call_log "app" (one_message "a");
   call_get_client;
   call_log "app" (many_messages ["b"; "c"]%string)].

(** The world they leave: a connect under way and two waiters. *)
Definition two_waiters : World := snd (do_calls three_calls World_init).

(** The [scribe.Client] of connection 0 in [one_pending_call]. *)
Definition pending_client : Client :=
  default Client_init (protocols one_pending_call !! 0%nat).

(** A connection that was made for a caller of [_get_client] and has
    carried no call yet. *)
Definition idle_connection : World :=
  snd ((_get_client >> connect_succeeded 0%nat) World_init).

Definition hello_batch : list LogEntry.t := [LogEntry_new "app" "hello"].

(** ** Reachable worlds

    What can happen to a client: a caller calls [log] or [_get_client];
    the reactor finishes or fails a connect whose Deferred the endpoint
    returned, reports the loss of the connection, or delivers a reply
    to the [scribe.Client] of a connection. *)

Inductive event : Type :=
  | ev_log (category : string) (messages : messages_arg)
  | ev_get_client
  | ev_connect_succeeded (d : did)
  | ev_connect_failed (d : did) (reason : string)
  | ev_connection_lost (reason : exn)
  | ev_recv_Log (p : pid) (iprot : bytes) (mtype rseqid : Z).

Definition run_event (e : event) (w : World) : World :=
  match e with
  | ev_log category messages => snd (log category messages w)
  | ev_get_client => snd (_get_client w)
  | ev_connect_succeeded d =>
      if decide (d ∈ connects w) then snd (connect_succeeded d w) else w
  | ev_connect_failed d reason =>
      if decide (d ∈ connects w) then snd (connect_failed d reason w) else w
  | ev_connection_lost reason => snd (_connection_lost reason w)
  | ev_recv_Log p iprot mtype rseqid => snd (recv_Log p iprot mtype rseqid w)
  end.

Inductive reachable : World -> Prop :=
  | reachable_init : reachable World_init
  | reachable_step e w : reachable w -> reachable (run_event e w).

(** [d] is the Deferred of a pending call of some connection. *)
Definition reqs_value (w : World) (d : did) : Prop :=
  exists p c k, protocols w !! p = Some c /\ _reqs c !! k = Some d.

(** The Deferreds of connects and of pending calls exist. *)
Definition ids_bounded (w : World) : Prop :=
  (forall d, d ∈ connects w -> (d < length (deferreds w))%nat) /\
  (forall d, reqs_value w d -> (d < length (deferreds w))%nat).

(** The Deferred of a connect or of a pending call is not a waiter. *)
Definition waiters_apart (w : World) : Prop :=
  (forall d, d ∈ connects w -> d ∉ _waiting (scribe w)) /\
  (forall d, reqs_value w d -> d ∉ _waiting (scribe w)).

Definition well_formed (w : World) : Prop :=
  waiters_pending w /\ ids_bounded w /\ waiters_apart w.

(** [carried P]: a world with [P] is left as a world with [P]. *)
Definition carried (P : World -> Prop) (w w' : World) : Prop := P w -> P w'.

(** No pending call was added. *)
Definition reqs_kept (w w' : World) : Prop :=
  forall d, reqs_value w' d -> reqs_value w d.

(** What a Thrift call changes, with the pending calls it adds: their
    Deferreds are new. *)
Definition call_made (w w' : World) : Prop :=
  call_issued w w' /\
  forall d, reqs_value w' d ->
            reqs_value w d \/ (length (deferreds w) <= d)%nat.

(** A well formed world in which [d] is not a waiter. *)
Definition wf_out (d : did) (w : World) : Prop :=
  well_formed w /\ d ∉ _waiting (scribe w).

(** ** The budgets of the decoding loops

    [shrinks m]: [m] leaves no more bytes than it found.
    [in_budget m]: whatever the bytes, [m] does not end for lack of
    budget. *)

Definition shrinks {A} (m : Trans A) : Prop :=
  forall bs, (length (snd (m bs)) <= length bs)%nat.

Definition in_budget {A} (m : Trans A) : Prop :=
  forall bs, fst (m bs) <> Raise RecursionError.

(** On the buffer [bs], the computation does not end by running out of
    the budget of a loop. *)
Definition within {A} (m : Trans A) (bs : bytes) : Prop :=
  fst (m bs) <> Raise RecursionError.

(** ** The bytes of a message *)

(** The header [writeMessageBegin] writes. *)
Definition enc_message_begin (name : string) (type seqid : Z) : bytes :=
  TBinaryProtocol.be_encode 4 (Z.lor TBinaryProtocol.VERSION_1 type) ++
  enc_string name ++ TBinaryProtocol.be_encode 4 seqid.

(** The message of a [Log] call: the header and the argument struct. *)
Definition enc_Log_call (seqid : Z) (messages : list LogEntry.t) : bytes :=
  enc_message_begin "Log" TMessageType.CALL seqid ++
  enc_Log_args (Log_args.mk (Some messages)).

Definition enc_Log_result (self : Log_result.t) : bytes :=
  match Log_result.success self with
  | Some v => enc_success_field v
  | None => []
  end ++ TBinaryProtocol.be_encode 1 TType.STOP.

(** A batch [send_Log] can write: its count and its strings fit. *)
Definition batch_fits (messages : list LogEntry.t) : Prop :=
  fits_i32 (length messages) /\ Forall entry_fits messages.

(** [m] fails only for lack of input (or of budget). *)
Definition eof_or_budget {A} (m : Trans A) : Prop :=
  forall bs e, fst (m bs) = Raise e -> e = EOFError \/ e = RecursionError.

(** [m] returns, or raises EOFError. *)
Definition fails_only_at_eof {A} (m : Trans A) : Prop :=
  forall bs, match fst (m bs) with
             | Ok _ => True
             | Raise e => e = EOFError
             end.

(** A connection on which the last sequence id an [i32] can carry has
    been allocated. *)
Definition last_seqid_connection : World :=
  set_protocols
    (fun _ => [{| _seqid := 2 ^ 31 - 1; _reqs := ∅; wbuf := []; sent := [] |}])
    World_init.

(** One caller of [log] while there is no connection. *)
Definition one_caller : World :=
  snd (log "app" (one_message "a") World_init).

(** ** ScribeLogHandler

    The handler for the [logging] module.  Its [ScribeClient] is the one
    of the world; [_category] is the attribute the property [category]
    reads and sets, absent until it is set. *)

Module ScribeLogHandler.

Record t : Type := mk { _category : option string; extra : string }.

(** def set_category(self, category): self._category = category *)
Definition set_category (category : string) (self : t) : t :=
  {| _category := Some category; extra := extra self |}.

(** def get_category(self): return getattr(self, '_category', 'default') *)
Definition get_category (self : t) : string :=
  default "default"%string (_category self).

(** ScribeLogHandler.__init__(category, extra): [if category:] and
    [if extra:] are the truth values of a string and of a list, false
    for None and for the empty one. *)
Definition init (category : option string) (extra : option (list string)) : t :=
  let self := {| _category := None; extra := "" |} in
  let self :=
    match category with
    | Some c => if (c =? "")%string then self else set_category c self
    | None => self
    end in
  match extra with
  | Some (x :: l) =>
      {| _category := _category self; extra := String.concat " " (x :: l) |}
  | _ => {| _category := _category self; extra := "" |}
  end.

(** The client of the handler, and the records that were handed to
    [handleError]. *)
Record Logging : Type := { world : World; handled : list string }.

Section Emit.

Variable LogRecord : Type.

(** logging.Handler.format, which may raise *)
Variable format : LogRecord -> result string.

(** [emit]: the record is formatted outside the [try]; inside it, any
    exception of [log] goes to [handleError] ([exn] has neither
    KeyboardInterrupt nor SystemExit, the two that are raised again).
    The Deferred [log] returns is dropped. *)
Definition emit (self : t) (record : LogRecord) : St Logging unit :=
  fun s =>
    match format record with
    | Raise e => (Raise e, s)
    | Ok formatted =>
        let record := (extra self ++ " " ++ formatted)%string in
        match log (get_category self) (one_message record) (world s) with
        | (Ok _, w') => (Ok tt, {| world := w'; handled := handled s |})
        | (Raise _, w') =>
            (Ok tt, {| world := w'; handled := handled s ++ [record] |})
        end
    end.

(** def flush(self): pass *)
Definition flush (self : t) : St Logging unit := ret tt.

End Emit.

End ScribeLogHandler.

(** ** Batches logged before the connection is there *)

(** A [log] call: its category and its messages. *)
Definition log_call : Type := string * messages_arg.

Definition entries_of (b : log_call) : list LogEntry.t :=
  log_entries (fst b) (snd b).

(** The [log] calls one after the other. *)
Fixpoint do_logs (bs : list log_call) : M unit :=
  match bs with
  | [] => ret tt
  | b :: bs' => log (fst b) (snd b) >> do_logs bs'
  end.

(** The messages of the calls with the batches [es], in this order, on
    a connection whose last sequence id was [seqid]. *)
Definition enc_Log_calls (seqid : Z) (es : list (list LogEntry.t)) : list bytes :=
  imap (fun i e => enc_Log_call (seqid + 1 + Z.of_nat i) e) es.

(** Three callers of [log] while there is no connection. *)
Definition three_logs : list log_call :=
  [("app", one_message "a"); ("app", many_messages ["b"; "c"]);
   ("db", one_message "d")]%string.

(** The messages field as a peer may write it: any element type for
    the list, any count. *)
Definition enc_messages_as (etype size : Z) (ms : list LogEntry.t) : bytes :=
  enc_field_begin TType.LIST 1 ++
  TBinaryProtocol.be_encode 1 etype ++
  TBinaryProtocol.be_encode 4 size ++
  concat (map enc_LogEntry ms).

(** ** The server side: scribe.Processor *)

(** Modelled after the thrift library, which is not among the sources:
    [readMessageBegin] of TBinaryProtocol with [strictRead] off, as
    TBinaryProtocolFactory makes the protocol by default.  A negative
    first word carries the version and the message kind; [inl sz]
    stands for the TProtocolException (BAD_VERSION) raised when the
    version is another one.  A first word that is not negative is the
    length of the name of a message without version. *)
Definition VERSION_MASK := -65536.
Definition TYPE_MASK := 255.

Definition readMessageBegin : Trans (Z + string * Z * Z) :=
  let* sz := readI32 in
  if sz <? 0 then
    if Z.land sz VERSION_MASK =? VERSION_1 then
      let type := Z.land sz TYPE_MASK in
      let* name := readString in
      let* seqid := readI32 in
      ret (inr (name, type, seqid))
    else ret (inl sz)
  else
    let* name := readAll sz in
    let* type := readByte in
    let* seqid := readI32 in
    ret (inr (string_of_list_byte name, type, seqid)).

Definition TApplicationException_UNKNOWN_METHOD := 1.

(** Modelled after the thrift library: [TApplicationException.write],
    the message as field 1 when there is one, the type as field 2. *)
Definition TApplicationException_write (self : TApplicationException.t)
  : Trans unit :=
  writeStructBegin "TApplicationException" >>
  (match TApplicationException.message self with
   | Some m =>
       writeFieldBegin "message" TType.STRING 1 >>
       writeString m >> writeFieldEnd
   | None => ret tt
   end) >>
  (writeFieldBegin "type" TType.I32 2 >>
   writeI32 (TApplicationException.type self) >> writeFieldEnd) >>
  writeFieldStop >> writeStructEnd.

Module Processor.

(** What a call of the processor works on: the bytes of the message
    received, the write buffer of the transport of [oprot], and the
    messages flushed so far (the buffer goes out on [flush], as with the
    transport of the client). *)
Record Server : Type := {
  iprot : bytes;
  oprot : bytes;
  out : list bytes;
}.

Definition on_iprot {A} (m : Trans A) : St Server A :=
  fun s => let (r, bs) := m (iprot s) in
           (r, {| iprot := bs; oprot := oprot s; out := out s |}).

Definition on_oprot {A} (m : Trans A) : St Server A :=
  fun s => let (r, bs) := m (oprot s) in
           (r, {| iprot := iprot s; oprot := bs; out := out s |}).

(** oprot.trans.flush() *)
Definition flush : St Server unit :=
  modify (fun s => {| iprot := iprot s; oprot := [];
                      out := out s ++ [oprot s] |}).

(** What [self._handler.Log(messages)] does, for a handler that answers
    at once: it returns a status (or None), or it raises. *)
Inductive handler_result : Type :=
  | Returns (success : option Z)
  | Throws (e : exn).

Definition Handler : Type := option (list LogEntry.t) -> handler_result.

Definition method : Type := Handler -> Z -> St Server outcome.

Record t : Type := mk {
  _handler : Handler;
  _processMap : list (string * method);
}.

Definition write_results_success_Log (success : option Z)
    (result : Log_result.t) (seqid : Z) : St Server unit :=
  let result := Log_result.mk success in
  on_oprot (writeMessageBegin "Log" TMessageType.REPLY seqid >>
            Log_result.write result >>
            writeMessageEnd) >>
  flush.

(** [defer.maybeDeferred] turns what the handler returns or raises into
    a fired Deferred; the callback added to it then runs at once, and
    what it raises is the result of the Deferred.  The outcome returned
    is the result of the Deferred [process_Log] returns. *)
Definition process_Log : method :=
  fun handler seqid =>
    let* args := on_iprot (let* args := Log_args.read Log_args.init in
                           readMessageEnd >> ret args) in
    let result := Log_result.init in
    match handler (Log_args.messages args) with
    | Throws e => ret (Failure e)
    | Returns success =>
        let* r := try_except (write_results_success_Log success result seqid) in
        match r with
        | Ok _ => ret (Success VNone)
        | Raise e => ret (Failure e)
        end
    end.

(** Processor.__init__ *)
Definition init (handler : Handler) : t :=
  {| _handler := handler; _processMap := [("Log"%string, process_Log)] |}.

(** self._processMap[name], None when [name not in self._processMap] *)
Fixpoint lookup_method (name : string) (m : list (string * method))
  : option method :=
  match m with
  | [] => None
  | (k, f) :: m' => if (k =? name)%string then Some f else lookup_method name m'
  end.

(** [process]: [inl sz] is the TProtocolException of [readMessageBegin];
    [inr r] is the result of the Deferred returned. *)
Definition process (self : t) : St Server (Z + outcome) :=
  let* m := on_iprot readMessageBegin in
  match m with
  | inl sz => ret (inl sz)
  | inr (name, type, seqid) =>
      match lookup_method name (_processMap self) with
      | None =>
          on_iprot (skip TType.STRUCT >> readMessageEnd) >>
          let x := TApplicationException.mk
                     TApplicationException_UNKNOWN_METHOD
                     (Some ("Unknown function " ++ name)%string) in
          on_oprot (writeMessageBegin name TMessageType.EXCEPTION seqid >>
                    TApplicationException_write x >>
                    writeMessageEnd) >>
          flush >>
          ret (inr (Success VNone))
      | Some f =>
          let* r := f (_handler self) seqid in
          ret (inr r)
      end
  end.

End Processor.

(** The exception struct as [TApplicationException_write] writes it. *)
Definition enc_TApplicationException (x : TApplicationException.t) : bytes :=
  enc_string_field 1 (TApplicationException.message x) ++
  enc_field_begin TType.I32 2 ++
  TBinaryProtocol.be_encode 4 (TApplicationException.type x) ++
  TBinaryProtocol.be_encode 1 TType.STOP.

(** While the client is not CONNECTED it stores no connection. *)
Definition no_stale_client (w : World) : Prop :=
  _state (scribe w) <> CONNECTED -> _client (scribe w) = None.

(** On every connection, no pending call has a sequence id above the
    last one allocated. *)
Definition all_reqs_bounded (w : World) : Prop :=
  forall p c, protocols w !! p = Some c -> reqs_bounded c.
(** * Properties *)

(** ** The stores *)

Ltac st_unfold :=
  unfold bind, ret, gets, modify, raise, try_except in *.

Lemma lookup_fresh {A} (l : list A) (x : A) : (l ++ [x]) !! length l = Some x.
Proof. by rewrite list_lookup_middle. Qed.

Lemma insert_fresh {A} (l : list A) (x y : A) :
  <[length l := y]> (l ++ [x]) = l ++ [y].
Proof.
  replace (length l) with (length l + 0)%nat at 1 by lia.
  by rewrite insert_app_r.
Qed.

Lemma bind_Ok {S A B} (m : St S A) (k : A -> St S B) (s s1 : S) (a : A) :
  m s = (Ok a, s1) -> bind m k s = k a s1.
Proof. intros H. unfold bind. by rewrite H. Qed.

Lemma bind_Raise {S A B} (m : St S A) (k : A -> St S B) (s s1 : S) (e : exn) :
  m s = (Raise e, s1) -> bind m k s = (Raise e, s1).
Proof. intros H. unfold bind. by rewrite H. Qed.

Lemma bind_assoc {S A B C} (m : St S A) (k : A -> St S B) (k' : B -> St S C)
    (s : S) :
  bind (bind m k) k' s = bind m (fun a => bind (k a) k') s.
Proof. unfold bind. by destruct (m s) as [[a|e] s1]. Qed.

Lemma get_Deferred_Some (d : did) (w : World) (x : Deferred) :
  deferreds w !! d = Some x -> get_Deferred d w = (Ok x, w).
Proof. intros H. unfold get_Deferred, bind, gets. by rewrite H. Qed.

Lemma new_Deferred_eq (w : World) :
  new_Deferred w =
    (Ok (length (deferreds w)),
     set_deferreds (fun ds => ds ++ [{| callbacks := []; called := None |}]) w).
Proof. reflexivity. Qed.

(** Firing a Deferred that has no callbacks only stores the result. *)
Lemma fire_no_callbacks (h : outcome -> M outcome) (d : did) (r : outcome)
    (w : World) :
  deferreds w !! d = Some {| callbacks := []; called := None |} ->
  fire h d r w =
    (Ok tt,
     set_deferreds (fun ds => <[d := {| callbacks := []; called := Some r |}]> ds)
       (set_fired (fun l => l ++ [(d, r)]) w)).
Proof.
  intros Hd. unfold fire, get_Deferred, put_Deferred. st_unfold.
  rewrite Hd. simpl. unfold set_deferreds, set_fired. simpl.
  by rewrite list_insert_insert_eq.
Qed.

(** ** [_get_client] and [log], state by state *)

Lemma _get_client_NOT_CONNECTED (w : World) :
  _state (scribe w) = NOT_CONNECTED ->
  _get_client w =
    (Ok (length (deferreds w)),
     {| scribe := {| _state := CONNECTING; _client := _client (scribe w);
                     _waiting := _waiting (scribe w) |};
        deferreds := deferreds w ++ [with_cbs [cb_connection]];
        protocols := protocols w;
        connects := connects w ++ [length (deferreds w)];
        fired := fired w |}).
Proof.
  intros Hs. unfold _get_client, endpoint_connect, addCallbacks, new_Deferred,
    get_Deferred, put_Deferred. st_unfold. rewrite Hs. simpl.
  rewrite lookup_fresh. simpl. unfold set_deferreds. simpl.
  by rewrite insert_fresh.
Qed.

Lemma _get_client_CONNECTING (w : World) :
  _state (scribe w) = CONNECTING ->
  _get_client w =
    (Ok (length (deferreds w)),
     {| scribe := {| _state := _state (scribe w); _client := _client (scribe w);
                     _waiting := _waiting (scribe w) ++ [length (deferreds w)] |};
        deferreds := deferreds w ++ [with_cbs []];
        protocols := protocols w;
        connects := connects w;
        fired := fired w |}).
Proof.
  intros Hs. unfold _get_client, _notify_connected, new_Deferred. st_unfold.
  rewrite Hs. simpl. unfold set_scribe, set_deferreds. simpl. by rewrite Hs.
Qed.

Lemma _get_client_CONNECTED (w : World) :
  _state (scribe w) = CONNECTED ->
  _get_client w =
    (Ok (length (deferreds w)),
     {| scribe := scribe w;
        deferreds :=
          deferreds w ++
            [{| callbacks := [];
                called := Some (Success (client_value (_client (scribe w)))) |}];
        protocols := protocols w;
        connects := connects w;
        fired := fired w ++
                   [(length (deferreds w),
                     Success (client_value (_client (scribe w))))] |}).
Proof.
  intros Hs. unfold _get_client, succeed, callback. st_unfold.
  rewrite Hs. rewrite new_Deferred_eq.
  rewrite fire_no_callbacks by apply lookup_fresh.
  unfold set_deferreds, set_fired. simpl. by rewrite insert_fresh.
Qed.

Lemma log_NOT_CONNECTED (category : string) (messages : messages_arg) (w : World) :
  _state (scribe w) = NOT_CONNECTED ->
  log category messages w =
    (Ok (length (deferreds w)),
     {| scribe := {| _state := CONNECTING; _client := _client (scribe w);
                     _waiting := _waiting (scribe w) |};
        deferreds :=
          deferreds w ++
            [with_cbs [cb_connection; cb_log (log_entries category messages)]];
        protocols := protocols w;
        connects := connects w ++ [length (deferreds w)];
        fired := fired w |}).
Proof.
  intros Hs. unfold log. unfold bind at 1.
  rewrite (_get_client_NOT_CONNECTED w Hs).
  unfold addCallbacks, get_Deferred, put_Deferred. st_unfold. simpl.
  rewrite lookup_fresh. simpl. unfold set_deferreds. simpl.
  by rewrite insert_fresh.
Qed.

Lemma log_CONNECTING (category : string) (messages : messages_arg) (w : World) :
  _state (scribe w) = CONNECTING ->
  log category messages w =
    (Ok (length (deferreds w)),
     {| scribe := {| _state := _state (scribe w); _client := _client (scribe w);
                     _waiting := _waiting (scribe w) ++ [length (deferreds w)] |};
        deferreds :=
          deferreds w ++ [with_cbs [cb_log (log_entries category messages)]];
        protocols := protocols w;
        connects := connects w;
        fired := fired w |}).
Proof.
  intros Hs. unfold log. unfold bind at 1.
  rewrite (_get_client_CONNECTING w Hs).
  unfold addCallbacks, get_Deferred, put_Deferred. st_unfold. simpl.
  rewrite lookup_fresh. simpl. unfold set_deferreds. simpl.
  by rewrite insert_fresh.
Qed.

(** ** One connect for any number of callers *)

Lemma do_call_CONNECTING (c : call) (w : World) :
  _state (scribe w) = CONNECTING ->
  exists cbs,
    do_call c w =
      (Ok (length (deferreds w)),
       {| scribe := {| _state := CONNECTING; _client := _client (scribe w);
                       _waiting := _waiting (scribe w) ++ [length (deferreds w)] |};
          deferreds := deferreds w ++ [with_cbs cbs];
          protocols := protocols w;
          connects := connects w;
          fired := fired w |}).
Proof.
  intros Hs. destruct c as [|category messages]; simpl.
  - exists []. rewrite (_get_client_CONNECTING w Hs). by rewrite Hs.
  - exists [cb_log (log_entries category messages)].
    rewrite (log_CONNECTING _ _ w Hs). by rewrite Hs.
Qed.

Lemma do_call_NOT_CONNECTED (c : call) (w : World) :
  _state (scribe w) = NOT_CONNECTED ->
  exists cbs,
    do_call c w =
      (Ok (length (deferreds w)),
       {| scribe := {| _state := CONNECTING; _client := _client (scribe w);
                       _waiting := _waiting (scribe w) |};
          deferreds := deferreds w ++ [with_cbs cbs];
          protocols := protocols w;
          connects := connects w ++ [length (deferreds w)];
          fired := fired w |}).
Proof.
  intros Hs. destruct c as [|category messages]; simpl.
  - exists [cb_connection]. by rewrite (_get_client_NOT_CONNECTED w Hs).
  - exists [cb_connection; cb_log (log_entries category messages)].
    by rewrite (log_NOT_CONNECTED _ _ w Hs).
Qed.

Lemma do_calls_CONNECTING (cs : list call) (w : World) :
  _state (scribe w) = CONNECTING ->
  exists w' news,
    do_calls cs w = (Ok (seq (length (deferreds w)) (length cs)), w') /\
    _state (scribe w') = CONNECTING /\
    _client (scribe w') = _client (scribe w) /\
    _waiting (scribe w') =
      _waiting (scribe w) ++ seq (length (deferreds w)) (length cs) /\
    deferreds w' = deferreds w ++ news /\
    length news = length cs /\
    Forall (fun x => called x = None) news /\
    connects w' = connects w /\
    protocols w' = protocols w /\
    fired w' = fired w.
Proof.
  revert w. induction cs as [|c cs IH]; intros w Hs.
  - exists w, []. simpl. rewrite !app_nil_r. by repeat split.
  - destruct (do_call_CONNECTING c w Hs) as [cbs Hc].
    simpl. unfold bind at 1. rewrite Hc.
    match goal with |- context [bind (do_calls cs) _ ?w1] =>
      destruct (IH w1 eq_refl)
        as (w' & news & Hd & Hs' & Hc' & Hw' & Hn & Hl & Hf & Hcn & Hp & Hfi)
    end.
    simpl in *. rewrite length_app in *. simpl in *.
    replace (length (deferreds w) + 1)%nat with (S (length (deferreds w)))
      in * by lia.
    exists w', (with_cbs cbs :: news).
    unfold bind at 1. rewrite Hd. unfold ret.
    repeat split; try done.
    + rewrite Hw'. by rewrite <- app_assoc.
    + rewrite Hn. by rewrite <- app_assoc.
    + simpl. by rewrite Hl.
    + by constructor.
Qed.

(** C1: while the client is NOT_CONNECTED or CONNECTING, any sequence of
    [log] and [_get_client] calls starts at most one connect.  Every
    call returns a fresh, unresolved Deferred.  From NOT_CONNECTED the
    first call moves the state to CONNECTING and starts the only
    [endpoint.connect], whose Deferred it returns; each later call, and
    every call made in CONNECTING, appends its Deferred to the queue of
    waiters and starts nothing.  No Deferred is resolved and no
    connection is touched. *)
Theorem single_connect_attempt (w : World) (cs : list call) :
  _state (scribe w) <> CONNECTED ->
  exists w' news,
    do_calls cs w = (Ok (seq (length (deferreds w)) (length cs)), w') /\
    deferreds w' = deferreds w ++ news /\
    length news = length cs /\
    Forall (fun x => called x = None) news /\
    protocols w' = protocols w /\
    fired w' = fired w /\
    _client (scribe w') = _client (scribe w) /\
    match _state (scribe w), cs with
    | _, [] => w' = w
    | NOT_CONNECTED, _ :: cs' =>
        _state (scribe w') = CONNECTING /\
        connects w' = connects w ++ [length (deferreds w)] /\
        _waiting (scribe w') =
          _waiting (scribe w) ++ seq (S (length (deferreds w))) (length cs')
    | _, _ :: _ =>
        _state (scribe w') = CONNECTING /\
        connects w' = connects w /\
        _waiting (scribe w') =
          _waiting (scribe w) ++ seq (length (deferreds w)) (length cs)
    end.
Proof.
  intros Hne. destruct cs as [|c cs].
  { exists w, []. simpl. rewrite app_nil_r.
    repeat split; try done. by destruct (_state (scribe w)). }
  destruct (_state (scribe w)) eqn:Hs; [| |done].
  - destruct (do_call_NOT_CONNECTED c w Hs) as [cbs Hc].
    simpl. unfold bind at 1. rewrite Hc.
    match goal with |- context [bind (do_calls cs) _ ?w1] =>
      destruct (do_calls_CONNECTING cs w1 eq_refl)
        as (w' & news & Hd & Hs' & Hc' & Hw' & Hn & Hl & Hf & Hcn & Hp & Hfi)
    end.
    simpl in *. rewrite length_app in *. simpl in *.
    replace (length (deferreds w) + 1)%nat with (S (length (deferreds w)))
      in * by lia.
    exists w', (with_cbs cbs :: news).
    unfold bind at 1. rewrite Hd. unfold ret.
    repeat split; try done.
    + rewrite Hn. by rewrite <- app_assoc.
    + simpl. by rewrite Hl.
    + by constructor.
  - destruct (do_calls_CONNECTING (c :: cs) w Hs)
      as (w' & news & Hd & Hs' & Hc' & Hw' & Hn & Hl & Hf & Hcn & Hp & Hfi).
    exists w', news. by repeat split.
Qed.

(** ** What a computation leaves alone *)

Section Preserves.

Variable P : World -> World -> Prop.
Hypothesis P_refl : forall w, P w w.
Hypothesis P_trans : forall w1 w2 w3, P w1 w2 -> P w2 w3 -> P w1 w3.

Lemma preserves_ret {A} (a : A) : preserves P (ret a).
Proof. intros w. apply P_refl. Qed.

Lemma preserves_raise {A} (e : exn) : preserves P (raise (A := A) e).
Proof. intros w. apply P_refl. Qed.

Lemma preserves_gets {A} (f : World -> A) : preserves P (gets f).
Proof. intros w. apply P_refl. Qed.

Lemma preserves_bind {A B} (m : M A) (k : A -> M B) :
  preserves P m -> (forall a, preserves P (k a)) -> preserves P (bind m k).
Proof.
  intros Hm Hk w. unfold bind. specialize (Hm w).
  destruct (m w) as [[a|e] w1]; simpl in *; [|done].
  eapply P_trans; [exact Hm | apply Hk].
Qed.

Lemma preserves_try_except {A} (m : M A) :
  preserves P m -> preserves P (try_except m).
Proof.
  intros Hm w. unfold try_except. specialize (Hm w).
  by destruct (m w).
Qed.

Lemma preserves_modify (f : World -> World) :
  (forall w, P w (f w)) -> preserves P (modify f).
Proof. intros Hf w. apply Hf. Qed.

Lemma preserves_match_result {A B} (r : result A) (k : A -> M B) :
  (forall a, preserves P (k a)) ->
  preserves P (match r with Ok a => k a | Raise e => raise e end).
Proof. intros Hk. destruct r; [apply Hk | apply preserves_raise]. Qed.

End Preserves.

Lemma same_scribe_refl w : same_scribe w w.
Proof. done. Qed.

Lemma same_scribe_trans w1 w2 w3 :
  same_scribe w1 w2 -> same_scribe w2 w3 -> same_scribe w1 w3.
Proof. unfold same_scribe. congruence. Qed.

Lemma call_issued_refl w : call_issued w w.
Proof. repeat split. exists []. by rewrite app_nil_r. Qed.

Lemma call_issued_trans w1 w2 w3 :
  call_issued w1 w2 -> call_issued w2 w3 -> call_issued w1 w3.
Proof.
  intros (Hs & Hf & Hc & e1 & He1) (Hs' & Hf' & Hc' & e2 & He2).
  repeat split; try congruence.
  exists (e1 ++ e2). rewrite He2, He1. by rewrite app_assoc.
Qed.

Create HintDb frames.

Lemma call_issued_modify_Client p f : preserves call_issued (modify_Client p f).
Proof. intros w. simpl. repeat split. exists []. by rewrite app_nil_r. Qed.

Lemma call_issued_new_Deferred : preserves call_issued new_Deferred.
Proof. intros w. simpl. repeat split. by eexists. Qed.

#[local] Hint Resolve call_issued_modify_Client call_issued_new_Deferred : frames.

(** Known computations first; otherwise through the bind. *)
Ltac call_issued_steps :=
  repeat first
    [ solve [auto 1 with frames nocore]
    | apply (preserves_ret _ call_issued_refl)
    | apply (preserves_raise _ call_issued_refl)
    | apply (preserves_gets _ call_issued_refl)
    | apply (preserves_bind _ call_issued_trans); [|intros ?] ].

Lemma call_issued_get_Client p : preserves call_issued (get_Client p).
Proof.
  unfold get_Client. call_issued_steps.
  match goal with o : option Client |- _ => destruct o end; call_issued_steps.
Qed.
#[local] Hint Resolve call_issued_get_Client : frames.

Lemma call_issued_on_transport {A} p (m : Trans A) :
  preserves call_issued (on_transport p m).
Proof.
  unfold on_transport. call_issued_steps.
  match goal with c : Client |- _ => destruct (m (wbuf c)) as [[x|e] buf] end;
    call_issued_steps.
Qed.
#[local] Hint Resolve call_issued_on_transport : frames.

Lemma call_issued_send_Log p messages : preserves call_issued (send_Log p messages).
Proof. unfold send_Log, flush. call_issued_steps. Qed.
#[local] Hint Resolve call_issued_send_Log : frames.

Lemma call_issued_Log p messages : preserves call_issued (Log p messages).
Proof. unfold Log. call_issued_steps. Qed.
#[local] Hint Resolve call_issued_Log : frames.

Lemma call_issued__log entries client : preserves call_issued (_log entries client).
Proof. unfold _log. destruct client; call_issued_steps. Qed.

(** A callback never raises into the Deferred: the exception is its
    result. *)
Lemma as_outcome_ok (m : M value) (w : World) :
  exists o, as_outcome m w = (Ok o, snd (m w)).
Proof.
  unfold as_outcome, try_except, bind.
  destruct (m w) as [[v|e] w1]; simpl; eauto.
Qed.

(** The callbacks of a waiter run to the end or to the first Thrift
    call, and change nothing but what that call changes. *)
Lemma run_callbacks_log (h : outcome -> M outcome) (cbs : list handler)
    (r : outcome) (w : World) :
  Forall is_log cbs ->
  exists rest r' w',
    run_callbacks h cbs r w = (Ok (rest, r'), w') /\ call_issued w w'.
Proof.
  intros Hcbs. revert r w.
  induction Hcbs as [|cb cbs Hcb _ IH]; intros r w.
  - exists [], r, w. split; [done | apply call_issued_refl].
  - destruct cb as [|entries]; [done|]. simpl.
    destruct r as [client|e].
    + destruct (as_outcome_ok (_log entries client) w) as [o Ho].
      pose proof (call_issued__log entries client w) as Hw.
      unfold bind at 1. rewrite Ho.
      set (w1 := snd (_log entries client w)) in *.
      assert (Hgo : exists rest r' w',
                 run_callbacks h cbs o w1 = (Ok (rest, r'), w') /\
                 call_issued w w').
      { destruct (IH o w1) as (rest & r' & w' & Hr & Hw').
        exists rest, r', w'. split; [done|].
        by apply (call_issued_trans w w1 w'). }
      destruct o as [[| | | |d']|e]; try exact Hgo.
      exists cbs, (Success (VDeferred d')), w1. by split.
    + unfold bind, ret. simpl. apply IH.
Qed.

(** ** Resolving the waiters *)

(** [d.callback(v)] on a pending waiter: it is fired once, its
    callbacks run, and every other Deferred that existed is as it was. *)
Lemma callback_waiter_pending (d : did) (v : value) (w : World) :
  pending_waiter w d ->
  exists w',
    callback_waiter d v w = (Ok tt, w') /\
    scribe w' = scribe w /\
    fired w' = fired w ++ [(d, Success v)] /\
    connects w' = connects w /\
    (exists x, deferreds w' !! d = Some x /\ called x <> None) /\
    (forall d', d' <> d -> (d' < length (deferreds w))%nat ->
                deferreds w' !! d' = deferreds w !! d') /\
    (length (deferreds w) <= length (deferreds w'))%nat.
Proof.
  intros (cbs & Hd & Hcbs).
  unfold callback_waiter, fire.
  rewrite (bind_Ok _ _ _ _ _ (get_Deferred_Some _ _ _ Hd)). simpl.
  erewrite bind_Ok by (unfold bind, modify, put_Deferred; simpl; reflexivity).
  match goal with |- context [bind (run_callbacks ?h _ ?r) _ ?w0] =>
    set (w1 := w0);
    destruct (run_callbacks_log h cbs r w1 Hcbs)
      as (rest & r' & w2 & Hrun & Hs2 & Hf2 & Hc2 & extra & Hd2)
  end.
  rewrite (bind_Ok _ _ _ _ _ Hrun). unfold put_Deferred, modify.
  assert (Hlt : (d < length (deferreds w))%nat) by (by eapply lookup_lt_Some).
  assert (Hl1 : length (deferreds w1) = length (deferreds w))
    by (subst w1; simpl; by rewrite length_insert).
  eexists. split; [reflexivity|]. simpl.
  repeat split.
  - by rewrite Hs2.
  - by rewrite Hf2.
  - by rewrite Hc2.
  - eexists. split.
    + apply list_lookup_insert_eq. rewrite Hd2, length_app. lia.
    + done.
  - intros d' Hne Hd'.
    rewrite list_lookup_insert_ne by done.
    rewrite Hd2, lookup_app_l by lia.
    subst w1. simpl. by rewrite list_lookup_insert_ne.
  - rewrite length_insert, Hd2, length_app. lia.
Qed.

Lemma pending_waiter_kept (w w' : World) (d : did) :
  (deferreds w' !! d = deferreds w !! d) ->
  pending_waiter w d -> pending_waiter w' d.
Proof. intros Heq (cbs & Hd & Hcbs). exists cbs. by rewrite Heq. Qed.

(** The loop of [_connection_made] over a queue of pending waiters
    fires them front to back with the stored connection and leaves the
    queue empty. *)
Lemma while_waiting_pending (l : list did) :
  forall (n : nat) (w : World),
    _waiting (scribe w) = l ->
    (length l <= n)%nat ->
    NoDup l ->
    Forall (pending_waiter w) l ->
    exists w',
      while_waiting n w = (Ok tt, w') /\
      _state (scribe w') = _state (scribe w) /\
      _client (scribe w') = _client (scribe w) /\
      _waiting (scribe w') = [] /\
      connects w' = connects w /\
      fired w' =
        fired w ++
          map (fun d => (d, Success (client_value (_client (scribe w))))) l /\
      Forall (fun d => exists x, deferreds w' !! d = Some x /\ called x <> None) l /\
      (forall d', d' ∉ l -> (d' < length (deferreds w))%nat ->
                  deferreds w' !! d' = deferreds w !! d') /\
      (length (deferreds w) <= length (deferreds w'))%nat.
Proof.
  induction l as [|d l IH]; intros n w Hw Hn Hnd Hp.
  - exists w. destruct n; simpl; unfold bind, gets; rewrite Hw; simpl;
      rewrite app_nil_r; by repeat split.
  - destruct n as [|n]; [simpl in Hn; lia|].
    simpl. unfold bind at 1. unfold gets at 1. rewrite Hw.
    unfold bind at 1. unfold bind at 1. unfold modify at 1.
    set (w1 := set_scribe _ w).
    apply NoDup_cons in Hnd as [Hnotin Hnd].
    apply Forall_cons in Hp as [Hpd Hpl].
    assert (Hpd1 : pending_waiter w1 d) by exact Hpd.
    destruct (callback_waiter_pending d
                (client_value (_client (scribe w))) w1 Hpd1)
      as (w2 & Hcb & Hs2 & Hf2 & Hc2 & Hcalled & Hother & Hlen2).
    rewrite Hcb.
    destruct (IH n w2) as (w' & Hrun & Hst & Hcl & Hwt & Hcn & Hfi & Hall & Hoth & Hlen).
    + by rewrite Hs2.
    + simpl in Hn. lia.
    + done.
    + apply Forall_forall. intros d' Hd'.
      assert (Hpd' : pending_waiter w d')
        by (by eapply (proj1 (Forall_forall _ _) Hpl)).
      apply (pending_waiter_kept w w2); [|done].
      destruct Hpd' as (cbs & Hd'l & _).
      apply Hother.
      * by intros ->.
      * by eapply lookup_lt_Some.
    + exists w'. split; [done|].
      rewrite Hs2 in *. simpl in *.
      repeat split; try done.
      * by rewrite Hcn, Hc2.
      * rewrite Hfi, Hf2. simpl. by rewrite <- app_assoc.
      * constructor; [|done].
        destruct Hcalled as (x & Hx & Hxc).
        exists x. split; [|done].
        rewrite Hoth; [done|done|]. by eapply lookup_lt_Some.
      * intros d' Hd' Hlt. apply not_elem_of_cons in Hd' as [Hne Hni].
        rewrite Hoth by (try done; simpl; lia).
        by apply Hother.
      * lia.
Qed.

(** C3: when a connect succeeds, [_connection_made] moves the state to
    CONNECTED, stores the connection, and fires every queued waiter once,
    in the order of the queue (first in, first out), each with that same
    connection; the queue is empty afterwards, so the waiters of this
    episode are resolved as one uninterrupted run, before any waiter that
    is queued later, and no other Deferred that existed is touched. *)
Theorem connection_made_resolves_waiters
    (wr : _LossNotifyingWrapperProtocol) (w : World) :
  waiters_pending w ->
  exists w',
    _connection_made (VWrapper wr) w = (Ok (VProtocol (wrapped wr)), w') /\
    _state (scribe w') = CONNECTED /\
    _client (scribe w') = Some (wrapped wr) /\
    _waiting (scribe w') = [] /\
    fired w' =
      fired w ++
        map (fun d => (d, Success (VProtocol (wrapped wr))))
            (_waiting (scribe w)) /\
    Forall (fun d => exists x, deferreds w' !! d = Some x /\ called x <> None)
           (_waiting (scribe w)) /\
    connects w' = connects w /\
    (forall d', d' ∉ _waiting (scribe w) -> (d' < length (deferreds w))%nat ->
                deferreds w' !! d' = deferreds w !! d').
Proof.
  intros [Hnd Hp].
  unfold _connection_made.
  erewrite bind_Ok by reflexivity.
  erewrite bind_Ok by reflexivity.
  erewrite bind_Ok by reflexivity.
  match goal with |- context [bind (while_waiting ?n) _ ?w0] =>
    destruct (while_waiting_pending (_waiting (scribe w)) n w0)
      as (w' & Hrun & Hst & Hcl & Hwt & Hcn & Hfi & Hall & Hoth & Hlen);
      [done | simpl; lia | done | done |]
  end.
  rewrite (bind_Ok _ _ _ _ _ Hrun).
  simpl in *. unfold bind, gets, ret. rewrite Hcl. simpl.
  exists w'. by repeat split.
Qed.

(** ** The stored connection and the state *)

Lemma preserves_weaken {A} (P Q : World -> World -> Prop) (m : M A) :
  (forall w w', P w w' -> Q w w') -> preserves P m -> preserves Q m.
Proof. intros HPQ Hm w. apply HPQ, Hm. Qed.

Lemma same_scribe__log entries client : preserves same_scribe (_log entries client).
Proof.
  apply (preserves_weaken call_issued); [|apply call_issued__log].
  by intros w w' (Hs & _).
Qed.

Ltac same_scribe_steps :=
  repeat first
    [ apply same_scribe__log
    | apply (preserves_ret _ same_scribe_refl)
    | apply (preserves_raise _ same_scribe_refl)
    | apply (preserves_gets _ same_scribe_refl)
    | apply (preserves_try_except _)
    | apply (preserves_modify _); intros ?; reflexivity
    | apply (preserves_bind _ same_scribe_trans); [|intros ?] ].

Lemma same_scribe_as_outcome (m : M value) :
  preserves same_scribe m -> preserves same_scribe (as_outcome m).
Proof.
  intros Hm. unfold as_outcome.
  apply (preserves_bind _ same_scribe_trans);
    [by apply preserves_try_except|].
  intros [v|e]; apply (preserves_ret _ same_scribe_refl).
Qed.

(** Callbacks that do not run the connection callbacks leave the fields
    of the client alone. *)
Lemma same_scribe_run_callbacks (h : outcome -> M outcome) cbs r :
  (forall r, preserves same_scribe (h r)) ->
  preserves same_scribe (run_callbacks h cbs r).
Proof.
  intros Hh. revert r. induction cbs as [|cb cbs IH]; intros r; simpl.
  - apply (preserves_ret _ same_scribe_refl).
  - apply (preserves_bind _ same_scribe_trans).
    + destruct cb as [|entries]; simpl; [apply Hh|].
      destruct r; [apply same_scribe_as_outcome, same_scribe__log
                  | apply (preserves_ret _ same_scribe_refl)].
    + intros [[| | | |d']|e]; try apply IH.
      apply (preserves_ret _ same_scribe_refl).
Qed.

Lemma same_scribe_get_Deferred d : preserves same_scribe (get_Deferred d).
Proof.
  unfold get_Deferred.
  apply (preserves_bind _ same_scribe_trans);
    [apply (preserves_gets _ same_scribe_refl)|].
  intros [x|]; same_scribe_steps.
Qed.

Lemma same_scribe_fire (h : outcome -> M outcome) d r :
  (forall r, preserves same_scribe (h r)) ->
  preserves same_scribe (fire h d r).
Proof.
  intros Hh. unfold fire.
  apply (preserves_bind _ same_scribe_trans); [apply same_scribe_get_Deferred|].
  intros x. destruct (called x); [same_scribe_steps|].
  apply (preserves_bind _ same_scribe_trans).
  { unfold put_Deferred. same_scribe_steps. }
  intros _. apply (preserves_bind _ same_scribe_trans);
    [by apply same_scribe_run_callbacks|].
  intros [rest r']. unfold put_Deferred. same_scribe_steps.
Qed.

Lemma same_scribe_callback_waiter d v : preserves same_scribe (callback_waiter d v).
Proof.
  apply same_scribe_fire. intros r. apply (preserves_raise _ same_scribe_refl).
Qed.

Lemma same_connection_refl w : same_connection w w.
Proof. done. Qed.

Lemma same_connection_trans w1 w2 w3 :
  same_connection w1 w2 -> same_connection w2 w3 -> same_connection w1 w3.
Proof. unfold same_connection. intros [-> ->] [-> ->]. done. Qed.

(** The loop over the waiters changes neither the state nor the stored
    connection, whatever the waiters are. *)
Lemma same_connection_while_waiting n : preserves same_connection (while_waiting n).
Proof.
  induction n as [|n IH]; simpl.
  - apply (preserves_bind _ same_connection_trans);
      [apply (preserves_gets _ same_connection_refl)|].
    intros s. destruct (_waiting s);
      [apply (preserves_ret _ same_connection_refl)
      |apply (preserves_raise _ same_connection_refl)].
  - apply (preserves_bind _ same_connection_trans);
      [apply (preserves_gets _ same_connection_refl)|].
    intros s. destruct (_waiting s) as [|d rest];
      [apply (preserves_ret _ same_connection_refl)|].
    apply (preserves_bind _ same_connection_trans); [|intros _; apply IH].
    apply (preserves_bind _ same_connection_trans).
    + apply preserves_modify. intros w. done.
    + intros _. apply (preserves_weaken same_scribe);
        [|apply same_scribe_callback_waiter].
      intros w w' Hs. unfold same_connection. by rewrite Hs.
Qed.

Lemma _connection_made_scribe (wr : _LossNotifyingWrapperProtocol) (w : World) :
  _state (scribe (snd (_connection_made (VWrapper wr) w))) = CONNECTED /\
  _client (scribe (snd (_connection_made (VWrapper wr) w))) = Some (wrapped wr).
Proof.
  unfold _connection_made.
  erewrite bind_Ok by reflexivity.
  erewrite bind_Ok by reflexivity.
  erewrite bind_Ok by reflexivity.
  match goal with |- context [bind (while_waiting ?n) _ ?w0] =>
    pose proof (same_connection_while_waiting n w0) as [Hs Hc];
    destruct (while_waiting n w0) as [[[]|e] w'] eqn:Hrun
  end.
  - rewrite (bind_Ok _ _ _ _ _ Hrun). simpl in *. by split.
  - rewrite (bind_Raise _ _ _ _ _ Hrun). simpl in *. by split.
Qed.

(** C10: [_client] is not None exactly when [_state] is CONNECTED.  The
    constructor establishes this, and [_get_client], [_connection_made]
    (called with the protocol a connect hands over), [_connection_lost]
    and [_connection_failed] each keep it, whether they return or raise;
    so in NOT_CONNECTED and in CONNECTING the stored connection is
    None. *)
Theorem client_iff_connected_kept (w : World) :
  client_iff_connected (scribe w) ->
  client_iff_connected ScribeClient_init /\
  client_iff_connected (scribe (snd (_get_client w))) /\
  (forall wr, client_iff_connected
                (scribe (snd (_connection_made (VWrapper wr) w)))) /\
  (forall reason, client_iff_connected
                    (scribe (snd (_connection_lost reason w)))) /\
  (forall reason, client_iff_connected
                    (scribe (snd (_connection_failed reason w)))) /\
  (_state (scribe w) <> CONNECTED -> _client (scribe w) = None).
Proof.
  unfold client_iff_connected. intros Hinv. repeat split; try done.
  - destruct (_state (scribe w)) eqn:Hs.
    + rewrite (_get_client_NOT_CONNECTED w Hs). simpl. intros Hc.
      apply Hinv in Hc. congruence.
    + rewrite (_get_client_CONNECTING w Hs). simpl. intros Hc.
      apply Hinv in Hc. congruence.
    + by rewrite (_get_client_CONNECTED w Hs).
  - destruct (_state (scribe w)) eqn:Hs.
    + by rewrite (_get_client_NOT_CONNECTED w Hs).
    + rewrite (_get_client_CONNECTING w Hs). simpl. by rewrite Hs.
    + rewrite (_get_client_CONNECTED w Hs). intros _. by apply Hinv.
  - intros _. apply _connection_made_scribe.
  - intros _. destruct (_connection_made_scribe wr w) as [_ Hc]. by rewrite Hc.
  - intros Hne. destruct (_client (scribe w)) eqn:Hc; [|done].
    exfalso. apply Hne, Hinv. done.
Qed.

(** ** A failed connect *)

(** [_connection_failed] resets the state and the stored connection and
    does nothing else: the queue of waiters and every Deferred are as
    they were. *)
Lemma _connection_failed_eq (reason : exn) (w : World) :
  _connection_failed reason w =
    (Ok VNone,
     {| scribe := {| _state := NOT_CONNECTED; _client := None;
                     _waiting := _waiting (scribe w) |};
        deferreds := deferreds w; protocols := protocols w;
        connects := connects w; fired := fired w |}).
Proof. reflexivity. Qed.

(** C2, on the code: two callers arrive while there is no connection,
    the second is queued as waiter 1, and the connect (Deferred 0) fails.
    The failure handler resets the state and the stored connection, yet
    waiter 1 stays in the queue, not fired.  A third caller then starts
    a new connect (Deferred 2); when that one succeeds, waiter 1 of the
    failed episode is resolved with the connection of the later one. *)
Theorem failed_connect_leaves_waiter :
  let w1 := snd (do_calls [call_log "app" (one_message "a");
                           call_log "app" (one_message "b")] World_init) in
  let w2 := snd (connect_failed 0%nat "refused" w1) in
  let w3 := snd (do_calls [call_log "app" (one_message "c")] w2) in
  let w4 := snd (connect_succeeded 2%nat w3) in
  (_state (scribe w1) = CONNECTING /\ connects w1 = [0%nat] /\
   _waiting (scribe w1) = [1%nat]) /\
  (_state (scribe w2) = NOT_CONNECTED /\ _client (scribe w2) = None /\
   _waiting (scribe w2) = [1%nat] /\
   called <$> deferreds w2 !! 1%nat = Some None /\
   fired w2 = [(0%nat, Failure (ConnectError "refused"))]) /\
  (_state (scribe w4) = CONNECTED /\ _waiting (scribe w4) = [] /\
   fired w4 = [(0%nat, Failure (ConnectError "refused"));
               (2%nat, Success (VWrapper {| wrapped := 0%nat |}));
               (1%nat, Success (VProtocol 0%nat))]).
Proof. vm_compute. by repeat split. Qed.

(** ** The convenience of a single string *)

(** C9: [log(category, s)] with one string is [log(category, [s])]: the
    string is wrapped before anything else happens, both calls build the
    one-element list [LogEntry(category, s)], and from there on they are
    the same call, in every state of the client. *)
Theorem log_single_string (category s : string) (w : World) :
  log_entries category (one_message s) = [LogEntry_new category s] /\
  log_entries category (many_messages [s]) = [LogEntry_new category s] /\
  log category (one_message s) w = log category (many_messages [s]) w.
Proof. by repeat split. Qed.

(** ** Replies *)

Lemma get_Client_Some (p : pid) (w : World) (c : Client) :
  protocols w !! p = Some c -> get_Client p w = (Ok c, w).
Proof. intros H. unfold get_Client, bind, gets. by rewrite H. Qed.

Lemma modify_Client_Some (p : pid) (f : Client -> Client) (w : World) (c : Client) :
  protocols w !! p = Some c ->
  modify_Client p f w = (Ok tt, set_protocols (fun ps => <[p := f c]> ps) w).
Proof. intros H. unfold modify_Client, modify, set_protocols. by rewrite H. Qed.

Lemma only_scribe_refl w : only_scribe w w.
Proof. done. Qed.

Lemma only_scribe_trans w1 w2 w3 :
  only_scribe w1 w2 -> only_scribe w2 w3 -> only_scribe w1 w3.
Proof.
  unfold only_scribe. intros (-> & -> & -> & ->) (-> & -> & -> & ->). done.
Qed.

(** On an inert result a callback returns an inert result and touches
    at most the fields of the client. *)
Lemma run_callback_inert (cb : handler) (r : outcome) (w : World) :
  inert r ->
  exists r' w',
    run_callback connection_callbacks cb r w = (Ok r', w') /\
    inert r' /\ only_scribe w w'.
Proof.
  intros Hr. destruct cb as [|entries]; destruct r as [[]|e]; try done;
    simpl; eexists _, _; (split; [reflexivity|]); by split.
Qed.

Lemma run_callbacks_inert (cbs : list handler) (r : outcome) (w : World) :
  inert r ->
  exists rest r' w',
    run_callbacks connection_callbacks cbs r w = (Ok (rest, r'), w') /\
    only_scribe w w'.
Proof.
  revert r w. induction cbs as [|cb cbs IH]; intros r w Hr.
  - by exists [], r, w.
  - destruct (run_callback_inert cb r w Hr) as (r1 & w1 & Hcb & Hr1 & Hw1).
    simpl. rewrite (bind_Ok _ _ _ _ _ Hcb).
    destruct (IH r1 w1 Hr1) as (rest & r' & w' & Hrun & Hw').
    assert (Hgo : exists rest r' w',
               run_callbacks connection_callbacks cbs r1 w1 = (Ok (rest, r'), w') /\
               only_scribe w w').
    { exists rest, r', w'. split; [done|]. by apply (only_scribe_trans w w1). }
    destruct r1 as [[| | | |d']|e]; try exact Hgo.
    by exists cbs, (Success (VDeferred d')), w1.
Qed.

(** [callback] or [errback] with an inert result on a Deferred that was
    not fired: the call is recorded, the Deferred has a result, and no
    other Deferred and no connection changes. *)
Lemma fire_inert (d : did) (r : outcome) (w : World) (x : Deferred) :
  inert r ->
  deferreds w !! d = Some x ->
  called x = None ->
  exists w' x',
    fire connection_callbacks d r w = (Ok tt, w') /\
    fired w' = fired w ++ [(d, r)] /\
    protocols w' = protocols w /\
    connects w' = connects w /\
    deferreds w' = <[d := x']> (deferreds w) /\
    called x' <> None /\
    (callbacks x = [] -> x' = {| callbacks := []; called := Some r |}).
Proof.
  intros Hr Hd Hx. unfold fire.
  rewrite (bind_Ok _ _ _ _ _ (get_Deferred_Some _ _ _ Hd)). rewrite Hx.
  erewrite bind_Ok by (unfold bind, modify, put_Deferred; simpl; reflexivity).
  match goal with |- context [bind (run_callbacks _ _ _) _ ?w0] =>
    destruct (run_callbacks_inert (callbacks x) r w0 Hr)
      as (rest & r' & w' & Hrun & Hd' & Hp' & Hc' & Hf')
  end.
  rewrite (bind_Ok _ _ _ _ _ Hrun). unfold put_Deferred, modify.
  eexists _, {| callbacks := rest; called := Some r' |}.
  split; [reflexivity|]. simpl in *.
  rewrite Hd', Hp', Hc', Hf'. repeat split; try done.
  - by rewrite list_insert_insert_eq.
  - intros Hcbs. rewrite Hcbs in Hrun. simpl in Hrun.
    unfold ret in Hrun. by inversion Hrun.
Qed.

(** [recv_Log] on a pending call: the call is removed, then the reply
    decoded and the Deferred fired. *)
Lemma recv_Log_pending (p : pid) (iprot : bytes) (mtype rseqid : Z)
    (w : World) (c : Client) (d : did) :
  protocols w !! p = Some c ->
  _reqs c !! rseqid = Some d ->
  recv_Log p iprot mtype rseqid w =
    (if mtype =? TMessageType.EXCEPTION then
       let* x := on_message iprot
                   (let* x := TApplicationException_read
                                (TApplicationException.mk
                                   TApplicationException.UNKNOWN None) in
                    readMessageEnd >> ret x) in
       errback d (Thrown x)
     else
       let* result := on_message iprot
                        (let* result := Log_result.read Log_result.init in
                         readMessageEnd >> ret result) in
       match Log_result.success result with
       | Some v => callback d (VInt v)
       | None => errback d missing_result
       end)
      (set_protocols
         (fun ps => <[p := {| _seqid := _seqid c;
                              _reqs := delete rseqid (_reqs c);
                              wbuf := wbuf c; sent := sent c |}]> ps) w).
Proof.
  intros Hp Hk. unfold recv_Log.
  rewrite (bind_Ok _ _ _ _ _ (get_Client_Some _ _ _ Hp)). rewrite Hk.
  by rewrite (bind_Ok _ _ _ _ _ (modify_Client_Some _ _ _ _ Hp)).
Qed.

Lemma resolved_by_fire (p : pid) (rseqid : Z) (w : World) (c : Client)
    (d : did) (x : Deferred) (r : outcome) :
  protocols w !! p = Some c ->
  deferreds w !! d = Some x ->
  called x = None ->
  inert r ->
  exists w',
    fire connection_callbacks d r
      (set_protocols
         (fun ps => <[p := {| _seqid := _seqid c;
                              _reqs := delete rseqid (_reqs c);
                              wbuf := wbuf c; sent := sent c |}]> ps) w)
    = (Ok tt, w') /\
    resolved_with p rseqid d r w w'.
Proof.
  intros Hp Hd Hx Hr.
  match goal with |- context [fire _ _ _ ?w0] =>
    destruct (fire_inert d r w0 x Hr Hd Hx)
      as (w' & x' & Hfire & Hfi & Hpr & Hcn & Hde & Hcalled & _)
  end.
  exists w'. split; [done|]. unfold resolved_with. simpl in *.
  split; [exact Hfi|]. split; [exists x'; split; [exact Hde | exact Hcalled]|].
  split; [|exact Hcn].
  eexists c, _. split; [exact Hp|]. split; [exact Hpr|]. by split.
Qed.

Lemma on_message_Ok {A} (iprot : bytes) (m : Trans A) (a : A) (w : World) :
  fst (m iprot) = Ok a -> on_message iprot m w = (Ok a, w).
Proof. intros H. unfold on_message. by rewrite H. Qed.

Lemma read_then_end {A} (m : Trans A) (iprot : bytes) (a : A) :
  fst (m iprot) = Ok a ->
  fst ((let* x := m in readMessageEnd >> ret x) iprot) = Ok a.
Proof.
  intros H. unfold bind, readMessageEnd, ret.
  destruct (m iprot) as [[a'|e] bs]; simpl in *; congruence.
Qed.

(** C4, as the code has it: for a reply to a pending call, a message of
    kind EXCEPTION fails the call with the decoded TApplicationException;
    any other kind, REPLY among them, is read as a result struct, and the
    call is resolved
    with the success field when it is present, and failed with
    TApplicationException(MISSING_RESULT, "Log failed: unknown result")
    when it is absent.  In each case the call leaves [_reqs]. *)
Theorem recv_Log_resolves_pending_call (p : pid) (iprot : bytes)
    (mtype rseqid : Z) (w : World) (c : Client) (d : did) (x : Deferred) :
  protocols w !! p = Some c ->
  _reqs c !! rseqid = Some d ->
  deferreds w !! d = Some x ->
  called x = None ->
  let resolved (r : outcome) :=
    exists w', recv_Log p iprot mtype rseqid w = (Ok tt, w') /\
               resolved_with p rseqid d r w w' in
  (mtype = TMessageType.EXCEPTION ->
   forall exc,
     fst (TApplicationException_read
            (TApplicationException.mk TApplicationException.UNKNOWN None)
            iprot) = Ok exc ->
     resolved (Failure (Thrown exc))) /\
  (mtype <> TMessageType.EXCEPTION ->
   forall result,
     fst (Log_result.read Log_result.init iprot) = Ok result ->
     match Log_result.success result with
     | Some v => resolved (Success (VInt v))
     | None => resolved (Failure missing_result)
     end).
Proof.
  intros Hp Hk Hd Hx resolved. subst resolved. split.
  - intros -> exc Hexc.
    rewrite (recv_Log_pending _ _ _ _ _ _ _ Hp Hk). simpl.
    rewrite (bind_Ok _ _ _ _ _
               (on_message_Ok _ _ _ _ (read_then_end _ _ _ Hexc))).
    by apply (resolved_by_fire p rseqid w c d x).
  - intros Hne result Hres.
    rewrite (recv_Log_pending _ _ _ _ _ _ _ Hp Hk).
    apply Z.eqb_neq in Hne. rewrite Hne.
    rewrite (bind_Ok _ _ _ _ _
               (on_message_Ok _ _ _ _ (read_then_end _ _ _ Hres))).
    destruct (Log_result.success result) as [v|].
    + by apply (resolved_by_fire p rseqid w c d x).
    + by apply (resolved_by_fire p rseqid w c d x).
Qed.

(** C5: a message whose sequence id has no pending call is not dropped
    in silence: [recv_Log] raises KeyError for the id before it reads or
    changes anything. *)
Theorem recv_Log_unmatched (p : pid) (iprot : bytes) (mtype rseqid : Z)
    (w : World) (c : Client) :
  protocols w !! p = Some c ->
  _reqs c !! rseqid = None ->
  recv_Log p iprot mtype rseqid w = (Raise (KeyError rseqid), w).
Proof.
  intros Hp Hk. unfold recv_Log.
  rewrite (bind_Ok _ _ _ _ _ (get_Client_Some _ _ _ Hp)). by rewrite Hk.
Qed.

(** C4, where the claim fails: the error of a reply without a result is
    itself a TApplicationException.  A reply of kind EXCEPTION that
    carries type 5 and the same message fails the pending call with the
    very same value, so the two cannot be told apart. *)
Lemma missing_result_not_distinct :
  _reqs <$> protocols one_pending_call !! 0%nat = Some {[ 1 := 1%nat ]} /\
  fired (snd (recv_Log 0%nat empty_reply TMessageType.REPLY 1 one_pending_call)) =
    fired one_pending_call ++
      [(1%nat, Failure (Thrown (TApplicationException.mk 5
                                  (Some "Log failed: unknown result"%string))))] /\
  recv_Log 0%nat exception_reply TMessageType.EXCEPTION 1 one_pending_call =
    recv_Log 0%nat empty_reply TMessageType.REPLY 1 one_pending_call.
Proof. vm_compute. by repeat split. Qed.

(** ** Sequence ids *)

Lemma same_calls_refl p w : same_calls p w w.
Proof. intros c Hc. by exists c. Qed.

Lemma same_calls_trans p w1 w2 w3 :
  same_calls p w1 w2 -> same_calls p w2 w3 -> same_calls p w1 w3.
Proof.
  intros H12 H23 c Hc.
  destruct (H12 c Hc) as (c2 & Hc2 & Hs2 & Hr2).
  destruct (H23 c2 Hc2) as (c3 & Hc3 & Hs3 & Hr3).
  exists c3. repeat split; congruence.
Qed.

(** Writing to the transport and flushing it change neither. *)
Lemma same_calls_modify_Client p q (f : Client -> Client) :
  (forall c, _seqid (f c) = _seqid c /\ _reqs (f c) = _reqs c) ->
  preserves (same_calls p) (modify_Client q f).
Proof.
  intros Hf w c Hc. simpl.
  destruct (protocols w !! q) as [cq|] eqn:Hq; [|by exists c].
  destruct (decide (q = p)) as [->|Hne].
  - exists (f c). rewrite list_lookup_insert_eq by (by eapply lookup_lt_Some).
    assert (cq = c) as -> by congruence. split; [done|apply Hf].
  - exists c. by rewrite list_lookup_insert_ne.
Qed.

Lemma same_calls_get_Client p q : preserves (same_calls p) (get_Client q).
Proof.
  unfold get_Client.
  apply (preserves_bind _ (same_calls_trans p));
    [apply (preserves_gets _ (same_calls_refl p))|].
  intros [c|]; [apply (preserves_ret _ (same_calls_refl p))
               |apply (preserves_raise _ (same_calls_refl p))].
Qed.

Lemma same_calls_on_transport {A} p q (m : Trans A) :
  preserves (same_calls p) (on_transport q m).
Proof.
  unfold on_transport.
  apply (preserves_bind _ (same_calls_trans p)); [apply same_calls_get_Client|].
  intros c. destruct (m (wbuf c)) as [[a|e] buf];
    (apply (preserves_bind _ (same_calls_trans p));
     [by apply same_calls_modify_Client|intros _]).
  - apply (preserves_ret _ (same_calls_refl p)).
  - apply (preserves_raise _ (same_calls_refl p)).
Qed.

Lemma same_calls_send_Log p q messages :
  preserves (same_calls p) (send_Log q messages).
Proof.
  unfold send_Log, flush.
  apply (preserves_bind _ (same_calls_trans p)); [apply same_calls_get_Client|].
  intros c.
  apply (preserves_bind _ (same_calls_trans p)); [apply same_calls_on_transport|].
  intros _. by apply same_calls_modify_Client.
Qed.

(** [Log] takes the next sequence id and enters the new Deferred under
    it, whether or not the message can then be written. *)
Lemma Log_allocates (p : pid) (messages : list LogEntry.t) (w : World) (c : Client) :
  protocols w !! p = Some c ->
  exists c',
    protocols (snd (Log p messages w)) !! p = Some c' /\
    _seqid c' = _seqid c + 1 /\
    _reqs c' = <[_seqid c + 1 := length (deferreds w)]> (_reqs c).
Proof.
  intros Hp. unfold Log.
  assert (Hlt : (p < length (protocols w))%nat) by (by eapply lookup_lt_Some).
  rewrite (bind_Ok _ _ _ _ _ (modify_Client_Some _ _ _ _ Hp)).
  rewrite (bind_Ok _ _ _ _ _ (new_Deferred_eq _)).
  rewrite bind_assoc.
  erewrite bind_Ok
    by (apply modify_Client_Some; simpl; by apply list_lookup_insert_eq).
  match goal with |- context [bind (send_Log p messages) _ ?w0] =>
    pose proof (same_calls_send_Log p p messages w0) as Hsend;
    destruct (send_Log p messages w0) as [[[]|e] w'] eqn:Hrun
  end.
  - rewrite (bind_Ok _ _ _ _ _ Hrun). simpl in *.
    destruct (Hsend _ (list_lookup_insert_eq _ _ _ ltac:(by rewrite length_insert)))
      as (c' & Hc' & Hs' & Hr').
    exists c'. by repeat split.
  - rewrite (bind_Raise _ _ _ _ _ Hrun). simpl in *.
    destruct (Hsend _ (list_lookup_insert_eq _ _ _ ltac:(by rewrite length_insert)))
      as (c' & Hc' & Hs' & Hr').
    exists c'. by repeat split.
Qed.

Lemma fire_inert_protocols (d : did) (r : outcome) (w : World) :
  inert r -> protocols (snd (fire connection_callbacks d r w)) = protocols w.
Proof.
  intros Hr. destruct (deferreds w !! d) as [x|] eqn:Hd.
  - destruct (called x) as [r0|] eqn:Hx.
    + unfold fire. rewrite (bind_Ok _ _ _ _ _ (get_Deferred_Some _ _ _ Hd)).
      by rewrite Hx.
    + destruct (fire_inert d r w x Hr Hd Hx) as (w' & x' & Hf & _ & Hp & _).
      by rewrite Hf.
  - unfold fire, get_Deferred, bind, gets. by rewrite Hd.
Qed.

Lemma on_message_world {A} (iprot : bytes) (m : Trans A) (w : World) :
  snd (on_message iprot m w) = w.
Proof. unfold on_message. by destruct (fst (m iprot)). Qed.

Lemma recv_Log_no_call (p : pid) (iprot : bytes) (mtype rseqid : Z)
    (w : World) (c : Client) :
  protocols w !! p = Some c ->
  _reqs c !! rseqid = None ->
  recv_Log p iprot mtype rseqid w = (Raise (KeyError rseqid), w).
Proof.
  intros Hp Hk. unfold recv_Log.
  rewrite (bind_Ok _ _ _ _ _ (get_Client_Some _ _ _ Hp)). by rewrite Hk.
Qed.

(** Whatever the reply is, once [recv_Log] is through the sequence id is
    not pending, and the last sequence id allocated is unchanged. *)
Lemma recv_Log_removes (p : pid) (iprot : bytes) (mtype rseqid : Z)
    (w : World) (c : Client) :
  protocols w !! p = Some c ->
  exists c',
    protocols (snd (recv_Log p iprot mtype rseqid w)) !! p = Some c' /\
    _seqid c' = _seqid c /\
    _reqs c' = delete rseqid (_reqs c).
Proof.
  intros Hp.
  assert (Hlt : (p < length (protocols w))%nat) by (by eapply lookup_lt_Some).
  destruct (_reqs c !! rseqid) as [d|] eqn:Hk.
  - rewrite (recv_Log_pending _ _ _ _ _ _ _ Hp Hk).
    exists {| _seqid := _seqid c; _reqs := delete rseqid (_reqs c);
              wbuf := wbuf c; sent := sent c |}.
    split; [|done].
    destruct (mtype =? TMessageType.EXCEPTION).
    + unfold bind.
      match goal with |- context [on_message ?i ?m ?w0] =>
        pose proof (on_message_world i m w0) as Hw;
        destruct (on_message i m w0) as [[exc|e] w1]
      end; simpl in Hw; subst w1.
      * unfold errback. rewrite fire_inert_protocols by done.
        simpl. by apply list_lookup_insert_eq.
      * simpl. by apply list_lookup_insert_eq.
    + unfold bind.
      match goal with |- context [on_message ?i ?m ?w0] =>
        pose proof (on_message_world i m w0) as Hw;
        destruct (on_message i m w0) as [[result|e] w1]
      end; simpl in Hw; subst w1.
      * destruct (Log_result.success result); unfold callback, errback;
          rewrite fire_inert_protocols by done;
          simpl; by apply list_lookup_insert_eq.
      * simpl. by apply list_lookup_insert_eq.
  - rewrite (recv_Log_no_call _ _ _ _ _ _ Hp Hk). simpl.
    exists c. by rewrite delete_id.
Qed.

Lemma reqs_bounded_init : reqs_bounded Client_init.
Proof. intros k [d Hd]. simpl in Hd. by rewrite lookup_empty in Hd. Qed.

Lemma reqs_bounded_insert (c c' : Client) (d : did) :
  reqs_bounded c ->
  _seqid c' = _seqid c + 1 ->
  _reqs c' = <[_seqid c + 1 := d]> (_reqs c) ->
  reqs_bounded c'.
Proof.
  intros Hb Hs Hr k Hk. rewrite Hr in Hk. rewrite Hs.
  apply lookup_insert_is_Some in Hk as [<-|[_ Hk]]; [lia|].
  specialize (Hb k Hk). lia.
Qed.

Lemma reqs_bounded_delete (c c' : Client) (k0 : Z) :
  reqs_bounded c ->
  _seqid c' = _seqid c ->
  _reqs c' = delete k0 (_reqs c) ->
  reqs_bounded c'.
Proof.
  intros Hb Hs Hr k Hk. rewrite Hr in Hk. rewrite Hs.
  apply lookup_delete_is_Some in Hk as [_ Hk]. by apply Hb.
Qed.

Lemma do_client_call_Log (p : pid) (messages : list LogEntry.t) (w : World) :
  snd (do_client_call p (call_Log messages) w) = snd (Log p messages w).
Proof. simpl. unfold bind, ret. by destruct (Log p messages w) as [[d|e] w']. Qed.

(** Along any sequence of calls on a connection the ids allocated grow
    strictly, and no pending call is ever above the last one allocated. *)
Lemma seqids_increase (p : pid) (calls : list client_call) :
  forall (w : World) (c : Client),
    protocols w !! p = Some c ->
    reqs_bounded c ->
    StronglySorted Z.lt (seqids_allocated p calls w) /\
    Forall (fun k => _seqid c < k) (seqids_allocated p calls w) /\
    exists c', protocols (do_client_calls p calls w) !! p = Some c' /\
               reqs_bounded c' /\ _seqid c <= _seqid c'.
Proof.
  induction calls as [|call calls IH]; intros w c Hp Hb.
  - simpl. repeat split; [constructor|constructor|]. exists c. by repeat split.
  - destruct call as [messages|iprot mtype rseqid].
    + destruct (Log_allocates p messages w c Hp) as (c1 & Hp1 & Hs1 & Hr1).
      cbn [seqids_allocated do_client_calls].
      rewrite do_client_call_Log.
      destruct (IH _ c1 Hp1 (reqs_bounded_insert _ _ _ Hb Hs1 Hr1))
        as (Hsorted & Hall & c' & Hp' & Hb' & Hle).
      unfold seqid_of. rewrite Hp1. rewrite Hs1 in *.
      repeat split.
      * by constructor.
      * constructor; [lia|]. eapply Forall_impl; [exact Hall|].
        intros k Hk. simpl in Hk. lia.
      * exists c'. repeat split; [done|done|lia].
    + destruct (recv_Log_removes p iprot mtype rseqid w c Hp)
        as (c1 & Hp1 & Hs1 & Hr1).
      cbn [seqids_allocated do_client_calls do_client_call].
      destruct (IH _ c1 Hp1 (reqs_bounded_delete _ _ _ Hb Hs1 Hr1))
        as (Hsorted & Hall & c' & Hp' & Hb' & Hle).
      rewrite Hs1 in *. repeat split; try done.
      exists c'. by repeat split.
Qed.

(** C8: on a connection, each [Log] call takes the sequence id one above
    the last, so over any sequence of [Log] and [recv_Log] calls the ids
    allocated are strictly increasing; the id a [Log] call takes is not
    the id of a pending call; and [recv_Log] removes the call it was
    given the id of from [_reqs], whether the reply resolves the call,
    fails it, or cannot be decoded. *)
Theorem seqid_allocation (p : pid) (w : World) (c : Client)
    (calls : list client_call) :
  protocols w !! p = Some c ->
  reqs_bounded c ->
  reqs_bounded Client_init /\
  (StronglySorted Z.lt (seqids_allocated p calls w) /\
   Forall (fun k => _seqid c < k) (seqids_allocated p calls w) /\
   exists c', protocols (do_client_calls p calls w) !! p = Some c' /\
              reqs_bounded c' /\ _seqid c <= _seqid c') /\
  (forall messages,
     exists c', protocols (snd (Log p messages w)) !! p = Some c' /\
                _seqid c' = _seqid c + 1 /\
                _reqs c !! (_seqid c + 1) = None /\
                _reqs c' = <[_seqid c + 1 := length (deferreds w)]> (_reqs c)) /\
  (forall iprot mtype rseqid,
     exists c', protocols (snd (recv_Log p iprot mtype rseqid w)) !! p = Some c' /\
                _seqid c' = _seqid c /\
                _reqs c' = delete rseqid (_reqs c) /\
                _reqs c' !! rseqid = None).
Proof.
  intros Hp Hb. split; [apply reqs_bounded_init|].
  split; [by apply seqids_increase|]. split.
  - intros messages.
    destruct (Log_allocates p messages w c Hp) as (c' & Hp' & Hs' & Hr').
    exists c'. repeat split; try done.
    destruct (_reqs c !! (_seqid c + 1)) as [d|] eqn:Hk; [|done].
    specialize (Hb (_seqid c + 1) (mk_is_Some _ _ Hk)). lia.
  - intros iprot mtype rseqid.
    destruct (recv_Log_removes p iprot mtype rseqid w c Hp)
      as (c' & Hp' & Hs' & Hr').
    exists c'. repeat split; try done.
    rewrite Hr'. apply lookup_delete_eq.
Qed.

(** ** Integers and strings on the wire *)

Import TBinaryProtocol.

Lemma Z_of_byte_of_Z (z : Z) : Z_of_byte (byte_of_Z z) = z mod 256.
Proof.
  unfold Z_of_byte, byte_of_Z.
  pose proof (Z.mod_pos_bound z 256 ltac:(lia)) as Hb.
  destruct (Byte.of_N (Z.to_N (z mod 256))) as [b|] eqn:Hof.
  - apply Byte.to_of_N in Hof. rewrite Hof. apply Z2N.id. lia.
  - apply Byte.of_N_None_iff in Hof. lia.
Qed.

Lemma length_be_encode (n : nat) (z : Z) : length (be_encode n z) = n.
Proof.
  revert z. induction n as [|n IH]; intros z; simpl; [done|].
  rewrite length_app, IH. simpl. lia.
Qed.

Lemma be_decode_encode_acc (n : nat) (z acc : Z) :
  fold_left (fun a b => a * 256 + Z_of_byte b) (be_encode n z) acc =
    acc * 256 ^ Z.of_nat n + z mod 256 ^ Z.of_nat n.
Proof.
  revert z acc. induction n as [|n IH]; intros z acc.
  - simpl. rewrite Z.mod_1_r. lia.
  - cbn [be_encode]. rewrite fold_left_app. cbn [fold_left].
    rewrite IH, Z_of_byte_of_Z.
    rewrite Nat2Z.inj_succ, Z.pow_succ_r by lia.
    rewrite (Z.rem_mul_r z 256 (256 ^ Z.of_nat n)) by lia.
    lia.
Qed.

Lemma be_decode_encode (n : nat) (z : Z) :
  be_decode (be_encode n z) = z mod 256 ^ Z.of_nat n.
Proof. unfold be_decode. rewrite be_decode_encode_acc. lia. Qed.

Lemma pow_256 (n : nat) : 256 ^ Z.of_nat n = 2 ^ (8 * Z.of_nat n).
Proof. rewrite Z.pow_mul_r by lia. done. Qed.

Lemma to_signed_mod (n : nat) (z : Z) :
  (0 < n)%nat ->
  in_range n z = true ->
  to_signed n (z mod 256 ^ Z.of_nat n) = z.
Proof.
  intros Hn Hr. unfold in_range in Hr. apply andb_true_iff in Hr as [Hlo Hhi].
  apply Z.leb_le in Hlo. apply Z.ltb_lt in Hhi.
  unfold to_signed. rewrite pow_256.
  set (m := 8 * Z.of_nat n) in *.
  assert (Hm : 2 ^ m = 2 * 2 ^ (m - 1)).
  { rewrite <- Z.pow_succ_r by lia. f_equal. lia. }
  assert (Hpos : 0 < 2 ^ (m - 1)) by (apply Z.pow_pos_nonneg; lia).
  destruct (Z.leb_spec 0 z) as [Hz|Hz].
  - rewrite Z.mod_small by lia.
    destruct (Z.ltb_spec z (2 ^ (m - 1))); lia.
  - replace (z mod 2 ^ m) with (z + 2 ^ m); cycle 1.
    { apply (Z.mod_unique_pos _ _ (-1)); lia. }
    destruct (Z.ltb_spec (z + 2 ^ m) (2 ^ (m - 1))); lia.
Qed.

Lemma readAll_app (bs rest : bytes) :
  readAll (Z.of_nat (length bs)) (bs ++ rest) = (Ok bs, rest).
Proof.
  unfold readAll. rewrite length_app, Nat2Z.id.
  destruct (Z.leb_spec (Z.of_nat (length bs))
              (Z.of_nat (length bs + length rest))); [|lia].
  by rewrite take_app_length, drop_app_length.
Qed.

Lemma writeInt_eq (n : nat) (z : Z) (out : bytes) :
  in_range n z = true ->
  writeInt n z out = (Ok tt, out ++ be_encode n z).
Proof. intros Hr. unfold writeInt. by rewrite Hr. Qed.

Lemma readInt_encode (n : nat) (z : Z) (rest : bytes) :
  (0 < n)%nat ->
  in_range n z = true ->
  readInt n (be_encode n z ++ rest) = (Ok z, rest).
Proof.
  intros Hn Hr. unfold readInt.
  pose proof (readAll_app (be_encode n z) rest) as Hra.
  rewrite length_be_encode in Hra.
  rewrite (bind_Ok _ _ _ _ _ Hra). unfold ret.
  by rewrite be_decode_encode, to_signed_mod.
Qed.

Lemma writes_ret : writes (ret tt) [].
Proof. intros out. unfold ret. by rewrite app_nil_r. Qed.

Lemma writes_bind (m1 m2 : Trans unit) (b1 b2 : bytes) :
  writes m1 b1 -> writes m2 b2 -> writes (m1 >> m2) (b1 ++ b2).
Proof.
  intros H1 H2 out. rewrite (bind_Ok _ _ _ _ _ (H1 out)).
  rewrite H2. by rewrite app_assoc.
Qed.

Lemma reads_ret {A} (a : A) : reads (ret a) [] a.
Proof. by intros rest. Qed.

Lemma reads_bind {A B} (m : Trans A) (k : A -> Trans B) (b1 b2 : bytes)
    (a : A) (b : B) :
  reads m b1 a -> reads (k a) b2 b -> reads (bind m k) (b1 ++ b2) b.
Proof.
  intros H1 H2 rest. rewrite <- app_assoc.
  rewrite (bind_Ok _ _ _ _ _ (H1 _)). apply H2.
Qed.

(** A loop run by [with_budget] has more turns than there are bytes. *)
Lemma reads_with_budget {A} (loop : nat -> Trans A) (bs : bytes) (a : A) :
  (forall n, (length bs < n)%nat -> reads (loop n) bs a) ->
  reads (with_budget loop) bs a.
Proof.
  intros H rest. unfold with_budget. apply H.
  rewrite length_app. lia.
Qed.

Lemma writes_writeInt (n : nat) (z : Z) :
  in_range n z = true -> writes (writeInt n z) (be_encode n z).
Proof. intros Hr out. by apply writeInt_eq. Qed.

Lemma reads_readInt (n : nat) (z : Z) :
  (0 < n)%nat -> in_range n z = true -> reads (readInt n) (be_encode n z) z.
Proof. intros Hn Hr rest. by apply readInt_encode. Qed.

Lemma length_list_byte_of_string (s : string) :
  length (list_byte_of_string s) = String.length s.
Proof.
  unfold list_byte_of_string. rewrite length_map.
  induction s as [|a s IH]; simpl; [done|by rewrite IH].
Qed.

Lemma in_range_i32_length (n : nat) : fits_i32 n -> in_range 4 (Z.of_nat n) = true.
Proof.
  unfold fits_i32, in_range. intros H. apply andb_true_iff.
  split; [apply Z.leb_le|apply Z.ltb_lt]; simpl; lia.
Qed.

Lemma writes_writeString (s : string) :
  fits_i32 (String.length s) -> writes (writeString s) (enc_string s).
Proof.
  intros Hs. unfold writeString, enc_string. apply writes_bind.
  - by apply writes_writeInt, in_range_i32_length.
  - by intros out.
Qed.

Lemma reads_readString (s : string) :
  fits_i32 (String.length s) -> reads (readString) (enc_string s) s.
Proof.
  intros Hs. unfold readString, enc_string.
  eapply reads_bind;
    [by apply (reads_readInt 4), in_range_i32_length; [lia|]|].
  intros rest. rewrite <- (length_list_byte_of_string s).
  rewrite (bind_Ok _ _ _ _ _ (readAll_app _ _)). unfold ret.
  by rewrite string_of_list_byte_of_string.
Qed.

Lemma writes_writeFieldBegin (name : string) (type id : Z) :
  in_range 1 type = true -> in_range 2 id = true ->
  writes (writeFieldBegin name type id) (enc_field_begin type id).
Proof.
  intros Ht Hi. unfold writeFieldBegin, enc_field_begin.
  apply writes_bind; by apply writes_writeInt.
Qed.

Lemma reads_readFieldBegin (type id : Z) :
  type <> TType.STOP ->
  in_range 1 type = true -> in_range 2 id = true ->
  reads readFieldBegin (enc_field_begin type id) (type, id).
Proof.
  intros Hne Ht Hi. unfold readFieldBegin, enc_field_begin.
  eapply reads_bind; [by apply (reads_readInt 1); [lia|]|].
  apply Z.eqb_neq in Hne. rewrite Hne.
  rewrite <- (app_nil_r (be_encode 2 id)).
  eapply reads_bind; [by apply (reads_readInt 2); [lia|]|].
  apply reads_ret.
Qed.

Lemma reads_readFieldBegin_stop :
  reads readFieldBegin (be_encode 1 TType.STOP) (TType.STOP, 0).
Proof.
  unfold readFieldBegin.
  rewrite <- (app_nil_r (be_encode 1 TType.STOP)).
  eapply reads_bind; [by apply (reads_readInt 1); [lia|]|].
  apply reads_ret.
Qed.

Lemma writes_writeFieldStop : writes writeFieldStop (be_encode 1 TType.STOP).
Proof. by apply writes_writeInt. Qed.

(** ** LogEntry and Log_args, there and back *)

Lemma writes_as (m : Trans unit) (b b' : bytes) :
  b = b' -> writes m b -> writes m b'.
Proof. by intros ->. Qed.

Lemma reads_as {A} (m : Trans A) (b b' : bytes) (a : A) :
  b = b' -> reads m b a -> reads m b' a.
Proof. by intros ->. Qed.

Lemma writes_string_field (name : string) (id : Z) (o : option string) :
  in_range 2 id = true ->
  string_fits o ->
  writes (match o with
          | Some s => writeFieldBegin name TType.STRING id >>
                      writeString s >> writeFieldEnd
          | None => ret tt
          end) (enc_string_field id o).
Proof.
  intros Hid Ho. destruct o as [s|]; simpl; [|apply writes_ret].
  eapply writes_as; cycle 1.
  - apply writes_bind; [apply writes_bind|apply writes_ret].
    + by apply writes_writeFieldBegin.
    + by apply writes_writeString.
  - by rewrite app_nil_r.
Qed.

Lemma writes_LogEntry (e : LogEntry.t) :
  entry_fits e -> writes (LogEntry.write e) (enc_LogEntry e).
Proof.
  intros [Hc Hm]. unfold LogEntry.write, enc_LogEntry.
  eapply writes_as; cycle 1.
  - apply writes_bind;
      [apply writes_bind;
       [apply writes_bind; [apply writes_bind; [apply writes_ret|]|]|]|].
    + by apply writes_string_field.
    + by apply writes_string_field.
    + apply writes_writeFieldStop.
    + apply writes_ret.
  - simpl. rewrite app_nil_r. by rewrite <- !app_assoc.
Qed.

(** One turn of the field loop of [LogEntry.read]. *)
Lemma LogEntry_read_category (n : nat) (self e : LogEntry.t) (s : string)
    (bs : bytes) :
  fits_i32 (String.length s) ->
  reads (LogEntry.read_fields n (LogEntry.mk (Some s) (LogEntry.message self))) bs e ->
  reads (LogEntry.read_fields (S n) self)
        (enc_string_field 1 (Some s) ++ bs) e.
Proof.
  intros Hs Hrest. cbn [LogEntry.read_fields enc_string_field].
  rewrite <- app_assoc.
  eapply reads_bind; [by apply reads_readFieldBegin|].
  cbn beta iota.
  change (TType.STRING =? TType.STOP) with false.
  change (1 =? 1) with true.
  change (TType.STRING =? TType.STRING) with true. cbn iota.
  eapply reads_bind; [|exact Hrest].
  rewrite <- (app_nil_r (enc_string s)).
  eapply reads_bind; [by apply reads_readString|]. apply reads_ret.
Qed.

Lemma LogEntry_read_message (n : nat) (self e : LogEntry.t) (s : string)
    (bs : bytes) :
  fits_i32 (String.length s) ->
  reads (LogEntry.read_fields n (LogEntry.mk (LogEntry.category self) (Some s))) bs e ->
  reads (LogEntry.read_fields (S n) self)
        (enc_string_field 2 (Some s) ++ bs) e.
Proof.
  intros Hs Hrest. cbn [LogEntry.read_fields enc_string_field].
  rewrite <- app_assoc.
  eapply reads_bind; [by apply reads_readFieldBegin|].
  cbn beta iota.
  change (TType.STRING =? TType.STOP) with false.
  change (2 =? 1) with false. change (2 =? 2) with true.
  change (TType.STRING =? TType.STRING) with true. cbn iota.
  eapply reads_bind; [|exact Hrest].
  rewrite <- (app_nil_r (enc_string s)).
  eapply reads_bind; [by apply reads_readString|]. apply reads_ret.
Qed.

Lemma LogEntry_read_stop (n : nat) (self : LogEntry.t) :
  reads (LogEntry.read_fields (S n) self) (be_encode 1 TType.STOP) self.
Proof.
  cbn [LogEntry.read_fields].
  rewrite <- (app_nil_r (be_encode 1 TType.STOP)).
  eapply reads_bind; [apply reads_readFieldBegin_stop|].
  cbn beta iota. change (TType.STOP =? TType.STOP) with true. cbn iota.
  apply reads_ret.
Qed.

Lemma reads_LogEntry_fields (n : nat) (e : LogEntry.t) :
  entry_fits e ->
  (length (enc_LogEntry e) < n)%nat ->
  reads (LogEntry.read_fields n (LogEntry.mk None None)) (enc_LogEntry e) e.
Proof.
  intros [Hc Hm] Hn.
  destruct e as [[c|] [m|]];
    unfold enc_LogEntry, enc_string_field, enc_field_begin in Hn;
    unfold enc_LogEntry; simpl in Hc, Hm;
    cbn [LogEntry.category LogEntry.message] in *;
    rewrite ?length_app, ?length_be_encode in Hn;
    change (enc_string_field 1 None) with (@nil byte);
    change (enc_string_field 2 None) with (@nil byte);
    cbn [app];
    destruct n as [|[|[|n]]]; try lia;
    first
      [ apply LogEntry_read_category; [done|];
        apply LogEntry_read_message; [done|]; apply LogEntry_read_stop
      | apply LogEntry_read_category; [done|]; apply LogEntry_read_stop
      | apply LogEntry_read_message; [done|]; apply LogEntry_read_stop
      | apply LogEntry_read_stop ].
Qed.

Lemma reads_LogEntry (e : LogEntry.t) :
  entry_fits e ->
  reads (LogEntry.read (LogEntry.mk None None)) (enc_LogEntry e) e.
Proof.
  intros He. unfold LogEntry.read.
  eapply reads_as; cycle 1.
  - eapply reads_bind; [apply reads_ret|].
    eapply reads_bind.
    + apply reads_with_budget. intros n Hn. by apply reads_LogEntry_fields.
    + eapply reads_bind; apply reads_ret.
  - simpl. by rewrite !app_nil_r.
Qed.

Lemma writes_entries (ms : list LogEntry.t) :
  Forall entry_fits ms ->
  writes (Log_args.write_elems ms) (concat (map enc_LogEntry ms)).
Proof.
  induction 1 as [|e ms He _ IH]; simpl; [apply writes_ret|].
  apply writes_bind; [by apply writes_LogEntry|done].
Qed.

Lemma reads_entries (ms acc : list LogEntry.t) :
  Forall entry_fits ms ->
  reads (Log_args.read_elems (length ms) acc)
        (concat (map enc_LogEntry ms)) (acc ++ ms).
Proof.
  intros Hms. revert acc.
  induction Hms as [|e ms He _ IH]; intros acc; simpl.
  - rewrite app_nil_r. apply reads_ret.
  - eapply reads_bind; [by apply reads_LogEntry|].
    eapply reads_as; [reflexivity|].
    specialize (IH (acc ++ [e])). by rewrite <- app_assoc in IH.
Qed.

Lemma in_range_byte (z : Z) : -128 <= z < 128 -> in_range 1 z = true.
Proof.
  intros H. unfold in_range. apply andb_true_iff.
  split; [apply Z.leb_le|apply Z.ltb_lt]; simpl; lia.
Qed.

Lemma writes_messages_field (ms : list LogEntry.t) :
  fits_i32 (length ms) ->
  Forall entry_fits ms ->
  writes (writeFieldBegin "messages" TType.LIST 1 >>
          writeListBegin TType.STRUCT (Z.of_nat (length ms)) >>
          Log_args.write_elems ms >>
          writeListEnd >> writeFieldEnd)
         (enc_messages_field ms).
Proof.
  intros Hn Hms. unfold enc_messages_field, writeListBegin.
  eapply writes_as; cycle 1.
  - apply writes_bind;
      [apply writes_bind;
       [apply writes_bind; [apply writes_bind|]|]|].
    + by apply writes_writeFieldBegin.
    + apply writes_bind; apply writes_writeInt;
        [done|by apply in_range_i32_length].
    + by apply writes_entries.
    + apply writes_ret.
    + apply writes_ret.
  - rewrite !app_nil_r. by rewrite <- !app_assoc.
Qed.

Lemma writes_Log_args (self : Log_args.t) :
  match Log_args.messages self with
  | Some ms => fits_i32 (length ms) /\ Forall entry_fits ms
  | None => True
  end ->
  writes (Log_args.write self) (enc_Log_args self).
Proof.
  intros Hfit. unfold Log_args.write, enc_Log_args.
  destruct self as [[ms|]]; cbn [Log_args.messages] in *.
  - destruct Hfit as [Hn Hms].
    eapply writes_as; cycle 1.
    + apply writes_bind;
        [apply writes_bind; [apply writes_bind; [apply writes_ret|]|]|].
      * by apply writes_messages_field.
      * apply writes_writeFieldStop.
      * apply writes_ret.
    + simpl. by rewrite app_nil_r.
  - eapply writes_as; cycle 1.
    + apply writes_bind;
        [apply writes_bind; [apply writes_bind; apply writes_ret|]|].
      * apply writes_writeFieldStop.
      * apply writes_ret.
    + done.
Qed.

(** One turn of the field loop of [Log_args.read] on the messages. *)
Lemma Log_args_read_messages (n : nat) (self result : Log_args.t)
    (ms : list LogEntry.t) (bs : bytes) :
  fits_i32 (length ms) ->
  Forall entry_fits ms ->
  reads (Log_args.read_fields n (Log_args.mk (Some ms))) bs result ->
  reads (Log_args.read_fields (S n) self) (enc_messages_field ms ++ bs) result.
Proof.
  intros Hn Hms Hrest. cbn [Log_args.read_fields]. unfold enc_messages_field.
  rewrite <- app_assoc.
  eapply reads_bind; [by apply reads_readFieldBegin|].
  cbn beta iota.
  change (TType.LIST =? TType.STOP) with false.
  change (1 =? 1) with true.
  change (TType.LIST =? TType.LIST) with true. cbn iota.
  eapply reads_bind; [|exact Hrest].
  eapply reads_as; cycle 1.
  - eapply reads_bind.
    + unfold readListBegin.
      eapply reads_bind; [by apply (reads_readInt 1 TType.STRUCT); [lia|]|].
      eapply reads_bind;
        [apply (reads_readInt 4 (Z.of_nat (length ms)));
         [lia|by apply in_range_i32_length]|].
      apply reads_ret.
    + cbn beta iota. rewrite Nat2Z.id.
      eapply reads_bind; [by apply (reads_entries ms [])|].
      eapply reads_bind; apply reads_ret.
  - rewrite !app_nil_r. by rewrite <- !app_assoc.
Qed.

Lemma Log_args_read_stop (n : nat) (self : Log_args.t) :
  reads (Log_args.read_fields (S n) self) (be_encode 1 TType.STOP) self.
Proof.
  cbn [Log_args.read_fields].
  rewrite <- (app_nil_r (be_encode 1 TType.STOP)).
  eapply reads_bind; [apply reads_readFieldBegin_stop|].
  cbn beta iota. change (TType.STOP =? TType.STOP) with true. cbn iota.
  apply reads_ret.
Qed.

Lemma reads_Log_args (self : Log_args.t) :
  match Log_args.messages self with
  | Some ms => fits_i32 (length ms) /\ Forall entry_fits ms
  | None => True
  end ->
  reads (Log_args.read Log_args.init) (enc_Log_args self) self.
Proof.
  intros Hfit. unfold Log_args.read.
  apply (reads_as _ ([] ++ enc_Log_args self ++ [] ++ []));
    [simpl; by rewrite !app_nil_r|].
  eapply reads_bind; [apply reads_ret|].
  eapply reads_bind; [|eapply reads_bind; apply reads_ret].
  apply reads_with_budget. intros n Hn.
  destruct self as [[ms|]]; unfold enc_Log_args in *;
    cbn [Log_args.messages] in *.
  - destruct Hfit as [Hl Hms].
    unfold enc_messages_field, enc_field_begin in Hn.
    rewrite ?length_app, ?length_be_encode in Hn.
    destruct n as [|[|n]]; try lia.
    apply Log_args_read_messages; [done|done|]. apply Log_args_read_stop.
  - destruct n as [|n]; [simpl in Hn; lia|]. apply Log_args_read_stop.
Qed.

(** C6: a batch of entries whose count and string lengths fit the [i32]
    that carries them on the wire is written by [Log_args.write] without
    error, and [Log_args.read] on the bytes written gives back the same
    struct, field for field, and consumes exactly those bytes.  This
    holds for the empty batch, which is written as the nine bytes of an
    empty list of structs and the stop byte, and read back as the empty
    list. *)
Theorem Log_args_round_trip (ms : list LogEntry.t) :
  fits_i32 (length ms) ->
  Forall entry_fits ms ->
  exists bs,
    (forall out,
       Log_args.write (Log_args.mk (Some ms)) out = (Ok tt, out ++ bs)) /\
    (forall rest,
       Log_args.read Log_args.init (bs ++ rest) =
         (Ok (Log_args.mk (Some ms)), rest)) /\
    (ms = [] ->
     bs = ["015"; "000"; "001"; "012"; "000"; "000"; "000"; "000"; "000"]%byte).
Proof.
  intros Hn Hms. exists (enc_Log_args (Log_args.mk (Some ms))).
  split; [|split].
  - by apply writes_Log_args.
  - by apply reads_Log_args.
  - by intros ->.
Qed.

(** ** Skipping a value *)

(** Induction on a value, with the property at hand for every value it
    contains. *)
Lemma tvalue_ind (P : tvalue -> Prop) :
  (forall b, P (TBool b)) ->
  (forall z, P (TByte z)) ->
  (forall bits, P (TDouble bits)) ->
  (forall z, P (TI16 z)) ->
  (forall z, P (TI32 z)) ->
  (forall z, P (TI64 z)) ->
  (forall s, P (TString s)) ->
  (forall fields, Forall (fun f => P (snd f)) fields -> P (TStruct fields)) ->
  (forall ktype vtype entries,
     Forall (fun e => P (fst e) /\ P (snd e)) entries ->
     P (TMap ktype vtype entries)) ->
  (forall etype elems, Forall P elems -> P (TSet etype elems)) ->
  (forall etype elems, Forall P elems -> P (TList etype elems)) ->
  forall v, P v.
Proof.
  intros Hbool Hbyte Hdouble Hi16 Hi32 Hi64 Hstring Hstruct Hmap Hset Hlist.
  fix IH 1. intros [b|z|bits|z|z|z|s|fields|ktype vtype entries|etype elems|etype elems].
  - apply Hbool.
  - apply Hbyte.
  - apply Hdouble.
  - apply Hi16.
  - apply Hi32.
  - apply Hi64.
  - apply Hstring.
  - apply Hstruct. induction fields as [|[id x] fields IHf]; constructor.
    + apply IH.
    + exact IHf.
  - apply Hmap. induction entries as [|[k x] entries IHe]; constructor.
    + split; apply IH.
    + exact IHe.
  - apply Hset. induction elems as [|x elems IHe]; constructor.
    + apply IH.
    + exact IHe.
  - apply Hlist. induction elems as [|x elems IHe]; constructor.
    + apply IH.
    + exact IHe.
Qed.

Lemma ttype_of_known (v : tvalue) :
  ttype_of v <> TType.STOP /\ in_range 1 (ttype_of v) = true.
Proof. by destruct v. Qed.

Lemma list_max_elem {A} (f : A -> nat) (l : list A) (x : A) :
  x ∈ l -> (f x <= list_max (map f l))%nat.
Proof.
  induction 1 as [x l|x y l _ IH]; simpl; lia.
Qed.

(** A loop that runs its body once per item skips the items one after
    the other. *)
Lemma reads_for_range (body : Trans unit) (encs : list bytes) :
  Forall (fun b => reads body b tt) encs ->
  reads (for_range (length encs) body) (concat encs) tt.
Proof.
  induction 1 as [|b encs Hb _ IH]; simpl; [apply reads_ret|].
  eapply reads_bind; [exact Hb|exact IH].
Qed.

Lemma reads_skip_fields (skip_value : Z -> Trans unit) (fs : list (Z * tvalue)) :
  Forall (fun f => in_range 2 (fst f) = true /\
                   reads (skip_value (ttype_of (snd f))) (enc_value (snd f)) tt)
         fs ->
  forall n, (length fs < n)%nat ->
            reads (skip_fields n skip_value)
                  (enc_fields fs ++ be_encode 1 TType.STOP) tt.
Proof.
  induction 1 as [|[id v] fs [Hid Hv] _ IH]; intros n Hn;
    (destruct n as [|n]; [simpl in Hn; lia|]); cbn [skip_fields].
  - unfold enc_fields. cbn [map concat app].
    rewrite <- (app_nil_r (be_encode 1 TType.STOP)).
    eapply reads_bind; [apply reads_readFieldBegin_stop|].
    cbn beta iota. change (TType.STOP =? TType.STOP) with true. cbn iota.
    apply reads_ret.
  - unfold enc_fields. cbn [map concat]. unfold enc_field at 1.
    cbn [fst snd] in *. rewrite <- !app_assoc.
    destruct (ttype_of_known v) as [Hne Hr].
    eapply reads_bind; [by apply reads_readFieldBegin|].
    cbn beta iota. apply Z.eqb_neq in Hne. rewrite Hne.
    eapply reads_bind.
    + rewrite <- (app_nil_r (enc_value v)).
      eapply reads_bind; [exact Hv|apply reads_ret].
    + apply IH. simpl in Hn. lia.
Qed.

Lemma length_enc_fields (fs : list (Z * tvalue)) :
  (length fs <= length (enc_fields fs))%nat.
Proof.
  induction fs as [|[id v] fs IH]; [done|].
  unfold enc_fields in *. cbn [map concat]. unfold enc_field at 1,
    enc_field_begin. rewrite !length_app, !length_be_encode. simpl. lia.
Qed.

Lemma reads_readDouble (bits : Z) : reads readDouble (be_encode 8 bits) tt.
Proof.
  intros rest. unfold readDouble.
  pose proof (readAll_app (be_encode 8 bits) rest) as Hra.
  rewrite length_be_encode in Hra.
  by rewrite (bind_Ok _ _ _ _ _ Hra).
Qed.

Lemma reads_then_ret {A} (m : Trans A) (bs : bytes) (a : A) :
  reads m bs a -> reads (m >> ret tt) bs tt.
Proof.
  intros H. rewrite <- (app_nil_r bs).
  eapply reads_bind; [exact H|apply reads_ret].
Qed.

Lemma reads_elements (d : nat) (etype : Z) (elems : list tvalue) :
  Forall (fun x => ttype_of x = etype /\
                   reads (skip_depth d (ttype_of x)) (enc_value x) tt) elems ->
  reads (for_range (length elems) (skip_depth d etype))
        (concat (map enc_value elems)) tt.
Proof.
  intros H. rewrite <- (length_map enc_value elems).
  apply reads_for_range. apply Forall_map.
  eapply Forall_impl; [exact H|]. intros x [<- Hx]. exact Hx.
Qed.

(** [skip], given depth enough, consumes exactly the bytes of a well
    formed value of the type it is told. *)
Lemma reads_skip_depth (v : tvalue) :
  value_ok v ->
  forall d, (height v < d)%nat ->
            reads (skip_depth d (ttype_of v)) (enc_value v) tt.
Proof.
  induction v as [b|z|bits|z|z|z|s|fields IH|ktype vtype entries IH
                  |etype elems IH|etype elems IH] using tvalue_ind.
  - intros Hok d Hd. destruct d as [|d]; [lia|].
    change (skip_depth (S d) (ttype_of (TBool b))) with (readBool >> ret tt).
    eapply reads_then_ret. unfold readBool. cbn [enc_value].
    rewrite <- (app_nil_r (be_encode 1 _)).
    eapply reads_bind; [|apply reads_ret].
    apply (reads_readInt 1); [lia|by destruct b].
  - intros Hok d Hd. destruct d as [|d]; [lia|]. inversion Hok; subst.
    change (skip_depth (S d) (ttype_of (TByte z))) with (readByte >> ret tt).
    eapply reads_then_ret. by apply (reads_readInt 1); [lia|].
  - intros Hok d Hd. destruct d as [|d]; [lia|].
    change (skip_depth (S d) (ttype_of (TDouble bits))) with readDouble.
    apply reads_readDouble.
  - intros Hok d Hd. destruct d as [|d]; [lia|]. inversion Hok; subst.
    change (skip_depth (S d) (ttype_of (TI16 z))) with (readI16 >> ret tt).
    eapply reads_then_ret. by apply (reads_readInt 2); [lia|].
  - intros Hok d Hd. destruct d as [|d]; [lia|]. inversion Hok; subst.
    change (skip_depth (S d) (ttype_of (TI32 z))) with (readI32 >> ret tt).
    eapply reads_then_ret. by apply (reads_readInt 4); [lia|].
  - intros Hok d Hd. destruct d as [|d]; [lia|]. inversion Hok; subst.
    change (skip_depth (S d) (ttype_of (TI64 z))) with (readI64 >> ret tt).
    eapply reads_then_ret. by apply (reads_readInt 8); [lia|].
  - intros Hok d Hd. destruct d as [|d]; [lia|]. inversion Hok; subst.
    change (skip_depth (S d) (ttype_of (TString s)))
      with (readString >> ret tt).
    eapply reads_then_ret. by apply reads_readString.
  - intros Hok d Hd. destruct d as [|d]; [lia|].
    inversion Hok as [| | | | | | |fs Hfs| | |]; subst.
    change (skip_depth (S d) (ttype_of (TStruct fields)))
      with (readStructBegin >>
            with_budget (fun n => skip_fields n (skip_depth d)) >>
            readStructEnd).
    apply (reads_as _ (([] ++ enc_fields fields ++ be_encode 1 TType.STOP)
                       ++ [])); [by rewrite app_nil_r|].
    eapply reads_bind; [eapply reads_bind; [apply reads_ret|]|apply reads_ret].
    apply reads_with_budget. intros n Hn.
    apply reads_skip_fields.
    + apply Forall_forall. intros f Hf.
      rewrite Forall_forall in IH, Hfs.
      destruct (Hfs f Hf) as [Hid Hv]. split; [done|].
      apply IH; [done|done|].
      pose proof (list_max_elem (fun f => height (snd f)) fields f Hf).
      cbn [height] in Hd. lia.
    + pose proof (length_enc_fields fields).
      rewrite length_app in Hn. lia.
  - intros Hok d Hd. destruct d as [|d]; [lia|].
    inversion Hok as [| | | | | | | |k t es Hk Ht Hn Hes| |]; subst.
    change (skip_depth (S d) (ttype_of (TMap ktype vtype entries)))
      with (let* (ktype, vtype, size) := readMapBegin in
            for_range (Z.to_nat size)
              (skip_depth d ktype >> skip_depth d vtype) >> readMapEnd).
    cbn [enc_value].
    apply (reads_as _ ((be_encode 1 ktype ++ be_encode 1 vtype ++
                        be_encode 4 (Z.of_nat (length entries)) ++ []) ++
                       concat (map (fun e => enc_value (fst e) ++
                                             enc_value (snd e)) entries)
                       ++ []));
      [rewrite !app_nil_r; by rewrite <- !app_assoc|].
    eapply reads_bind.
    + unfold readMapBegin.
      eapply reads_bind; [by apply (reads_readInt 1 ktype); [lia|]|].
      eapply reads_bind; [by apply (reads_readInt 1 vtype); [lia|]|].
      eapply reads_bind;
        [apply (reads_readInt 4 (Z.of_nat (length entries)));
         [lia|by apply in_range_i32_length]|].
      apply reads_ret.
    + cbn beta iota. rewrite Nat2Z.id.
      eapply reads_bind; [|apply reads_ret].
      rewrite <- (length_map (fun e => enc_value (fst e) ++ enc_value (snd e))
                    entries).
      apply reads_for_range. apply Forall_map.
      apply Forall_forall. intros e He.
      rewrite Forall_forall in IH, Hes.
      destruct (Hes e He) as [[Hkt Hkv] [Hvt Hvv]].
      destruct (IH e He) as [IHk IHv].
      pose proof (list_max_elem
                    (fun e => Nat.max (height (fst e)) (height (snd e)))
                    entries e He) as Hmax.
      cbn [height] in Hd. cbn beta in Hmax.
      eapply reads_bind.
      * rewrite <- Hkt. apply IHk; [done|lia].
      * rewrite <- Hvt. apply IHv; [done|lia].
  - intros Hok d Hd. destruct d as [|d]; [lia|].
    inversion Hok as [| | | | | | | | |et es Het Hn Hes|]; subst.
    change (skip_depth (S d) (ttype_of (TSet etype elems)))
      with (let* (etype, size) := readSetBegin in
            for_range (Z.to_nat size) (skip_depth d etype) >> readSetEnd).
    cbn [enc_value].
    apply (reads_as _ ((be_encode 1 etype ++
                        be_encode 4 (Z.of_nat (length elems)) ++ []) ++
                       concat (map enc_value elems) ++ []));
      [rewrite !app_nil_r; by rewrite <- !app_assoc|].
    eapply reads_bind.
    + unfold readSetBegin.
      eapply reads_bind; [by apply (reads_readInt 1 etype); [lia|]|].
      eapply reads_bind;
        [apply (reads_readInt 4 (Z.of_nat (length elems)));
         [lia|by apply in_range_i32_length]|].
      apply reads_ret.
    + cbn beta iota. rewrite Nat2Z.id.
      eapply reads_bind; [|apply reads_ret]. apply reads_elements.
      apply Forall_forall. intros x Hx.
      rewrite Forall_forall in IH, Hes.
      destruct (Hes x Hx) as [Hxt Hxv]. split; [done|].
      pose proof (list_max_elem height elems x Hx).
      cbn [height] in Hd. apply IH; [done|done|lia].
  - intros Hok d Hd. destruct d as [|d]; [lia|].
    inversion Hok as [| | | | | | | | | |et es Het Hn Hes]; subst.
    change (skip_depth (S d) (ttype_of (TList etype elems)))
      with (let* (etype, size) := readListBegin in
            for_range (Z.to_nat size) (skip_depth d etype) >> readListEnd).
    cbn [enc_value].
    apply (reads_as _ ((be_encode 1 etype ++
                        be_encode 4 (Z.of_nat (length elems)) ++ []) ++
                       concat (map enc_value elems) ++ []));
      [rewrite !app_nil_r; by rewrite <- !app_assoc|].
    eapply reads_bind.
    + unfold readListBegin.
      eapply reads_bind; [by apply (reads_readInt 1 etype); [lia|]|].
      eapply reads_bind;
        [apply (reads_readInt 4 (Z.of_nat (length elems)));
         [lia|by apply in_range_i32_length]|].
      apply reads_ret.
    + cbn beta iota. rewrite Nat2Z.id.
      eapply reads_bind; [|apply reads_ret]. apply reads_elements.
      apply Forall_forall. intros x Hx.
      rewrite Forall_forall in IH, Hes.
      destruct (Hes x Hx) as [Hxt Hxv]. split; [done|].
      pose proof (list_max_elem height elems x Hx).
      cbn [height] in Hd. apply IH; [done|done|lia].
Qed.

Lemma list_max_le_concat {A} (h : A -> nat) (enc : A -> bytes) (l : list A) :
  Forall (fun x => (h x <= length (enc x))%nat) l ->
  (list_max (map h l) <= length (concat (map enc l)))%nat.
Proof.
  induction 1 as [|x l Hx _ IH]; simpl; [done|].
  rewrite length_app. lia.
Qed.

(** A value nests no deeper than it has bytes. *)
Lemma height_le_length (v : tvalue) : (height v <= length (enc_value v))%nat.
Proof.
  induction v as [b|z|bits|z|z|z|s|fields IH|ktype vtype entries IH
                  |etype elems IH|etype elems IH] using tvalue_ind;
    cbn [height enc_value]; try lia.
  - rewrite length_app, length_be_encode.
    pose proof (list_max_le_concat (fun f => height (snd f))
                  (fun f => enc_field_begin (ttype_of (snd f)) (fst f) ++
                            enc_value (snd f)) fields) as Hmax.
    cbn beta in Hmax. rewrite Nat.add_1_r. apply le_n_S, Hmax.
    eapply Forall_impl; [exact IH|].
    intros f Hf. cbn beta in Hf. rewrite length_app. lia.
  - rewrite !length_app, !length_be_encode.
    pose proof (list_max_le_concat
                  (fun e => Nat.max (height (fst e)) (height (snd e)))
                  (fun e => enc_value (fst e) ++ enc_value (snd e)) entries)
      as Hmax.
    cbn beta in Hmax.
    assert (Hall : Forall (fun e => (Nat.max (height (fst e)) (height (snd e))
                                     <= length (enc_value (fst e) ++
                                                enc_value (snd e)))%nat)
                          entries).
    { eapply Forall_impl; [exact IH|].
      intros e [Hk Hv]. rewrite length_app. lia. }
    specialize (Hmax Hall). unfold bytes in *. lia.
  - rewrite !length_app, !length_be_encode.
    pose proof (list_max_le_concat height enc_value elems IH).
    unfold bytes in *. lia.
  - rewrite !length_app, !length_be_encode.
    pose proof (list_max_le_concat height enc_value elems IH).
    unfold bytes in *. lia.
Qed.

(** [iprot.skip(ftype)] consumes exactly a well formed value of that
    type. *)
Lemma reads_skip (v : tvalue) :
  value_ok v -> reads (skip (ttype_of v)) (enc_value v) tt.
Proof.
  intros Hok. unfold skip. apply reads_with_budget. intros n Hn.
  apply reads_skip_depth; [done|].
  pose proof (height_le_length v). lia.
Qed.

(** ** Fields the reader does not know *)

(** One turn of the field loop of [Log_args.read] on a field it has no
    use for: the field is skipped and the struct is as it was. *)
Lemma Log_args_read_extra (n : nat) (self result : Log_args.t)
    (f : Z * tvalue) (bs : bytes) :
  extra_for_Log_args f ->
  reads (Log_args.read_fields n self) bs result ->
  reads (Log_args.read_fields (S n) self) (enc_field f ++ bs) result.
Proof.
  intros [[Hid Hv] Hextra] Hrest. destruct f as [id v]. cbn [fst snd] in *.
  cbn [Log_args.read_fields]. unfold enc_field. cbn [fst snd].
  rewrite <- app_assoc.
  destruct (ttype_of_known v) as [Hne Hr].
  eapply reads_bind; [by apply reads_readFieldBegin|].
  cbn beta iota. apply Z.eqb_neq in Hne. rewrite Hne.
  eapply reads_bind; [|exact Hrest].
  destruct (Z.eqb_spec id 1) as [->|Hid1].
  - destruct (Z.eqb_spec (ttype_of v) TType.LIST) as [Hl|Hl];
      [by destruct Hextra|].
    rewrite <- (app_nil_r (enc_value v)).
    eapply reads_bind; [by apply reads_skip|apply reads_ret].
  - rewrite <- (app_nil_r (enc_value v)).
    eapply reads_bind; [by apply reads_skip|apply reads_ret].
Qed.

Lemma Log_args_read_extras (xs : list (Z * tvalue)) (n : nat)
    (self result : Log_args.t) (bs : bytes) :
  Forall extra_for_Log_args xs ->
  reads (Log_args.read_fields n self) bs result ->
  reads (Log_args.read_fields (length xs + n) self) (enc_fields xs ++ bs) result.
Proof.
  intros Hxs Hrest. induction Hxs as [|f xs Hf _ IH]; [done|].
  unfold enc_fields. cbn [map concat length Nat.add]. rewrite <- app_assoc.
  by apply Log_args_read_extra.
Qed.

Lemma Log_result_read_extra (n : nat) (self result : Log_result.t)
    (f : Z * tvalue) (bs : bytes) :
  extra_for_Log_result f ->
  reads (Log_result.read_fields n self) bs result ->
  reads (Log_result.read_fields (S n) self) (enc_field f ++ bs) result.
Proof.
  intros [[Hid Hv] Hextra] Hrest. destruct f as [id v]. cbn [fst snd] in *.
  cbn [Log_result.read_fields]. unfold enc_field. cbn [fst snd].
  rewrite <- app_assoc.
  destruct (ttype_of_known v) as [Hne Hr].
  eapply reads_bind; [by apply reads_readFieldBegin|].
  cbn beta iota. apply Z.eqb_neq in Hne. rewrite Hne.
  eapply reads_bind; [|exact Hrest].
  destruct (Z.eqb_spec id 0) as [->|Hid0].
  - destruct (Z.eqb_spec (ttype_of v) TType.I32) as [Hl|Hl];
      [by destruct Hextra|].
    rewrite <- (app_nil_r (enc_value v)).
    eapply reads_bind; [by apply reads_skip|apply reads_ret].
  - rewrite <- (app_nil_r (enc_value v)).
    eapply reads_bind; [by apply reads_skip|apply reads_ret].
Qed.

Lemma Log_result_read_extras (xs : list (Z * tvalue)) (n : nat)
    (self result : Log_result.t) (bs : bytes) :
  Forall extra_for_Log_result xs ->
  reads (Log_result.read_fields n self) bs result ->
  reads (Log_result.read_fields (length xs + n) self) (enc_fields xs ++ bs) result.
Proof.
  intros Hxs Hrest. induction Hxs as [|f xs Hf _ IH]; [done|].
  unfold enc_fields. cbn [map concat length Nat.add]. rewrite <- app_assoc.
  by apply Log_result_read_extra.
Qed.

Lemma Log_result_read_success (n : nat) (self result : Log_result.t)
    (v : Z) (bs : bytes) :
  in_range 4 v = true ->
  reads (Log_result.read_fields n (Log_result.mk (Some v))) bs result ->
  reads (Log_result.read_fields (S n) self) (enc_success_field v ++ bs) result.
Proof.
  intros Hv Hrest. cbn [Log_result.read_fields]. unfold enc_success_field.
  rewrite <- app_assoc.
  eapply reads_bind; [by apply reads_readFieldBegin|].
  cbn beta iota.
  change (TType.I32 =? TType.STOP) with false.
  change (0 =? 0) with true.
  change (TType.I32 =? TType.I32) with true. cbn iota.
  eapply reads_bind; [|exact Hrest].
  rewrite <- (app_nil_r (be_encode 4 v)).
  eapply reads_bind; [by apply (reads_readInt 4); [lia|]|apply reads_ret].
Qed.

Lemma Log_result_read_stop (n : nat) (self : Log_result.t) :
  reads (Log_result.read_fields (S n) self) (be_encode 1 TType.STOP) self.
Proof.
  cbn [Log_result.read_fields].
  rewrite <- (app_nil_r (be_encode 1 TType.STOP)).
  eapply reads_bind; [apply reads_readFieldBegin_stop|].
  cbn beta iota. change (TType.STOP =? TType.STOP) with true. cbn iota.
  apply reads_ret.
Qed.

Lemma reads_Log_args_extras (xs ys : list (Z * tvalue)) (ms : list LogEntry.t) :
  Forall extra_for_Log_args xs ->
  Forall extra_for_Log_args ys ->
  fits_i32 (length ms) ->
  Forall entry_fits ms ->
  reads (Log_args.read Log_args.init)
        (enc_fields xs ++ enc_messages_field ms ++ enc_fields ys ++
         be_encode 1 TType.STOP)
        (Log_args.mk (Some ms)).
Proof.
  intros Hxs Hys Hn Hms. unfold Log_args.read.
  apply (reads_as _ ([] ++ (enc_fields xs ++ enc_messages_field ms ++
                            enc_fields ys ++ be_encode 1 TType.STOP)
                     ++ [] ++ []));
    [simpl; by rewrite !app_nil_r|].
  eapply reads_bind; [apply reads_ret|].
  eapply reads_bind; [|eapply reads_bind; apply reads_ret].
  apply reads_with_budget. intros n Hlen.
  pose proof (length_enc_fields xs). pose proof (length_enc_fields ys).
  rewrite !length_app, length_be_encode in Hlen.
  replace n with (length xs + S (length ys + S (n - length xs - length ys - 2)))%nat
    by lia.
  apply Log_args_read_extras; [done|].
  apply Log_args_read_messages; [done|done|].
  apply Log_args_read_extras; [done|].
  apply Log_args_read_stop.
Qed.

Lemma reads_Log_args_only_extras (xs : list (Z * tvalue)) :
  Forall extra_for_Log_args xs ->
  reads (Log_args.read Log_args.init)
        (enc_fields xs ++ be_encode 1 TType.STOP) Log_args.init.
Proof.
  intros Hxs. unfold Log_args.read.
  apply (reads_as _ ([] ++ (enc_fields xs ++ be_encode 1 TType.STOP)
                     ++ [] ++ []));
    [simpl; by rewrite !app_nil_r|].
  eapply reads_bind; [apply reads_ret|].
  eapply reads_bind; [|eapply reads_bind; apply reads_ret].
  apply reads_with_budget. intros n Hlen.
  pose proof (length_enc_fields xs).
  rewrite !length_app, length_be_encode in Hlen.
  replace n with (length xs + S (n - length xs - 1))%nat by lia.
  apply Log_args_read_extras; [done|].
  apply Log_args_read_stop.
Qed.

Lemma reads_Log_result_extras (xs ys : list (Z * tvalue)) (v : Z) :
  Forall extra_for_Log_result xs ->
  Forall extra_for_Log_result ys ->
  in_range 4 v = true ->
  reads (Log_result.read Log_result.init)
        (enc_fields xs ++ enc_success_field v ++ enc_fields ys ++
         be_encode 1 TType.STOP)
        (Log_result.mk (Some v)).
Proof.
  intros Hxs Hys Hv. unfold Log_result.read.
  apply (reads_as _ ([] ++ (enc_fields xs ++ enc_success_field v ++
                            enc_fields ys ++ be_encode 1 TType.STOP)
                     ++ [] ++ []));
    [simpl; by rewrite !app_nil_r|].
  eapply reads_bind; [apply reads_ret|].
  eapply reads_bind; [|eapply reads_bind; apply reads_ret].
  apply reads_with_budget. intros n Hlen.
  pose proof (length_enc_fields xs). pose proof (length_enc_fields ys).
  rewrite !length_app, length_be_encode in Hlen.
  replace n with (length xs + S (length ys + S (n - length xs - length ys - 2)))%nat
    by lia.
  apply Log_result_read_extras; [done|].
  apply Log_result_read_success; [done|].
  apply Log_result_read_extras; [done|].
  apply Log_result_read_stop.
Qed.

(** C7: fields that a struct on the wire carries beside the one the
    reader knows (an id it does not expect, or the expected id with
    another type), before it and after it, are skipped, and the decode
    goes on to the end of the struct: [Log_args.read] returns the
    messages and [Log_result.read] the success value, as if the extra
    fields were not there; with extra fields only, [Log_args.read]
    returns the struct unset.  The extra fields are any well formed
    values of the types of the protocol. *)
Theorem unknown_fields_skipped
    (xs ys : list (Z * tvalue)) (ms : list LogEntry.t)
    (xr yr : list (Z * tvalue)) (v : Z) (rest : bytes) :
  Forall extra_for_Log_args xs ->
  Forall extra_for_Log_args ys ->
  fits_i32 (length ms) ->
  Forall entry_fits ms ->
  Forall extra_for_Log_result xr ->
  Forall extra_for_Log_result yr ->
  in_range 4 v = true ->
  Log_args.read Log_args.init
    ((enc_fields xs ++ enc_messages_field ms ++ enc_fields ys ++
      be_encode 1 TType.STOP) ++ rest) =
    (Ok (Log_args.mk (Some ms)), rest) /\
  Log_args.read Log_args.init
    ((enc_fields xs ++ be_encode 1 TType.STOP) ++ rest) =
    (Ok (Log_args.mk None), rest) /\
  Log_result.read Log_result.init
    ((enc_fields xr ++ enc_success_field v ++ enc_fields yr ++
      be_encode 1 TType.STOP) ++ rest) =
    (Ok (Log_result.mk (Some v)), rest).
Proof.
  intros Hxs Hys Hn Hms Hxr Hyr Hv. split; [|split].
  - by apply reads_Log_args_extras.
  - by apply reads_Log_args_only_extras.
  - by apply reads_Log_result_extras.
Qed.

(** ** The theorems at concrete inputs *)

Lemma single_connect_attempt_witness :
  _state (scribe World_init) <> CONNECTED /\
  exists w' news,
    do_calls three_calls World_init = (Ok [0; 1; 2]%nat, w') /\
    deferreds w' = news /\
    length news = 3%nat /\
    Forall (fun x => called x = None) news /\
    protocols w' = [] /\
    fired w' = [] /\
    _client (scribe w') = None /\
    _state (scribe w') = CONNECTING /\
    connects w' = [0%nat] /\
    _waiting (scribe w') = [1; 2]%nat.
Proof.
  split; [discriminate|].
  exact (single_connect_attempt World_init three_calls ltac:(discriminate)).
Defined.

Lemma connection_made_resolves_waiters_witness :
  waiters_pending two_waiters /\
  exists w',
    _connection_made (VWrapper {| wrapped := 0%nat |}) two_waiters =
      (Ok (VProtocol 0%nat), w') /\
    _state (scribe w') = CONNECTED /\
    _client (scribe w') = Some 0%nat /\
    _waiting (scribe w') = [] /\
    fired w' = [(1%nat, Success (VProtocol 0%nat));
                (2%nat, Success (VProtocol 0%nat))] /\
    Forall (fun d => exists x, deferreds w' !! d = Some x /\ called x <> None)
           [1; 2]%nat /\
    connects w' = [0%nat] /\
    (forall d', d' ∉ [1; 2]%nat -> (d' < 3)%nat ->
                deferreds w' !! d' = deferreds two_waiters !! d').
Proof.
  assert (Hw : waiters_pending two_waiters).
  { split.
    - vm_compute. by apply (bool_decide_unpack _).
    - vm_compute. repeat constructor; eexists; (split; [reflexivity|]);
        repeat constructor. }
  split; [exact Hw|].
  exact (connection_made_resolves_waiters {| wrapped := 0%nat |} two_waiters Hw).
Defined.

Lemma recv_Log_resolves_pending_call_witness :
  protocols one_pending_call !! 0%nat = Some pending_client /\
  _reqs pending_client !! 1 = Some 1%nat /\
  deferreds one_pending_call !! 1%nat = Some (with_cbs []) /\
  called (with_cbs []) = None /\
  exists w',
    recv_Log 0%nat empty_reply TMessageType.REPLY 1 one_pending_call =
      (Ok tt, w') /\
    resolved_with 0%nat 1 1%nat (Failure missing_result) one_pending_call w'.
Proof.
  assert (Hp : protocols one_pending_call !! 0%nat = Some pending_client)
    by (vm_compute; reflexivity).
  assert (Hk : _reqs pending_client !! 1 = Some 1%nat)
    by (vm_compute; reflexivity).
  assert (Hd : deferreds one_pending_call !! 1%nat = Some (with_cbs []))
    by (vm_compute; reflexivity).
  repeat (split; [done|]).
  exact (proj2 (recv_Log_resolves_pending_call 0%nat empty_reply
                  TMessageType.REPLY 1 one_pending_call pending_client 1%nat
                  (with_cbs []) Hp Hk Hd eq_refl)
           ltac:(discriminate) (Log_result.mk None) eq_refl).
Defined.

Lemma recv_Log_unmatched_witness :
  protocols one_pending_call !! 0%nat = Some pending_client /\
  _reqs pending_client !! 7 = None /\
  recv_Log 0%nat empty_reply TMessageType.REPLY 7 one_pending_call =
    (Raise (KeyError 7), one_pending_call).
Proof.
  assert (Hp : protocols one_pending_call !! 0%nat = Some pending_client)
    by (vm_compute; reflexivity).
  assert (Hk : _reqs pending_client !! 7 = None)
    by (vm_compute; reflexivity).
  repeat (split; [done|]).
  exact (recv_Log_unmatched 0%nat empty_reply TMessageType.REPLY 7
           one_pending_call pending_client Hp Hk).
Defined.

Lemma Log_args_round_trip_witness :
  fits_i32 (length hello_batch) /\
  Forall entry_fits hello_batch /\
  exists bs,
    (forall out,
       Log_args.write (Log_args.mk (Some hello_batch)) out = (Ok tt, out ++ bs)) /\
    (forall rest,
       Log_args.read Log_args.init (bs ++ rest) =
         (Ok (Log_args.mk (Some hello_batch)), rest)) /\
    (hello_batch = [] ->
     bs = ["015"; "000"; "001"; "012"; "000"; "000"; "000"; "000"; "000"]%byte).
Proof.
  assert (Hn : fits_i32 (length hello_batch))
    by (unfold fits_i32; simpl; lia).
  assert (Hms : Forall entry_fits hello_batch)
    by (repeat constructor; unfold fits_i32; simpl; lia).
  repeat (split; [done|]).
  exact (Log_args_round_trip hello_batch Hn Hms).
Defined.

Lemma unknown_fields_skipped_witness :
  let xs := [(5, TString "x")] in
  let ys := [(1, TI32 7); (2, TStruct [(1, TBool true)])] in
  let xr := [(3, TList TType.I32 [TI32 1; TI32 2])] in
  let yr := [(0, TString "s"); (9, TMap TType.BYTE TType.STRING [(TByte 1, TString "v")])] in
  (Forall extra_for_Log_args xs /\ Forall extra_for_Log_args ys /\
   fits_i32 (length hello_batch) /\ Forall entry_fits hello_batch /\
   Forall extra_for_Log_result xr /\ Forall extra_for_Log_result yr /\
   in_range 4 0 = true) /\
  Log_args.read Log_args.init
    ((enc_fields xs ++ enc_messages_field hello_batch ++ enc_fields ys ++
      be_encode 1 TType.STOP) ++ []) =
    (Ok (Log_args.mk (Some hello_batch)), []) /\
  Log_args.read Log_args.init
    ((enc_fields xs ++ be_encode 1 TType.STOP) ++ []) =
    (Ok (Log_args.mk None), []) /\
  Log_result.read Log_result.init
    ((enc_fields xr ++ enc_success_field 0 ++ enc_fields yr ++
      be_encode 1 TType.STOP) ++ []) =
    (Ok (Log_result.mk (Some 0)), []).
Proof.
  intros xs ys xr yr.
  assert (Hn : fits_i32 (length hello_batch))
    by (unfold fits_i32; simpl; lia).
  assert (Hms : Forall entry_fits hello_batch)
    by (repeat constructor; unfold fits_i32; simpl; lia).
  assert (Hxs : Forall extra_for_Log_args xs /\ Forall extra_for_Log_args ys /\
                Forall extra_for_Log_result xr /\ Forall extra_for_Log_result yr).
  { repeat split;
      repeat (apply Forall_cons_2 || apply Forall_nil_2);
      (split;
       [split; [reflexivity|repeat constructor; unfold fits_i32; simpl; lia]
       |first [left; by simpl | right; by simpl]]). }
  destruct Hxs as (Hxs & Hys & Hxr & Hyr).
  split; [by repeat split|].
  exact (unknown_fields_skipped xs ys hello_batch xr yr 0 [] Hxs Hys Hn Hms
           Hxr Hyr eq_refl).
Defined.

Lemma seqid_allocation_witness :
  let calls := [call_Log hello_batch;
                call_recv_Log empty_reply TMessageType.REPLY 1;
                call_Log []] in
  protocols idle_connection !! 0%nat = Some Client_init /\
  reqs_bounded Client_init /\
  reqs_bounded Client_init /\
  (StronglySorted Z.lt (seqids_allocated 0%nat calls idle_connection) /\
   Forall (fun k => 0 < k) (seqids_allocated 0%nat calls idle_connection) /\
   exists c', protocols (do_client_calls 0%nat calls idle_connection) !! 0%nat
                = Some c' /\
              reqs_bounded c' /\ 0 <= _seqid c') /\
  (forall messages,
     exists c', protocols (snd (Log 0%nat messages idle_connection)) !! 0%nat
                  = Some c' /\
                _seqid c' = 1 /\
                _reqs Client_init !! 1 = None /\
                _reqs c' = <[1 := 1%nat]> (_reqs Client_init)) /\
  (forall iprot mtype rseqid,
     exists c', protocols (snd (recv_Log 0%nat iprot mtype rseqid
                                  idle_connection)) !! 0%nat = Some c' /\
                _seqid c' = 0 /\
                _reqs c' = delete rseqid (_reqs Client_init) /\
                _reqs c' !! rseqid = None).
Proof.
  intros calls.
  assert (Hp : protocols idle_connection !! 0%nat = Some Client_init)
    by (vm_compute; reflexivity).
  split; [exact Hp|]. split; [exact reqs_bounded_init|].
  exact (seqid_allocation 0%nat idle_connection Client_init calls Hp
           reqs_bounded_init).
Defined.

Lemma client_iff_connected_kept_witness :
  client_iff_connected (scribe World_init) /\
  client_iff_connected ScribeClient_init /\
  client_iff_connected (scribe (snd (_get_client World_init))) /\
  (forall wr, client_iff_connected
                (scribe (snd (_connection_made (VWrapper wr) World_init)))) /\
  (forall reason, client_iff_connected
                    (scribe (snd (_connection_lost reason World_init)))) /\
  (forall reason, client_iff_connected
                    (scribe (snd (_connection_failed reason World_init)))) /\
  (_state (scribe World_init) <> CONNECTED -> _client (scribe World_init) = None).
Proof.
  assert (H : client_iff_connected (scribe World_init)).
  { unfold client_iff_connected. simpl. split; [intros H; by destruct H|discriminate]. }
  split; [exact H|].
  exact (client_iff_connected_kept World_init H).
Defined.

(** ** Every reachable world is well formed *)

Lemma carried_refl (P : World -> Prop) w : carried P w w.
Proof. by intros H. Qed.

Lemma carried_trans (P : World -> Prop) w1 w2 w3 :
  carried P w1 w2 -> carried P w2 w3 -> carried P w1 w3.
Proof. unfold carried. auto. Qed.

Lemma reqs_value_insert (w : World) (p : pid) (c' : Client) (d : did) :
  reqs_value (set_protocols (fun ps => <[p := c']> ps) w) d ->
  (exists k, _reqs c' !! k = Some d) \/ reqs_value w d.
Proof.
  intros (q & c & k & Hq & Hk). simpl in Hq.
  destruct (decide (p = q)) as [->|Hne].
  - destruct (decide (q < length (protocols w))%nat) as [Hlt|Hge].
    + rewrite list_lookup_insert_eq in Hq by done.
      inversion Hq; subst. left. by exists k.
    + rewrite list_insert_ge in Hq by lia. right. by exists q, c, k.
  - rewrite list_lookup_insert_ne in Hq by done. right. by exists q, c, k.
Qed.

Lemma modify_Client_None (p : pid) (f : Client -> Client) (w : World) :
  protocols w !! p = None -> modify_Client p f w = (Ok tt, w).
Proof.
  intros H. unfold modify_Client, modify, set_protocols. rewrite H.
  by destruct w.
Qed.

(** A change to a client that adds no pending call. *)
Lemma reqs_value_modify_Client (p : pid) (f : Client -> Client) (w : World)
    (d : did) :
  (forall c k, _reqs (f c) !! k = Some d -> exists k', _reqs c !! k' = Some d) ->
  reqs_value (snd (modify_Client p f w)) d -> reqs_value w d.
Proof.
  intros Hf Hd. destruct (protocols w !! p) as [c|] eqn:Hp.
  - rewrite (modify_Client_Some _ _ _ _ Hp) in Hd.
    apply reqs_value_insert in Hd as [[k Hk]|Hd]; [|done].
    destruct (Hf c k Hk) as [k' Hk']. by exists p, c, k'.
  - by rewrite (modify_Client_None _ _ _ Hp) in Hd.
Qed.

Lemma ids_bounded_modify_Client (p : pid) (f : Client -> Client) :
  (forall c k d, _reqs (f c) !! k = Some d -> exists k', _reqs c !! k' = Some d) ->
  preserves (carried ids_bounded) (modify_Client p f).
Proof.
  intros Hf w [Hc Hr]. split.
  - intros d Hd. apply Hc.
    destruct (protocols w !! p) as [c|] eqn:Hp.
    + by rewrite (modify_Client_Some _ _ _ _ Hp) in Hd.
    + by rewrite (modify_Client_None _ _ _ Hp) in Hd.
  - intros d Hd.
    assert (Hlen : length (deferreds (snd (modify_Client p f w)))
                   = length (deferreds w)) by done.
    rewrite Hlen. apply Hr.
    eapply reqs_value_modify_Client; [|exact Hd]. intros c k. apply Hf.
Qed.

Lemma ids_bounded_new_Deferred : preserves (carried ids_bounded) new_Deferred.
Proof.
  intros w [Hc Hr]. rewrite new_Deferred_eq.
  split; intros d Hd; cbn [snd set_deferreds deferreds];
    rewrite length_app; simpl.
  - specialize (Hc d Hd). lia.
  - assert (reqs_value w d) as Hd' by exact Hd. specialize (Hr d Hd'). lia.
Qed.

Lemma ids_bounded_put_Deferred d x : preserves (carried ids_bounded) (put_Deferred d x).
Proof.
  intros w [Hc Hr]. unfold put_Deferred, modify.
  split; intros d' Hd'; cbn [snd set_deferreds deferreds];
    rewrite length_insert.
  - by apply Hc.
  - by apply Hr.
Qed.

Lemma ids_bounded_set_scribe f : preserves (carried ids_bounded) (modify (set_scribe f)).
Proof. intros w H. exact H. Qed.

Lemma ids_bounded_set_fired f : preserves (carried ids_bounded) (modify (set_fired f)).
Proof. intros w H. exact H. Qed.

Create HintDb bounded.

#[local] Hint Resolve ids_bounded_new_Deferred ids_bounded_put_Deferred
  ids_bounded_set_scribe ids_bounded_set_fired : bounded.

Ltac bounded_steps :=
  repeat first
    [ solve [auto 1 with bounded nocore]
    | apply (preserves_ret _ (carried_refl ids_bounded))
    | apply (preserves_raise _ (carried_refl ids_bounded))
    | apply (preserves_gets _ (carried_refl ids_bounded))
    | apply (preserves_bind _ (carried_trans ids_bounded)); [|intros ?] ].

Lemma ids_bounded_get_Deferred d : preserves (carried ids_bounded) (get_Deferred d).
Proof.
  unfold get_Deferred. bounded_steps.
  match goal with o : option Deferred |- _ => destruct o end; bounded_steps.
Qed.

Lemma ids_bounded_get_Client p : preserves (carried ids_bounded) (get_Client p).
Proof.
  unfold get_Client. bounded_steps.
  match goal with o : option Client |- _ => destruct o end; bounded_steps.
Qed.
#[local] Hint Resolve ids_bounded_get_Deferred ids_bounded_get_Client : bounded.

Lemma ids_bounded_on_transport {A} p (m : Trans A) :
  preserves (carried ids_bounded) (on_transport p m).
Proof.
  unfold on_transport. bounded_steps.
  match goal with c : Client |- _ => destruct (m (wbuf c)) as [[x|e] buf] end;
    bounded_steps; apply ids_bounded_modify_Client; simpl; eauto.
Qed.
#[local] Hint Resolve ids_bounded_on_transport : bounded.

Lemma ids_bounded_send_Log p messages :
  preserves (carried ids_bounded) (send_Log p messages).
Proof.
  unfold send_Log, flush. bounded_steps.
  apply ids_bounded_modify_Client; simpl; eauto.
Qed.
#[local] Hint Resolve ids_bounded_send_Log : bounded.

Lemma snd_bind_ret {S A B} (m : St S A) (f : A -> B) (s : S) :
  snd (bind m (fun a => ret (f a)) s) = snd (m s).
Proof. unfold bind, ret. by destruct (m s) as [[a|e] s1]. Qed.

(** The Deferred [Log] enters in [_reqs] is the one it just created. *)
Lemma ids_bounded_Log p messages : preserves (carried ids_bounded) (Log p messages).
Proof.
  intros w [Hc Hr]. unfold Log.
  destruct (protocols w !! p) as [c|] eqn:Hp.
  - assert (Hlt : (p < length (protocols w))%nat) by (by eapply lookup_lt_Some).
    rewrite (bind_Ok _ _ _ _ _ (modify_Client_Some _ _ _ _ Hp)).
    rewrite (bind_Ok _ _ _ _ _ (new_Deferred_eq _)).
    rewrite bind_assoc.
    erewrite bind_Ok
      by (apply modify_Client_Some; simpl; by apply list_lookup_insert_eq).
    rewrite (snd_bind_ret _ (fun _ => length (deferreds _))).
    apply ids_bounded_send_Log. split.
    + intros d Hd. simpl in *. rewrite length_app. simpl.
      specialize (Hc d Hd). lia.
    + intros d Hd. cbn [deferreds set_protocols set_deferreds].
      rewrite length_app. simpl.
      apply reqs_value_insert in Hd as [[k Hk]|Hd].
      * simpl in Hk. apply lookup_insert_Some in Hk as [[_ <-]|[_ Hk]]; [lia|].
        assert (reqs_value w d) as Hd by (by exists p, c, k).
        specialize (Hr d Hd). lia.
      * apply reqs_value_insert in Hd as [[k Hk]|Hd].
        -- simpl in Hk. assert (reqs_value w d) as Hd by (by exists p, c, k).
           specialize (Hr d Hd). lia.
        -- assert (reqs_value w d) as Hd' by exact Hd.
           specialize (Hr d Hd'). lia.
  - rewrite (bind_Ok _ _ _ _ _ (modify_Client_None _ _ _ Hp)).
    rewrite (bind_Ok _ _ _ _ _ (new_Deferred_eq _)).
    rewrite bind_assoc.
    erewrite bind_Ok by (by apply modify_Client_None).
    rewrite (snd_bind_ret _ (fun _ => length (deferreds _))).
    apply ids_bounded_send_Log.
    by apply (ids_bounded_new_Deferred w).
Qed.
#[local] Hint Resolve ids_bounded_Log : bounded.

Lemma ids_bounded__log entries client :
  preserves (carried ids_bounded) (_log entries client).
Proof. unfold _log. destruct client; bounded_steps. Qed.
#[local] Hint Resolve ids_bounded__log : bounded.

Lemma preserves_as_outcome (P : World -> World -> Prop) (m : M value) :
  (forall w, P w w) -> (forall w1 w2 w3, P w1 w2 -> P w2 w3 -> P w1 w3) ->
  preserves P m -> preserves P (as_outcome m).
Proof.
  intros Hrefl Htrans Hm. unfold as_outcome.
  apply (preserves_bind _ Htrans); [by apply preserves_try_except|].
  intros [v|e]; by apply preserves_ret.
Qed.

Lemma preserves_run_callbacks (P : World -> World -> Prop)
    (h : outcome -> M outcome) cbs r :
  (forall w, P w w) -> (forall w1 w2 w3, P w1 w2 -> P w2 w3 -> P w1 w3) ->
  (forall r, preserves P (h r)) ->
  (forall entries client, preserves P (_log entries client)) ->
  preserves P (run_callbacks h cbs r).
Proof.
  intros Hrefl Htrans Hh Hlog. revert r.
  induction cbs as [|cb cbs IH]; intros r; simpl.
  - by apply preserves_ret.
  - apply (preserves_bind _ Htrans).
    + destruct cb as [|entries]; simpl; [apply Hh|].
      destruct r; [by apply preserves_as_outcome|by apply preserves_ret].
    + intros [[| | | |d']|e]; try apply IH. by apply preserves_ret.
Qed.

Lemma preserves_fire (P : World -> World -> Prop)
    (h : outcome -> M outcome) d r :
  (forall w, P w w) -> (forall w1 w2 w3, P w1 w2 -> P w2 w3 -> P w1 w3) ->
  (forall r, preserves P (h r)) ->
  (forall entries client, preserves P (_log entries client)) ->
  preserves P (get_Deferred d) ->
  (forall x, preserves P (put_Deferred d x)) ->
  (forall f, preserves P (modify (set_fired f))) ->
  preserves P (fire h d r).
Proof.
  intros Hrefl Htrans Hh Hlog Hget Hput Hfired. unfold fire.
  apply (preserves_bind _ Htrans); [apply Hget|].
  intros x. destruct (called x); [by apply preserves_raise|].
  apply (preserves_bind _ Htrans).
  { apply (preserves_bind _ Htrans); [apply Hfired|intros _; apply Hput]. }
  intros _. apply (preserves_bind _ Htrans);
    [by apply preserves_run_callbacks|].
  intros [rest r']. apply Hput.
Qed.

Lemma ids_bounded_fire (h : outcome -> M outcome) d r :
  (forall r, preserves (carried ids_bounded) (h r)) ->
  preserves (carried ids_bounded) (fire h d r).
Proof.
  intros Hh.
  apply (preserves_fire _ _ _ _ (carried_refl _) (carried_trans _));
    auto with bounded.
Qed.

Lemma ids_bounded_callback_waiter d v :
  preserves (carried ids_bounded) (callback_waiter d v).
Proof.
  apply ids_bounded_fire. intros r.
  apply (preserves_raise _ (carried_refl ids_bounded)).
Qed.
#[local] Hint Resolve ids_bounded_callback_waiter : bounded.

Lemma ids_bounded_while_waiting n : preserves (carried ids_bounded) (while_waiting n).
Proof.
  induction n as [|n IH]; simpl; bounded_steps;
    match goal with s : ScribeClient |- _ => destruct (_waiting s) end;
    bounded_steps.
Qed.
#[local] Hint Resolve ids_bounded_while_waiting : bounded.

Lemma ids_bounded__connection_made client :
  preserves (carried ids_bounded) (_connection_made client).
Proof. unfold _connection_made. destruct client; bounded_steps. Qed.

Lemma ids_bounded__connection_failed reason :
  preserves (carried ids_bounded) (_connection_failed reason).
Proof. unfold _connection_failed. bounded_steps. Qed.

Lemma ids_bounded_connection_callbacks r :
  preserves (carried ids_bounded) (connection_callbacks r).
Proof.
  destruct r; simpl;
    apply (preserves_as_outcome _ _ (carried_refl _) (carried_trans _)).
  - apply ids_bounded__connection_made.
  - apply ids_bounded__connection_failed.
Qed.

Lemma ids_bounded_fire_connection d r :
  preserves (carried ids_bounded) (fire connection_callbacks d r).
Proof. apply ids_bounded_fire, ids_bounded_connection_callbacks. Qed.

Lemma reqs_kept_refl w : reqs_kept w w.
Proof. by intros d. Qed.

Lemma reqs_kept_trans w1 w2 w3 :
  reqs_kept w1 w2 -> reqs_kept w2 w3 -> reqs_kept w1 w3.
Proof. unfold reqs_kept. auto. Qed.

Lemma reqs_kept_modify_Client (p : pid) (f : Client -> Client) :
  (forall c, _reqs (f c) = _reqs c) ->
  preserves reqs_kept (modify_Client p f).
Proof.
  intros Hf w d. apply reqs_value_modify_Client.
  intros c k. rewrite Hf. eauto.
Qed.

Lemma reqs_kept_get_Client p : preserves reqs_kept (get_Client p).
Proof.
  unfold get_Client.
  apply (preserves_bind _ reqs_kept_trans);
    [apply (preserves_gets _ reqs_kept_refl)|].
  intros [c|]; [apply (preserves_ret _ reqs_kept_refl)
               |apply (preserves_raise _ reqs_kept_refl)].
Qed.

Lemma reqs_kept_on_transport {A} p (m : Trans A) :
  preserves reqs_kept (on_transport p m).
Proof.
  unfold on_transport.
  apply (preserves_bind _ reqs_kept_trans); [apply reqs_kept_get_Client|].
  intros c. destruct (m (wbuf c)) as [[x|e] buf];
    (apply (preserves_bind _ reqs_kept_trans);
     [by apply reqs_kept_modify_Client|intros _]).
  - apply (preserves_ret _ reqs_kept_refl).
  - apply (preserves_raise _ reqs_kept_refl).
Qed.

Lemma reqs_kept_send_Log p messages : preserves reqs_kept (send_Log p messages).
Proof.
  unfold send_Log, flush.
  apply (preserves_bind _ reqs_kept_trans); [apply reqs_kept_get_Client|].
  intros c.
  apply (preserves_bind _ reqs_kept_trans);
    [apply reqs_kept_on_transport|intros _; by apply reqs_kept_modify_Client].
Qed.

Lemma call_made_refl w : call_made w w.
Proof. split; [apply call_issued_refl|]. intros d Hd. by left. Qed.

Lemma call_made_trans w1 w2 w3 :
  call_made w1 w2 -> call_made w2 w3 -> call_made w1 w3.
Proof.
  intros [Hi1 Hr1] [Hi2 Hr2]. split; [by eapply call_issued_trans|].
  intros d Hd. destruct (Hr2 d Hd) as [Hd2|Hge].
  - apply Hr1, Hd2.
  - right. destruct Hi1 as (_ & _ & _ & extra & He).
    rewrite He, length_app in Hge. lia.
Qed.

(** The only pending call [Log] adds has the Deferred it created. *)
Lemma call_made_Log p messages : preserves call_made (Log p messages).
Proof.
  intros w. split; [apply call_issued_Log|]. intros d. unfold Log.
  destruct (protocols w !! p) as [c|] eqn:Hp.
  - assert (Hlt : (p < length (protocols w))%nat) by (by eapply lookup_lt_Some).
    rewrite (bind_Ok _ _ _ _ _ (modify_Client_Some _ _ _ _ Hp)).
    rewrite (bind_Ok _ _ _ _ _ (new_Deferred_eq _)).
    rewrite bind_assoc.
    erewrite bind_Ok
      by (apply modify_Client_Some; simpl; by apply list_lookup_insert_eq).
    rewrite (snd_bind_ret _ (fun _ => length (deferreds _))).
    intros Hd. apply reqs_kept_send_Log in Hd.
    apply reqs_value_insert in Hd as [[k Hk]|Hd].
    + simpl in Hk. apply lookup_insert_Some in Hk as [[_ <-]|[_ Hk]].
      * right. simpl. lia.
      * left. by exists p, c, k.
    + apply reqs_value_insert in Hd as [[k Hk]|Hd].
      * left. by exists p, c, k.
      * by left.
  - rewrite (bind_Ok _ _ _ _ _ (modify_Client_None _ _ _ Hp)).
    rewrite (bind_Ok _ _ _ _ _ (new_Deferred_eq _)).
    rewrite bind_assoc.
    erewrite bind_Ok by (by apply modify_Client_None).
    rewrite (snd_bind_ret _ (fun _ => length (deferreds _))).
    intros Hd. apply reqs_kept_send_Log in Hd. by left.
Qed.

Lemma call_made__log entries client : preserves call_made (_log entries client).
Proof.
  unfold _log.
  destruct client; try apply (preserves_raise _ call_made_refl).
  apply (preserves_bind _ call_made_trans).
  - intros w. unfold get_Client, bind, gets.
    destruct (protocols w !! p); apply call_made_refl.
  - intros _. apply (preserves_bind _ call_made_trans); [apply call_made_Log|].
    intros d. apply (preserves_ret _ call_made_refl).
Qed.

(** A Thrift call leaves a well formed world well formed. *)
Lemma wf_out_call_made (d : did) (w w' : World) :
  call_made w w' -> ids_bounded w' -> wf_out d w -> wf_out d w'.
Proof.
  intros [(Hs & _ & Hc & extra & He) Hr] Hb [([Hnd Hp] & _ & [Hac Har]) Hd].
  assert (Hlt : forall d', d' ∈ _waiting (scribe w) ->
                           (d' < length (deferreds w))%nat).
  { intros d' Hd'. rewrite Forall_forall in Hp.
    destruct (Hp d' Hd') as (cbs & Hl & _). by eapply lookup_lt_Some. }
  split; [|by rewrite Hs]. split; [|split; [done|]].
  - split; rewrite Hs; [done|].
    apply Forall_forall. intros d' Hd'. rewrite Forall_forall in Hp.
    apply (pending_waiter_kept w w'); [|by apply Hp].
    rewrite He. apply lookup_app_l. by apply Hlt.
  - split; rewrite Hs.
    + intros d' Hd'. rewrite Hc in Hd'. by apply Hac.
    + intros d' Hd'. destruct (Hr d' Hd') as [Hold|Hge]; [by apply Har|].
      intros Hin. specialize (Hlt d' Hin). lia.
Qed.

Lemma wf_out__log d entries client :
  preserves (carried (wf_out d)) (_log entries client).
Proof.
  intros w Hwf. eapply wf_out_call_made; [apply call_made__log| |done].
  apply ids_bounded__log. by destruct Hwf as [(_ & Hb & _) _].
Qed.

Lemma wf_out_put_Deferred d x : preserves (carried (wf_out d)) (put_Deferred d x).
Proof.
  intros w [([Hnd Hp] & [Hbc Hbr] & Hap) Hd]. unfold put_Deferred, modify.
  split; [|done]. split; [|split; [|done]].
  - split; [done|]. apply Forall_forall. intros d' Hd'.
    rewrite Forall_forall in Hp.
    apply (pending_waiter_kept w); [|by apply Hp].
    cbn [snd set_deferreds deferreds]. apply list_lookup_insert_ne.
    by intros ->.
  - split; intros d' Hd'; cbn [snd set_deferreds deferreds];
      rewrite length_insert; [by apply Hbc|by apply Hbr].
Qed.

Lemma wf_out_get_Deferred d d' : preserves (carried (wf_out d)) (get_Deferred d').
Proof.
  intros w H. unfold get_Deferred, bind, gets.
  by destruct (deferreds w !! d').
Qed.

Lemma wf_out__connection_failed d reason :
  preserves (carried (wf_out d)) (_connection_failed reason).
Proof. intros w H. exact H. Qed.

(** [_connection_made] on a well formed world empties the queue, so the
    world it leaves is well formed. *)
Lemma wf_out__connection_made d client :
  preserves (carried (wf_out d)) (_connection_made client).
Proof.
  intros w Hwf. destruct client as [|wr| | |]; try exact Hwf.
  destruct Hwf as [([Hnd Hp] & Hb & Hap) Hd].
  unfold _connection_made.
  erewrite bind_Ok by reflexivity.
  erewrite bind_Ok by reflexivity.
  erewrite bind_Ok by reflexivity.
  match goal with |- context [bind (while_waiting ?n) _ ?w0] =>
    pose proof (ids_bounded_while_waiting n w0 Hb) as Hb';
    destruct (while_waiting_pending (_waiting (scribe w)) n w0)
      as (w' & Hrun & _ & _ & Hwt & _);
      [done | simpl; lia | done | done |]
  end.
  rewrite Hrun in Hb'. rewrite (bind_Ok _ _ _ _ _ Hrun).
  cbn [snd bind gets ret] in *. unfold bind, gets, ret. cbn [snd].
  split; [|rewrite Hwt; apply not_elem_of_nil].
  split; [|split; [done|]].
  - split; rewrite Hwt; constructor.
  - split; intros d' _; rewrite Hwt; apply not_elem_of_nil.
Qed.

Lemma wf_out_connection_callbacks d r :
  preserves (carried (wf_out d)) (connection_callbacks r).
Proof.
  destruct r; simpl;
    apply (preserves_as_outcome _ _ (carried_refl _) (carried_trans _)).
  - apply wf_out__connection_made.
  - apply wf_out__connection_failed.
Qed.

(** Firing a Deferred that is not a waiter leaves a well formed world
    well formed. *)
Lemma wf_out_fire d r :
  preserves (carried (wf_out d)) (fire connection_callbacks d r).
Proof.
  apply (preserves_fire _ _ _ _ (carried_refl _) (carried_trans _)).
  - apply wf_out_connection_callbacks.
  - apply wf_out__log.
  - apply wf_out_get_Deferred.
  - apply wf_out_put_Deferred.
  - intros f w H. exact H.
Qed.

Lemma wf_out_addCallbacks d cb :
  preserves (carried (wf_out d)) (addCallbacks connection_callbacks d cb).
Proof.
  unfold addCallbacks.
  apply (preserves_bind _ (carried_trans _)); [apply wf_out_get_Deferred|].
  intros x. destruct (called x) as [[[| | | |d']|e]|];
    try apply wf_out_put_Deferred;
    (apply (preserves_bind _ (carried_trans _));
     [apply (preserves_run_callbacks _ _ _ _ (carried_refl _) (carried_trans _));
      [apply wf_out_connection_callbacks|apply wf_out__log]
     |intros [rest r']; apply wf_out_put_Deferred]).
Qed.

Lemma waiter_lt (w : World) (d : did) :
  waiters_pending w -> d ∈ _waiting (scribe w) ->
  (d < length (deferreds w))%nat.
Proof.
  intros [_ Hp] Hd. rewrite Forall_forall in Hp.
  destruct (Hp d Hd) as (cbs & Hl & _). by eapply lookup_lt_Some.
Qed.

Lemma pending_waiter_app (w w' : World) (d : did) (extra : list Deferred) :
  deferreds w' = deferreds w ++ extra ->
  pending_waiter w d -> pending_waiter w' d.
Proof.
  intros He Hp. apply (pending_waiter_kept w); [|done].
  rewrite He. apply lookup_app_l.
  destruct Hp as (cbs & Hl & _). by eapply lookup_lt_Some.
Qed.

(** The world after [_get_client] or [log] started a connect. *)
Lemma well_formed_connect (w : World) (st : conn_state) (x : Deferred) :
  well_formed w ->
  well_formed
    {| scribe := {| _state := st; _client := _client (scribe w);
                    _waiting := _waiting (scribe w) |};
       deferreds := deferreds w ++ [x];
       protocols := protocols w;
       connects := connects w ++ [length (deferreds w)];
       fired := fired w |}.
Proof.
  intros (Hw & [Hbc Hbr] & [Hac Har]).
  pose proof (waiter_lt w) as Hlt. destruct Hw as [Hnd Hp].
  split; [|split].
  - split; [done|]. simpl. eapply Forall_impl; [exact Hp|].
    intros d Hd. by eapply pending_waiter_app.
  - split; simpl; intros d Hd; rewrite length_app; simpl.
    + apply elem_of_app in Hd as [Hd|Hd].
      * specialize (Hbc d Hd). lia.
      * apply list_elem_of_singleton in Hd. lia.
    + assert (reqs_value w d) as Hd' by exact Hd. specialize (Hbr d Hd'). lia.
  - split; simpl; intros d Hd.
    + apply elem_of_app in Hd as [Hd|Hd]; [by apply Hac|].
      apply list_elem_of_singleton in Hd. subst d. intros Hin.
      specialize (Hlt _ (conj Hnd Hp) Hin). lia.
    + by apply Har.
Qed.

(** The world after [_get_client] or [log] queued a waiter. *)
Lemma well_formed_waiter (w : World) (st : conn_state) (cbs : list handler) :
  well_formed w ->
  Forall is_log cbs ->
  well_formed
    {| scribe := {| _state := st; _client := _client (scribe w);
                    _waiting := _waiting (scribe w) ++ [length (deferreds w)] |};
       deferreds := deferreds w ++ [with_cbs cbs];
       protocols := protocols w;
       connects := connects w;
       fired := fired w |}.
Proof.
  intros (Hw & [Hbc Hbr] & [Hac Har]) Hcbs.
  pose proof (fun d => waiter_lt w d Hw) as Hlt. destruct Hw as [Hnd Hp].
  split; [|split].
  - split; simpl.
    + apply NoDup_app. split; [done|]. split; [|apply NoDup_singleton].
      intros d Hd Hd'. apply list_elem_of_singleton in Hd'.
      specialize (Hlt d Hd). lia.
    + apply Forall_app. split.
      * eapply Forall_impl; [exact Hp|].
        intros d Hd. by eapply pending_waiter_app.
      * apply Forall_singleton. exists cbs. split; [|done].
        apply lookup_fresh.
  - split; simpl; intros d Hd; rewrite length_app; simpl.
    + specialize (Hbc d Hd). lia.
    + assert (reqs_value w d) as Hd' by exact Hd. specialize (Hbr d Hd'). lia.
  - split; simpl; intros d Hd Hin; apply elem_of_app in Hin as [Hin|Hin].
    + by apply (Hac d).
    + apply list_elem_of_singleton in Hin. specialize (Hbc d Hd). lia.
    + by apply (Har d).
    + apply list_elem_of_singleton in Hin.
      assert (reqs_value w d) as Hd' by exact Hd. specialize (Hbr d Hd'). lia.
Qed.

(** The world after [succeed]: one more Deferred, which is no waiter. *)
Lemma wf_out_succeed (w : World) (x : Deferred)
    (l : list (did * outcome)) :
  well_formed w ->
  wf_out (length (deferreds w))
    {| scribe := scribe w;
       deferreds := deferreds w ++ [x];
       protocols := protocols w;
       connects := connects w;
       fired := l |}.
Proof.
  intros (Hw & [Hbc Hbr] & [Hac Har]).
  pose proof (fun d => waiter_lt w d Hw) as Hlt. destruct Hw as [Hnd Hp].
  split; [split; [|split]|].
  - split; [done|]. simpl. eapply Forall_impl; [exact Hp|].
    intros d Hd. by eapply pending_waiter_app.
  - split; simpl; intros d Hd; rewrite length_app; simpl.
    + specialize (Hbc d Hd). lia.
    + assert (reqs_value w d) as Hd' by exact Hd. specialize (Hbr d Hd'). lia.
  - split; simpl; intros d Hd; [by apply Hac|by apply Har].
  - simpl. intros Hin. specialize (Hlt _ Hin). lia.
Qed.

(** A new connection has no pending call. *)
Lemma well_formed_new_protocol (w : World) :
  well_formed w ->
  well_formed (set_protocols (fun ps => ps ++ [Client_init]) w).
Proof.
  intros (Hw & [Hbc Hbr] & [Hac Har]).
  assert (Hold : forall d,
             reqs_value (set_protocols (fun ps => ps ++ [Client_init]) w) d ->
             reqs_value w d).
  { intros d (p & c & k & Hp & Hk). simpl in Hp.
    apply lookup_app_Some in Hp as [Hp|[_ Hp]]; [by exists p, c, k|].
    apply list_lookup_singleton_Some in Hp as [_ <-].
    simpl in Hk. by rewrite lookup_empty in Hk. }
  split; [done|]. split; split; try done.
  - intros d Hd. by apply Hbr, Hold.
  - intros d Hd. by apply Har, Hold.
Qed.

Lemma snd_bind_const {S A B} (m : St S A) (b : B) (s : S) :
  snd (bind m (fun _ => ret b) s) = snd (m s).
Proof. unfold bind, ret. by destruct (m s) as [[a|e] s1]. Qed.

Lemma preserves_on_message {A} (P : World -> World -> Prop)
    (iprot : bytes) (m : Trans A) :
  (forall w, P w w) -> preserves P (on_message iprot m).
Proof.
  intros Hrefl w. unfold on_message.
  destruct (fst (m iprot)); apply Hrefl.
Qed.

Lemma well_formed_recv_Log p iprot mtype rseqid (w : World) :
  well_formed w -> well_formed (snd (recv_Log p iprot mtype rseqid w)).
Proof.
  intros Hwf.
  destruct (protocols w !! p) as [c|] eqn:Hp.
  - destruct (_reqs c !! rseqid) as [d|] eqn:Hk.
    + rewrite (recv_Log_pending _ _ _ _ _ _ _ Hp Hk).
      assert (Hd : reqs_value w d) by (by exists p, c, rseqid).
      match goal with |- context [set_protocols ?f w] =>
        assert (Hwf1 : wf_out d (set_protocols f w))
      end.
      { destruct Hwf as (Hw & [Hbc Hbr] & [Hac Har]).
        assert (Hold : forall d',
                   reqs_value
                     (set_protocols
                        (fun ps => <[p := {| _seqid := _seqid c;
                                             _reqs := delete rseqid (_reqs c);
                                             wbuf := wbuf c; sent := sent c |}]> ps)
                        w) d' ->
                   reqs_value w d').
        { intros d' Hd'. apply reqs_value_insert in Hd' as [[k Hk']|Hd']; [|done].
          simpl in Hk'. apply lookup_delete_Some in Hk' as [_ Hk'].
          by exists p, c, k. }
        split; [|by apply Har].
        split; [done|]. split; split; try done.
        - intros d' Hd'. by apply Hbr, Hold.
        - intros d' Hd'. by apply Har, Hold. }
      assert (Hgoal : forall (m : M unit),
                 preserves (carried (wf_out d)) m ->
                 well_formed (snd (m (set_protocols
                        (fun ps => <[p := {| _seqid := _seqid c;
                                             _reqs := delete rseqid (_reqs c);
                                             wbuf := wbuf c; sent := sent c |}]> ps)
                        w)))).
      { intros m Hm. by destruct (Hm _ Hwf1). }
      apply Hgoal.
      destruct (mtype =? TMessageType.EXCEPTION).
      * apply (preserves_bind _ (carried_trans _));
          [apply preserves_on_message, carried_refl|].
        intros x. apply wf_out_fire.
      * apply (preserves_bind _ (carried_trans _));
          [apply preserves_on_message, carried_refl|].
        intros result. destruct (Log_result.success result); apply wf_out_fire.
    + by rewrite (recv_Log_no_call _ _ _ _ _ _ Hp Hk).
  - unfold recv_Log, get_Client, bind, gets. by rewrite Hp.
Qed.

Lemma well_formed_run_event (e : event) (w : World) :
  well_formed w -> well_formed (run_event e w).
Proof.
  intros Hwf. destruct e as [category messages| |d|d reason|reason
                             |p iprot mtype rseqid]; simpl.
  - destruct (_state (scribe w)) eqn:Hs.
    + rewrite (log_NOT_CONNECTED _ _ w Hs). by apply well_formed_connect.
    + rewrite (log_CONNECTING _ _ w Hs).
      apply well_formed_waiter; [done|]. by repeat constructor.
    + unfold log. rewrite (bind_Ok _ _ _ _ _ (_get_client_CONNECTED w Hs)).
      rewrite snd_bind_const.
      by apply wf_out_addCallbacks, wf_out_succeed.
  - destruct (_state (scribe w)) eqn:Hs.
    + rewrite (_get_client_NOT_CONNECTED w Hs). by apply well_formed_connect.
    + rewrite (_get_client_CONNECTING w Hs).
      apply well_formed_waiter; [done|constructor].
    + rewrite (_get_client_CONNECTED w Hs). by apply wf_out_succeed.
  - destruct (decide (d ∈ connects w)) as [Hd|]; [|done].
    unfold connect_succeeded.
    erewrite bind_Ok by reflexivity.
    erewrite bind_Ok by reflexivity.
    apply wf_out_fire. split; [by apply well_formed_new_protocol|].
    destruct Hwf as (_ & _ & [Hac _]). by apply Hac.
  - destruct (decide (d ∈ connects w)) as [Hd|]; [|done].
    apply wf_out_fire. split; [done|].
    destruct Hwf as (_ & _ & [Hac _]). by apply Hac.
  - exact Hwf.
  - by apply well_formed_recv_Log.
Qed.

Lemma well_formed_init : well_formed World_init.
Proof.
  split; [split; constructor|].
  split; split; simpl; intros d Hd.
  - by apply elem_of_nil in Hd.
  - destruct Hd as (p & c & k & Hp & _). simpl in Hp.
    by rewrite lookup_nil in Hp.
  - apply not_elem_of_nil.
  - apply not_elem_of_nil.
Qed.

(** In every world the client can reach, the queued waiters are
    distinct Deferreds that were not fired and carry [_log] closures. *)
Lemma reachable_well_formed (w : World) : reachable w -> well_formed w.
Proof.
  induction 1 as [|e w _ IH]; [apply well_formed_init|].
  by apply well_formed_run_event.
Qed.

Lemma reachable_waiters_pending (w : World) : reachable w -> waiters_pending w.
Proof. intros H. by destruct (reachable_well_formed w H). Qed.

(** ** The budgets are never what ends a decode

    Every turn of a field loop reads at least the type byte and every
    nested value lies inside its container, so the budgets [with_budget]
    hands out (one more than the bytes at hand) are never used up:
    decoding ends with a value or with [EOFError], as in the source. *)

Lemma shrinks_ret {A} (a : A) : shrinks (ret a).
Proof. by intros bs. Qed.

Lemma shrinks_raise {A} (e : exn) : shrinks (raise (A := A) e).
Proof. by intros bs. Qed.

Lemma shrinks_bind {A B} (m : Trans A) (k : A -> Trans B) :
  shrinks m -> (forall a, shrinks (k a)) -> shrinks (bind m k).
Proof.
  intros Hm Hk bs. unfold bind. specialize (Hm bs).
  destruct (m bs) as [[a|e] bs1]; simpl in *; [|done].
  specialize (Hk a bs1). lia.
Qed.

Lemma shrinks_readAll sz : shrinks (readAll sz).
Proof.
  intros bs. unfold readAll.
  destruct (sz <=? Z.of_nat (length bs)); simpl; [|done].
  rewrite length_drop. lia.
Qed.

Lemma shrinks_readInt n : shrinks (readInt n).
Proof.
  unfold readInt. apply shrinks_bind; [apply shrinks_readAll|].
  intros buff. apply shrinks_ret.
Qed.

(** A read of [n] bytes that succeeds has consumed [n] bytes. *)
Lemma readInt_consumes (n : nat) (bs bs' : bytes) (z : Z) :
  readInt n bs = (Ok z, bs') -> length bs = (n + length bs')%nat.
Proof.
  unfold readInt, bind, readAll, ret.
  destruct (Z.leb_spec (Z.of_nat n) (Z.of_nat (length bs))) as [Hle|];
    [|done].
  intros H. inversion H; subst. rewrite length_drop, Nat2Z.id. lia.
Qed.

Lemma shrinks_readString : shrinks readString.
Proof.
  unfold readString. apply shrinks_bind; [apply shrinks_readInt|].
  intros len. apply shrinks_bind; [apply shrinks_readAll|].
  intros str. apply shrinks_ret.
Qed.

Lemma shrinks_readFieldBegin : shrinks readFieldBegin.
Proof.
  unfold readFieldBegin. apply shrinks_bind; [apply shrinks_readInt|].
  intros type. destruct (type =? TType.STOP); [apply shrinks_ret|].
  apply shrinks_bind; [apply shrinks_readInt|]. intros id. apply shrinks_ret.
Qed.

Lemma readFieldBegin_consumes (bs bs' : bytes) (r : Z * Z) :
  readFieldBegin bs = (Ok r, bs') -> (length bs' < length bs)%nat.
Proof.
  unfold readFieldBegin, bind.
  destruct (readByte bs) as [[type|e] bs1] eqn:Hb; [|done].
  apply readInt_consumes in Hb.
  destruct (type =? TType.STOP).
  - unfold ret. intros H. inversion H; subst. lia.
  - pose proof (shrinks_readInt 2 bs1) as Hs. unfold readI16.
    destruct (readInt 2 bs1) as [[id|e] bs2]; [|done].
    unfold ret. intros H. inversion H; subst. simpl in Hs. lia.
Qed.

Lemma in_budget_ret {A} (a : A) : in_budget (ret a).
Proof. by intros bs. Qed.

Lemma in_budget_bind {A B} (m : Trans A) (k : A -> Trans B) :
  in_budget m -> (forall a, in_budget (k a)) -> in_budget (bind m k).
Proof.
  intros Hm Hk bs. unfold bind. specialize (Hm bs).
  destruct (m bs) as [[a|e] bs1]; simpl in *; [apply Hk|].
  intros Heq. apply Hm. by inversion Heq.
Qed.

Lemma in_budget_readAll sz : in_budget (readAll sz).
Proof.
  intros bs. unfold readAll. by destruct (sz <=? Z.of_nat (length bs)).
Qed.

Lemma in_budget_readInt n : in_budget (readInt n).
Proof.
  unfold readInt. apply in_budget_bind; [apply in_budget_readAll|].
  intros buff. apply in_budget_ret.
Qed.

Lemma in_budget_readString : in_budget readString.
Proof.
  unfold readString. apply in_budget_bind; [apply in_budget_readInt|].
  intros len. apply in_budget_bind; [apply in_budget_readAll|].
  intros str. apply in_budget_ret.
Qed.

Lemma in_budget_readFieldBegin : in_budget readFieldBegin.
Proof.
  unfold readFieldBegin. apply in_budget_bind; [apply in_budget_readInt|].
  intros type. destruct (type =? TType.STOP); [apply in_budget_ret|].
  apply in_budget_bind; [apply in_budget_readInt|].
  intros id. apply in_budget_ret.
Qed.

Lemma shrinks_then_ret {A} (m : Trans A) : shrinks m -> shrinks (m >> ret tt).
Proof. intros H. apply shrinks_bind; [done|]. intros _. apply shrinks_ret. Qed.

Lemma in_budget_then_ret {A} (m : Trans A) : in_budget m -> in_budget (m >> ret tt).
Proof. intros H. apply in_budget_bind; [done|]. intros _. apply in_budget_ret. Qed.

Lemma shrinks_readBool : shrinks readBool.
Proof.
  unfold readBool. apply shrinks_bind; [apply shrinks_readInt|].
  intros b. apply shrinks_ret.
Qed.

Lemma in_budget_readBool : in_budget readBool.
Proof.
  unfold readBool. apply in_budget_bind; [apply in_budget_readInt|].
  intros b. apply in_budget_ret.
Qed.

Lemma shrinks_readDouble : shrinks readDouble.
Proof.
  unfold readDouble. apply shrinks_bind; [apply shrinks_readAll|].
  intros b. apply shrinks_ret.
Qed.

Lemma in_budget_readDouble : in_budget readDouble.
Proof.
  unfold readDouble. apply in_budget_bind; [apply in_budget_readAll|].
  intros b. apply in_budget_ret.
Qed.

Lemma shrinks_readListBegin : shrinks readListBegin.
Proof.
  unfold readListBegin. apply shrinks_bind; [apply shrinks_readInt|].
  intros etype. apply shrinks_bind; [apply shrinks_readInt|].
  intros size. apply shrinks_ret.
Qed.

Lemma in_budget_readListBegin : in_budget readListBegin.
Proof.
  unfold readListBegin. apply in_budget_bind; [apply in_budget_readInt|].
  intros etype. apply in_budget_bind; [apply in_budget_readInt|].
  intros size. apply in_budget_ret.
Qed.

Lemma shrinks_readMapBegin : shrinks readMapBegin.
Proof.
  unfold readMapBegin. apply shrinks_bind; [apply shrinks_readInt|].
  intros ktype. apply shrinks_bind; [apply shrinks_readInt|].
  intros vtype. apply shrinks_bind; [apply shrinks_readInt|].
  intros size. apply shrinks_ret.
Qed.

Lemma in_budget_readMapBegin : in_budget readMapBegin.
Proof.
  unfold readMapBegin. apply in_budget_bind; [apply in_budget_readInt|].
  intros ktype. apply in_budget_bind; [apply in_budget_readInt|].
  intros vtype. apply in_budget_bind; [apply in_budget_readInt|].
  intros size. apply in_budget_ret.
Qed.

(** A container header that is read has taken bytes. *)
Lemma readListBegin_consumes (bs bs' : bytes) (r : Z * Z) :
  readListBegin bs = (Ok r, bs') -> (length bs' < length bs)%nat.
Proof.
  unfold readListBegin, bind.
  destruct (readByte bs) as [[etype|e] bs1] eqn:Hb; [|done].
  apply readInt_consumes in Hb.
  pose proof (shrinks_readInt 4 bs1) as Hs. unfold readI32.
  destruct (readInt 4 bs1) as [[size|e] bs2]; [|done].
  unfold ret. intros H. inversion H; subst. simpl in Hs. lia.
Qed.

Lemma readMapBegin_consumes (bs bs' : bytes) (r : Z * Z * Z) :
  readMapBegin bs = (Ok r, bs') -> (length bs' < length bs)%nat.
Proof.
  intros H.
  assert (Hl : exists r', readByte bs = (Ok r', snd (readByte bs))
                          /\ (length bs' <= length (snd (readByte bs)))%nat).
  { unfold readMapBegin, bind in H.
    destruct (readByte bs) as [[ktype|e] bs1]; [|done].
    exists ktype. split; [done|]. simpl.
    pose proof (shrinks_readInt 1 bs1) as Hs1. unfold readByte in H.
    destruct (readInt 1 bs1) as [[vtype|e] bs2]; [|done].
    pose proof (shrinks_readInt 4 bs2) as Hs2. unfold readI32 in H.
    destruct (readInt 4 bs2) as [[size|e] bs3]; [|done].
    unfold ret in H. inversion H; subst. simpl in *. lia. }
  destruct Hl as (r' & Hb & Hle). apply readInt_consumes in Hb. lia.
Qed.

Lemma shrinks_for_range (n : nat) (body : Trans unit) :
  shrinks body -> shrinks (for_range n body).
Proof.
  intros Hb. induction n as [|n IH]; simpl; [apply shrinks_ret|].
  apply shrinks_bind; [done|]. by intros _.
Qed.

Lemma shrinks_skip_fields (n : nat) (sv : Z -> Trans unit) :
  (forall t, shrinks (sv t)) -> shrinks (skip_fields n sv).
Proof.
  intros Hsv. induction n as [|n IH]; simpl; [apply shrinks_raise|].
  apply shrinks_bind; [apply shrinks_readFieldBegin|].
  intros [type id]. destruct (type =? TType.STOP); [apply shrinks_ret|].
  apply shrinks_bind; [|by intros _].
  apply shrinks_bind; [apply Hsv|]. intros _. apply shrinks_ret.
Qed.

Lemma shrinks_with_budget {A} (loop : nat -> Trans A) :
  (forall n, shrinks (loop n)) -> shrinks (with_budget loop).
Proof. intros H bs. apply H. Qed.

Lemma shrinks_skip_depth (d : nat) : forall t, shrinks (skip_depth d t).
Proof.
  induction d as [|d IH]; intros t; [apply shrinks_raise|].
  cbn [skip_depth].
  repeat match goal with
         | |- shrinks (if ?b then _ else _) => destruct b
         end.
  - apply shrinks_ret.
  - apply shrinks_then_ret, shrinks_readBool.
  - apply shrinks_then_ret, shrinks_readInt.
  - apply shrinks_then_ret, shrinks_readInt.
  - apply shrinks_then_ret, shrinks_readInt.
  - apply shrinks_then_ret, shrinks_readInt.
  - apply shrinks_readDouble.
  - apply shrinks_then_ret, shrinks_readString.
  - apply shrinks_bind; [|intros _; apply shrinks_ret].
    apply shrinks_bind; [apply shrinks_ret|]. intros _.
    apply shrinks_with_budget. intros n. by apply shrinks_skip_fields.
  - apply shrinks_bind; [apply shrinks_readMapBegin|].
    intros [[ktype vtype] size].
    apply shrinks_bind; [|intros _; apply shrinks_ret].
    apply shrinks_for_range. apply shrinks_bind; [apply IH|]. by intros _.
  - apply shrinks_bind; [apply shrinks_readListBegin|].
    intros [etype size].
    apply shrinks_bind; [|intros _; apply shrinks_ret].
    by apply shrinks_for_range.
  - apply shrinks_bind; [apply shrinks_readListBegin|].
    intros [etype size].
    apply shrinks_bind; [|intros _; apply shrinks_ret].
    by apply shrinks_for_range.
  - apply shrinks_ret.
Qed.

Lemma shrinks_skip t : shrinks (skip t).
Proof. apply shrinks_with_budget. intros n. apply shrinks_skip_depth. Qed.

Lemma within_bind {A B} (m : Trans A) (k : A -> Trans B) (bs : bytes) :
  within m bs ->
  (forall a bs', m bs = (Ok a, bs') -> within (k a) bs') ->
  within (bind m k) bs.
Proof.
  unfold within, bind. intros Hm Hk.
  destruct (m bs) as [[a|e] bs1]; simpl in *; [by apply Hk|].
  intros Heq. apply Hm. by inversion Heq.
Qed.

Lemma in_budget_within {A} (m : Trans A) (bs : bytes) :
  in_budget m -> within m bs.
Proof. intros H. apply H. Qed.

Lemma shrinks_Ok {A} (m : Trans A) (bs bs' : bytes) (a : A) :
  shrinks m -> m bs = (Ok a, bs') -> (length bs' <= length bs)%nat.
Proof. intros H Heq. specialize (H bs). by rewrite Heq in H. Qed.

Lemma within_for_range (n : nat) (body : Trans unit) (L : nat) :
  shrinks body ->
  (forall bs, (length bs <= L)%nat -> within body bs) ->
  forall bs, (length bs <= L)%nat -> within (for_range n body) bs.
Proof.
  intros Hs Hb. induction n as [|n IH]; intros bs Hle; simpl; [done|].
  apply within_bind; [by apply Hb|].
  intros [] bs' Heq. apply IH. apply (shrinks_Ok _ _ _ _ Hs) in Heq. lia.
Qed.

Lemma within_skip_fields (sv : Z -> Trans unit) (n : nat) :
  (forall t, shrinks (sv t)) ->
  forall bs, (length bs < n)%nat ->
  (forall t bs', (length bs' < length bs)%nat -> within (sv t) bs') ->
  within (skip_fields n sv) bs.
Proof.
  intros Hs. induction n as [|n IH]; intros bs Hlt Hsv; [lia|].
  cbn [skip_fields].
  apply within_bind; [apply in_budget_within, in_budget_readFieldBegin|].
  intros [type id] bs1 Hf. apply readFieldBegin_consumes in Hf.
  destruct (type =? TType.STOP); [done|].
  apply within_bind.
  - apply within_bind; [by apply Hsv|]. by intros [] bs2 _.
  - intros [] bs2 Heq.
    assert (Hle : (length bs2 <= length bs1)%nat).
    { revert Heq. apply shrinks_Ok. apply shrinks_then_ret, Hs. }
    apply IH; [lia|]. intros t bs' Hlt'. apply Hsv. lia.
Qed.

(** A value nested [d] deep takes at least [d] bytes: [skip] never runs
    out of depth on a buffer shorter than its budget. *)
Lemma within_skip_depth (d : nat) :
  forall t bs, (length bs < d)%nat -> within (skip_depth d t) bs.
Proof.
  induction d as [|d IH]; intros t bs Hlt; [lia|].
  cbn [skip_depth].
  repeat match goal with
         | |- within (if ?b then _ else _) _ => destruct b
         end.
  - done.
  - apply in_budget_within, in_budget_then_ret, in_budget_readBool.
  - apply in_budget_within, in_budget_then_ret, in_budget_readInt.
  - apply in_budget_within, in_budget_then_ret, in_budget_readInt.
  - apply in_budget_within, in_budget_then_ret, in_budget_readInt.
  - apply in_budget_within, in_budget_then_ret, in_budget_readInt.
  - apply in_budget_within, in_budget_readDouble.
  - apply in_budget_within, in_budget_then_ret, in_budget_readString.
  - apply within_bind; [|by intros [] bs' _].
    apply within_bind; [done|]. intros [] bs' Heq.
    inversion Heq; subst bs'. unfold with_budget, within.
    apply within_skip_fields; [apply shrinks_skip_depth|lia|].
    intros t' bs' Hlt'. apply IH. lia.
  - apply within_bind; [apply in_budget_within, in_budget_readMapBegin|].
    intros [[ktype vtype] size] bs1 Heq. apply readMapBegin_consumes in Heq.
    apply within_bind; [|by intros [] bs' _].
    apply (within_for_range _ _ (length bs1)); [| |lia].
    + apply shrinks_bind; [apply shrinks_skip_depth|].
      intros _. apply shrinks_skip_depth.
    + intros bs2 Hle. apply within_bind; [apply IH; lia|].
      intros [] bs3 Heq3. apply IH.
      apply (shrinks_Ok _ _ _ _ (shrinks_skip_depth d ktype)) in Heq3. lia.
  - apply within_bind; [apply in_budget_within, in_budget_readListBegin|].
    intros [etype size] bs1 Heq. apply readListBegin_consumes in Heq.
    apply within_bind; [|by intros [] bs' _].
    apply (within_for_range _ _ (length bs1)); [apply shrinks_skip_depth| |lia].
    intros bs2 Hle. apply IH. lia.
  - apply within_bind; [apply in_budget_within, in_budget_readListBegin|].
    intros [etype size] bs1 Heq. apply readListBegin_consumes in Heq.
    apply within_bind; [|by intros [] bs' _].
    apply (within_for_range _ _ (length bs1)); [apply shrinks_skip_depth| |lia].
    intros bs2 Hle. apply IH. lia.
  - done.
Qed.

Lemma in_budget_skip t : in_budget (skip t).
Proof. intros bs. apply within_skip_depth. lia. Qed.

(** *** The field loops of the generated [read] methods *)

Ltac shrinks_step :=
  first
    [ apply shrinks_ret
    | apply shrinks_readString
    | apply shrinks_readInt
    | apply shrinks_readListBegin
    | apply shrinks_readFieldBegin
    | apply shrinks_skip
    | apply shrinks_with_budget; intros ?
    | apply shrinks_bind; [|intros ?] ].

Ltac in_budget_step :=
  first
    [ apply in_budget_ret
    | apply in_budget_readString
    | apply in_budget_readInt
    | apply in_budget_readListBegin
    | apply in_budget_readFieldBegin
    | apply in_budget_skip
    | apply in_budget_bind; [|intros ?] ].

Ltac split_ifs :=
  repeat match goal with
         | |- context [if ?b then _ else _] => destruct b
         end.

Lemma shrinks_LogEntry_read_fields (n : nat) :
  forall self, shrinks (LogEntry.read_fields n self).
Proof.
  induction n as [|n IH]; intros self; [apply shrinks_raise|].
  cbn [LogEntry.read_fields].
  apply shrinks_bind; [apply shrinks_readFieldBegin|]. intros [ftype fid].
  destruct (ftype =? TType.STOP); [apply shrinks_ret|].
  apply shrinks_bind; [|intros self'; apply shrinks_bind;
                         [apply shrinks_ret|intros _; apply IH]].
  split_ifs; repeat shrinks_step.
Qed.

Lemma shrinks_LogEntry_read self : shrinks (LogEntry.read self).
Proof.
  unfold LogEntry.read.
  apply shrinks_bind; [apply shrinks_ret|]. intros _.
  apply shrinks_bind.
  - apply shrinks_with_budget. intros n. apply shrinks_LogEntry_read_fields.
  - intros self'. apply shrinks_bind; [apply shrinks_ret|].
    intros _. apply shrinks_ret.
Qed.

Lemma within_LogEntry_read_fields (n : nat) :
  forall self bs, (length bs < n)%nat ->
  within (LogEntry.read_fields n self) bs.
Proof.
  induction n as [|n IH]; intros self bs Hlt; [lia|].
  cbn [LogEntry.read_fields].
  apply within_bind; [apply in_budget_within, in_budget_readFieldBegin|].
  intros [ftype fid] bs1 Hf. apply readFieldBegin_consumes in Hf.
  destruct (ftype =? TType.STOP); [done|].
  apply within_bind.
  - apply in_budget_within. split_ifs; repeat in_budget_step.
  - intros self' bs2 Heq. apply within_bind; [done|].
    intros [] bs3 Heq3. inversion Heq3; subst bs3. apply IH.
    assert (Hle : (length bs2 <= length bs1)%nat); [|lia].
    revert Heq. apply shrinks_Ok. split_ifs; repeat shrinks_step.
Qed.

Lemma in_budget_LogEntry_read self : in_budget (LogEntry.read self).
Proof.
  intros bs. unfold LogEntry.read.
  apply within_bind; [done|]. intros [] bs' Heq. inversion Heq; subst bs'.
  apply within_bind.
  - apply within_LogEntry_read_fields. lia.
  - intros self' bs' _. apply in_budget_within.
    apply in_budget_bind; [apply in_budget_ret|]. intros _. apply in_budget_ret.
Qed.

Lemma shrinks_read_elems (n : nat) :
  forall acc, shrinks (Log_args.read_elems n acc).
Proof.
  induction n as [|n IH]; intros acc; simpl; [apply shrinks_ret|].
  apply shrinks_bind; [apply shrinks_LogEntry_read|]. intros e. apply IH.
Qed.

Lemma in_budget_read_elems (n : nat) :
  forall acc, in_budget (Log_args.read_elems n acc).
Proof.
  induction n as [|n IH]; intros acc; simpl; [apply in_budget_ret|].
  apply in_budget_bind; [apply in_budget_LogEntry_read|]. intros e. apply IH.
Qed.

Lemma within_Log_args_read_fields (n : nat) :
  forall self bs, (length bs < n)%nat ->
  within (Log_args.read_fields n self) bs.
Proof.
  induction n as [|n IH]; intros self bs Hlt; [lia|].
  cbn [Log_args.read_fields].
  apply within_bind; [apply in_budget_within, in_budget_readFieldBegin|].
  intros [ftype fid] bs1 Hf. apply readFieldBegin_consumes in Hf.
  destruct (ftype =? TType.STOP); [done|].
  apply within_bind.
  - apply in_budget_within. split_ifs; repeat in_budget_step.
    destruct a as [_etype3 _size0].
    apply in_budget_bind; [apply in_budget_read_elems|]. intros elems.
    repeat in_budget_step.
  - intros self' bs2 Heq. apply within_bind; [done|].
    intros [] bs3 Heq3. inversion Heq3; subst bs3. apply IH.
    assert (Hle : (length bs2 <= length bs1)%nat); [|lia].
    revert Heq. apply shrinks_Ok. split_ifs; repeat shrinks_step.
    destruct a as [_etype3 _size0].
    apply shrinks_bind; [apply shrinks_read_elems|]. intros elems.
    repeat shrinks_step.
Qed.

Lemma within_Log_result_read_fields (n : nat) :
  forall self bs, (length bs < n)%nat ->
  within (Log_result.read_fields n self) bs.
Proof.
  induction n as [|n IH]; intros self bs Hlt; [lia|].
  cbn [Log_result.read_fields].
  apply within_bind; [apply in_budget_within, in_budget_readFieldBegin|].
  intros [ftype fid] bs1 Hf. apply readFieldBegin_consumes in Hf.
  destruct (ftype =? TType.STOP); [done|].
  apply within_bind.
  - apply in_budget_within. split_ifs; repeat in_budget_step.
  - intros self' bs2 Heq. apply within_bind; [done|].
    intros [] bs3 Heq3. inversion Heq3; subst bs3. apply IH.
    assert (Hle : (length bs2 <= length bs1)%nat); [|lia].
    revert Heq. apply shrinks_Ok. split_ifs; repeat shrinks_step.
Qed.

Lemma within_TApplicationException_read_fields (n : nat) :
  forall self bs, (length bs < n)%nat ->
  within (TApplicationException_read_fields n self) bs.
Proof.
  induction n as [|n IH]; intros self bs Hlt; [lia|].
  cbn [TApplicationException_read_fields].
  apply within_bind; [apply in_budget_within, in_budget_readFieldBegin|].
  intros [ftype fid] bs1 Hf. apply readFieldBegin_consumes in Hf.
  destruct (ftype =? TType.STOP); [done|].
  apply within_bind.
  - apply in_budget_within. split_ifs; repeat in_budget_step.
  - intros self' bs2 Heq. apply within_bind; [done|].
    intros [] bs3 Heq3. inversion Heq3; subst bs3. apply IH.
    assert (Hle : (length bs2 <= length bs1)%nat); [|lia].
    revert Heq. apply shrinks_Ok. split_ifs; repeat shrinks_step.
Qed.

(** The budgets given to the [while True] loops and to [skip] are never
    what ends a decode: no [read] of the program ends with the
    exception that stands for an exhausted budget. *)
Lemma reads_in_budget :
  (forall self, in_budget (Log_args.read self))
  /\ (forall self, in_budget (Log_result.read self))
  /\ (forall self, in_budget (LogEntry.read self))
  /\ (forall self, in_budget (TApplicationException_read self)).
Proof.
  repeat split; intros self bs;
    try apply in_budget_LogEntry_read;
    unfold Log_args.read, Log_result.read, TApplicationException_read;
    (apply within_bind; [done|]; intros [] bs' Heq; inversion Heq; subst bs';
     apply within_bind;
     [ first [ apply within_Log_args_read_fields
             | apply within_Log_result_read_fields
             | apply within_TApplicationException_read_fields ];
       lia
     | intros self' bs' _; apply in_budget_within;
       apply in_budget_bind; [apply in_budget_ret|];
       intros _; apply in_budget_ret ]).
Qed.

(** * Further properties of the code *)

(** ** The result struct on the wire *)

Lemma writes_Log_result (self : Log_result.t) :
  match Log_result.success self with
  | Some v => in_range 4 v = true
  | None => True
  end ->
  writes (Log_result.write self) (enc_Log_result self).
Proof.
  intros Hfit. unfold Log_result.write, enc_Log_result, enc_success_field.
  destruct self as [[v|]]; cbn [Log_result.success] in *.
  - eapply writes_as; cycle 1.
    + apply writes_bind;
        [apply writes_bind; [apply writes_bind; [apply writes_ret|]|]|].
      * apply writes_bind; [apply writes_bind|].
        -- by apply writes_writeFieldBegin.
        -- by apply writes_writeInt.
        -- apply writes_ret.
      * apply writes_writeFieldStop.
      * apply writes_ret.
    + by rewrite !app_nil_r.
  - eapply writes_as; cycle 1.
    + apply writes_bind;
        [apply writes_bind; [apply writes_bind; apply writes_ret|]|].
      * apply writes_writeFieldStop.
      * apply writes_ret.
    + done.
Qed.

Lemma reads_Log_result (self : Log_result.t) :
  match Log_result.success self with
  | Some v => in_range 4 v = true
  | None => True
  end ->
  reads (Log_result.read Log_result.init) (enc_Log_result self) self.
Proof.
  intros Hfit. unfold Log_result.read.
  apply (reads_as _ ([] ++ enc_Log_result self ++ [] ++ []));
    [simpl; by rewrite !app_nil_r|].
  eapply reads_bind; [apply reads_ret|].
  eapply reads_bind; [|eapply reads_bind; apply reads_ret].
  apply reads_with_budget. intros n Hn.
  destruct self as [[v|]]; unfold enc_Log_result in *;
    cbn [Log_result.success] in *.
  - unfold enc_success_field, enc_field_begin in Hn.
    rewrite ?length_app, ?length_be_encode in Hn.
    destruct n as [|[|n]]; try lia.
    apply Log_result_read_success; [done|]. apply Log_result_read_stop.
  - destruct n as [|n]; [simpl in Hn; lia|]. apply Log_result_read_stop.
Qed.

(** X1: a result struct, with or without its success field, is written
    by [Log_result.write] without error when the value fits an [i32],
    and [Log_result.read] gives the same struct back from the bytes
    written, taking exactly those bytes.  A struct without the field is
    the stop byte alone. *)
Theorem Log_result_round_trip (self : Log_result.t) :
  match Log_result.success self with
  | Some v => in_range 4 v = true
  | None => True
  end ->
  exists bs,
    (forall out, Log_result.write self out = (Ok tt, out ++ bs)) /\
    (forall rest,
       Log_result.read Log_result.init (bs ++ rest) = (Ok self, rest)) /\
    (Log_result.success self = None -> bs = ["000"%byte]).
Proof.
  intros Hfit. exists (enc_Log_result self). split; [|split].
  - by apply writes_Log_result.
  - by apply reads_Log_result.
  - unfold enc_Log_result. by intros ->.
Qed.

Lemma Log_result_round_trip_witness :
  exists bs,
    (forall out,
       Log_result.write (Log_result.mk (Some 0)) out = (Ok tt, out ++ bs)) /\
    (forall rest,
       Log_result.read Log_result.init (bs ++ rest) =
         (Ok (Log_result.mk (Some 0)), rest)) /\
    (Log_result.success (Log_result.mk (Some 0)) = None -> bs = ["000"%byte]).
Proof. exact (Log_result_round_trip (Log_result.mk (Some 0)) eq_refl). Defined.

(** ** What a decoder can fail with *)

Lemma eof_ret {A} (a : A) : eof_or_budget (ret a : Trans A).
Proof. by intros bs e. Qed.

Lemma eof_raise_budget {A} : eof_or_budget (raise RecursionError : Trans A).
Proof. intros bs e H. right. by inversion H. Qed.

Lemma eof_bind {A B} (m : Trans A) (k : A -> Trans B) :
  eof_or_budget m -> (forall a, eof_or_budget (k a)) -> eof_or_budget (bind m k).
Proof.
  intros Hm Hk bs e. unfold bind. specialize (Hm bs).
  destruct (m bs) as [[a|e'] bs1]; simpl in *; [apply Hk|].
  intros Heq. apply Hm. by inversion Heq.
Qed.

Lemma eof_readAll sz : eof_or_budget (readAll sz).
Proof.
  intros bs e. unfold readAll.
  destruct (sz <=? Z.of_nat (length bs)); simpl; [done|].
  intros H. left. by inversion H.
Qed.

Lemma eof_with_budget {A} (loop : nat -> Trans A) :
  (forall n, eof_or_budget (loop n)) -> eof_or_budget (with_budget loop).
Proof. intros H bs. apply H. Qed.

Lemma eof_for_range (n : nat) (body : Trans unit) :
  eof_or_budget body -> eof_or_budget (for_range n body).
Proof.
  intros Hb. induction n as [|n IH]; simpl; [apply eof_ret|].
  apply eof_bind; [done|]. by intros _.
Qed.

Ltac eof_step :=
  first
    [ apply eof_ret
    | apply eof_raise_budget
    | apply eof_readAll
    | apply eof_with_budget; intros ?
    | apply eof_for_range
    | apply eof_bind; [|intros ?] ].

Lemma eof_readInt n : eof_or_budget (readInt n).
Proof. unfold readInt. repeat eof_step. Qed.

Lemma eof_readString : eof_or_budget readString.
Proof.
  unfold readString, readI32.
  apply eof_bind; [apply eof_readInt|]. intros len. repeat eof_step.
Qed.

Lemma eof_readFieldBegin : eof_or_budget readFieldBegin.
Proof.
  unfold readFieldBegin, readByte, readI16.
  apply eof_bind; [apply eof_readInt|]. intros type.
  destruct (type =? TType.STOP); [apply eof_ret|].
  apply eof_bind; [apply eof_readInt|]. intros id. apply eof_ret.
Qed.

Lemma eof_readListBegin : eof_or_budget readListBegin.
Proof.
  unfold readListBegin, readByte, readI32.
  apply eof_bind; [apply eof_readInt|]. intros etype.
  apply eof_bind; [apply eof_readInt|]. intros size. apply eof_ret.
Qed.

Lemma eof_readMapBegin : eof_or_budget readMapBegin.
Proof.
  unfold readMapBegin, readByte, readI32.
  apply eof_bind; [apply eof_readInt|]. intros ktype.
  apply eof_bind; [apply eof_readInt|]. intros vtype.
  apply eof_bind; [apply eof_readInt|]. intros size. apply eof_ret.
Qed.

Lemma eof_skip_fields (n : nat) (sv : Z -> Trans unit) :
  (forall t, eof_or_budget (sv t)) -> eof_or_budget (skip_fields n sv).
Proof.
  intros Hsv. induction n as [|n IH]; simpl; [apply eof_raise_budget|].
  apply eof_bind; [apply eof_readFieldBegin|].
  intros [type id]. destruct (type =? TType.STOP); [apply eof_ret|].
  apply eof_bind; [|by intros _].
  apply eof_bind; [apply Hsv|]. intros _. apply eof_ret.
Qed.

Lemma eof_skip_depth (d : nat) : forall t, eof_or_budget (skip_depth d t).
Proof.
  induction d as [|d IH]; intros t; [apply eof_raise_budget|].
  cbn [skip_depth].
  repeat match goal with
         | |- eof_or_budget (if ?b then _ else _) => destruct b
         end;
    unfold readBool, readByte, readI16, readI32, readI64, readDouble,
      readStructBegin, readStructEnd, readMapEnd, readSetEnd, readListEnd,
      readSetBegin;
    repeat first
      [ apply eof_readInt
      | apply eof_readString
      | apply eof_readMapBegin
      | apply eof_skip_fields
      | apply IH
      | eof_step
      | match goal with
        | |- eof_or_budget (let (_, _) := ?x in _) => destruct x
        end ].
Qed.

Lemma eof_skip t : eof_or_budget (skip t).
Proof. apply eof_with_budget. intros n. apply eof_skip_depth. Qed.

Ltac eof_steps :=
  repeat first
    [ apply eof_readInt
    | apply eof_readString
    | apply eof_readFieldBegin
    | apply eof_readListBegin
    | apply eof_skip
    | eof_step ].

Lemma eof_LogEntry_read_fields (n : nat) :
  forall self, eof_or_budget (LogEntry.read_fields n self).
Proof.
  induction n as [|n IH]; intros self; [apply eof_raise_budget|].
  cbn [LogEntry.read_fields].
  apply eof_bind; [apply eof_readFieldBegin|]. intros [ftype fid].
  destruct (ftype =? TType.STOP); [apply eof_ret|].
  apply eof_bind; [|intros self'; apply eof_bind;
                      [apply eof_ret|intros _; apply IH]].
  split_ifs; unfold readI32; eof_steps.
Qed.

Lemma eof_LogEntry_read self : eof_or_budget (LogEntry.read self).
Proof.
  unfold LogEntry.read, readStructBegin, readStructEnd.
  apply eof_bind; [apply eof_ret|]. intros _.
  apply eof_bind; [|intros self'; eof_steps].
  apply eof_with_budget. intros n. apply eof_LogEntry_read_fields.
Qed.

Lemma eof_read_elems (n : nat) :
  forall acc, eof_or_budget (Log_args.read_elems n acc).
Proof.
  induction n as [|n IH]; intros acc; simpl; [apply eof_ret|].
  apply eof_bind; [apply eof_LogEntry_read|]. intros e. apply IH.
Qed.

Lemma eof_Log_args_read_fields (n : nat) :
  forall self, eof_or_budget (Log_args.read_fields n self).
Proof.
  induction n as [|n IH]; intros self; [apply eof_raise_budget|].
  cbn [Log_args.read_fields].
  apply eof_bind; [apply eof_readFieldBegin|]. intros [ftype fid].
  destruct (ftype =? TType.STOP); [apply eof_ret|].
  apply eof_bind; [|intros self'; apply eof_bind;
                      [apply eof_ret|intros _; apply IH]].
  split_ifs; eof_steps.
  destruct a as [_etype3 _size0].
  apply eof_bind; [apply eof_read_elems|]. intros elems.
  unfold readListEnd. eof_steps.
Qed.

Lemma eof_Log_result_read_fields (n : nat) :
  forall self, eof_or_budget (Log_result.read_fields n self).
Proof.
  induction n as [|n IH]; intros self; [apply eof_raise_budget|].
  cbn [Log_result.read_fields].
  apply eof_bind; [apply eof_readFieldBegin|]. intros [ftype fid].
  destruct (ftype =? TType.STOP); [apply eof_ret|].
  apply eof_bind; [|intros self'; apply eof_bind;
                      [apply eof_ret|intros _; apply IH]].
  split_ifs; unfold readI32; eof_steps.
Qed.

Lemma fails_only_at_eof_intro {A} (m : Trans A) :
  eof_or_budget m -> in_budget m -> fails_only_at_eof m.
Proof.
  intros He Hb bs. specialize (He bs). specialize (Hb bs).
  destruct (fst (m bs)) as [a|e]; [done|].
  destruct (He e eq_refl) as [->| ->]; [done|]. by destruct Hb.
Qed.

Lemma in_budget_Log_args_read self : in_budget (Log_args.read self).
Proof.
  intros bs. unfold Log_args.read.
  apply within_bind; [done|]. intros [] bs' Heq. inversion Heq; subst bs'.
  apply within_bind.
  - apply within_Log_args_read_fields. lia.
  - intros self' bs' _. apply in_budget_within.
    apply in_budget_bind; [apply in_budget_ret|]. intros _. apply in_budget_ret.
Qed.

Lemma in_budget_Log_result_read self : in_budget (Log_result.read self).
Proof.
  intros bs. unfold Log_result.read.
  apply within_bind; [done|]. intros [] bs' Heq. inversion Heq; subst bs'.
  apply within_bind.
  - apply within_Log_result_read_fields. lia.
  - intros self' bs' _. apply in_budget_within.
    apply in_budget_bind; [apply in_budget_ret|]. intros _. apply in_budget_ret.
Qed.

(** X2: whatever the bytes of a message are, [Log_args.read] and
    [Log_result.read] come to an end: each returns a struct or raises
    EOFError because the bytes ran out.  No field type, field id, list
    count or nesting makes the [while True] loop or [skip] go on
    without end, and no malformed input raises anything else. *)
Theorem decoders_fail_only_at_eof :
  (forall self, fails_only_at_eof (Log_args.read self)) /\
  (forall self, fails_only_at_eof (Log_result.read self)).
Proof.
  split; intros self; apply fails_only_at_eof_intro.
  - unfold Log_args.read, readStructBegin, readStructEnd.
    apply eof_bind; [apply eof_ret|]. intros _.
    apply eof_bind; [|intros self'; eof_steps].
    apply eof_with_budget. intros n. apply eof_Log_args_read_fields.
  - apply in_budget_Log_args_read.
  - unfold Log_result.read, readStructBegin, readStructEnd.
    apply eof_bind; [apply eof_ret|]. intros _.
    apply eof_bind; [|intros self'; eof_steps].
    apply eof_with_budget. intros n. apply eof_Log_result_read_fields.
  - apply in_budget_Log_result_read.
Qed.

(** ** A reply that cannot be decoded *)

Lemma on_message_Raise {A} (iprot : bytes) (m : Trans A) (e : exn) (w : World) :
  fst (m iprot) = Raise e -> on_message iprot m w = (Raise e, w).
Proof. intros H. unfold on_message. by rewrite H. Qed.

Lemma read_then_end_Raise {A} (m : Trans A) (iprot : bytes) (e : exn) :
  fst (m iprot) = Raise e ->
  fst ((let* x := m in readMessageEnd >> ret x) iprot) = Raise e.
Proof.
  intros H. unfold bind, readMessageEnd, ret.
  destruct (m iprot) as [[a'|e'] bs]; simpl in *; congruence.
Qed.

(** X3: [recv_Log] takes the pending call out of [_reqs] before it
    decodes the reply.  When the decoder raises (the bytes end too
    early), [recv_Log] raises the same exception, the call is gone from
    [_reqs], and its Deferred was neither fired nor changed: the caller
    is never told. *)
Theorem recv_Log_undecodable_reply (p : pid) (iprot : bytes)
    (mtype rseqid : Z) (w : World) (c : Client) (d : did) :
  protocols w !! p = Some c ->
  _reqs c !! rseqid = Some d ->
  let lost (e : exn) :=
    exists w',
      recv_Log p iprot mtype rseqid w = (Raise e, w') /\
      deferreds w' = deferreds w /\
      fired w' = fired w /\
      scribe w' = scribe w /\
      protocols w' =
        <[p := {| _seqid := _seqid c; _reqs := delete rseqid (_reqs c);
                  wbuf := wbuf c; sent := sent c |}]> (protocols w) in
  (mtype = TMessageType.EXCEPTION ->
   forall e,
     fst (TApplicationException_read
            (TApplicationException.mk TApplicationException.UNKNOWN None)
            iprot) = Raise e ->
     lost e) /\
  (mtype <> TMessageType.EXCEPTION ->
   forall e,
     fst (Log_result.read Log_result.init iprot) = Raise e ->
     lost e).
Proof.
  intros Hp Hk lost. subst lost. split.
  - intros -> e He. rewrite (recv_Log_pending _ _ _ _ _ _ _ Hp Hk).
    change (TMessageType.EXCEPTION =? TMessageType.EXCEPTION) with true.
    cbn iota. apply read_then_end_Raise in He.
    eexists. split;
      [by rewrite (bind_Raise _ _ _ _ _ (on_message_Raise _ _ _ _ He))
      |by repeat split].
  - intros Hne e He. rewrite (recv_Log_pending _ _ _ _ _ _ _ Hp Hk).
    apply Z.eqb_neq in Hne. rewrite Hne.
    apply read_then_end_Raise in He.
    eexists. split;
      [by rewrite (bind_Raise _ _ _ _ _ (on_message_Raise _ _ _ _ He))
      |by repeat split].
Qed.

Lemma recv_Log_undecodable_reply_witness :
  protocols one_pending_call !! 0%nat = Some pending_client /\
  _reqs pending_client !! 1 = Some 1%nat /\
  TMessageType.REPLY <> TMessageType.EXCEPTION /\
  fst (Log_result.read Log_result.init []) = Raise EOFError /\
  exists w',
    recv_Log 0%nat [] TMessageType.REPLY 1 one_pending_call =
      (Raise EOFError, w') /\
    deferreds w' = deferreds one_pending_call /\
    fired w' = fired one_pending_call /\
    scribe w' = scribe one_pending_call /\
    protocols w' =
      <[0%nat := {| _seqid := _seqid pending_client;
                    _reqs := delete 1 (_reqs pending_client);
                    wbuf := wbuf pending_client;
                    sent := sent pending_client |}]>
        (protocols one_pending_call).
Proof.
  assert (Hp : protocols one_pending_call !! 0%nat = Some pending_client)
    by (vm_compute; reflexivity).
  assert (Hk : _reqs pending_client !! 1 = Some 1%nat)
    by (vm_compute; reflexivity).
  repeat (split; [done|]).
  exact (proj2 (recv_Log_undecodable_reply 0%nat [] TMessageType.REPLY 1
                  one_pending_call pending_client 1%nat Hp Hk)
           ltac:(discriminate) EOFError eq_refl).
Defined.

(** ** The sequence id on the wire *)

Lemma in_range_version (type : Z) :
  0 <= type < 256 -> in_range 4 (Z.lor VERSION_1 type) = true.
Proof.
  intros Ht. unfold in_range.
  assert (Hl : Z.lor VERSION_1 type = VERSION_1 + type).
  { rewrite <- Z.add_nocarry_lor; [lia|].
    apply Z.bits_inj'. intros n Hn. rewrite Z.land_spec, Z.bits_0.
    destruct (Z.lt_ge_cases n 8) as [Hlt|Hge].
    - replace (Z.testbit VERSION_1 n) with false; [done|].
      unfold VERSION_1.
      assert (Hn' : n = 0 \/ n = 1 \/ n = 2 \/ n = 3 \/ n = 4 \/ n = 5 \/
                    n = 6 \/ n = 7) by lia.
      by destruct Hn' as [->|[->|[->|[->|[->|[->|[->| ->]]]]]]].
    - rewrite (Z.bits_above_log2 type n); [by rewrite andb_false_r|lia|].
      destruct (Z.eq_dec type 0) as [->|Hne]; [simpl; lia|].
      apply Z.log2_lt_pow2; [lia|].
      apply Z.lt_le_trans with (2 ^ 8); [simpl; lia|].
      apply Z.pow_le_mono_r; lia. }
  rewrite Hl. unfold VERSION_1. apply andb_true_iff.
  split; [apply Z.leb_le|apply Z.ltb_lt]; simpl; lia.
Qed.

Lemma writes_writeMessageBegin (name : string) (type seqid : Z) :
  0 <= type < 256 ->
  fits_i32 (String.length name) ->
  in_range 4 seqid = true ->
  writes (writeMessageBegin name type seqid) (enc_message_begin name type seqid).
Proof.
  intros Ht Hn Hs. unfold writeMessageBegin, enc_message_begin.
  eapply writes_as; cycle 1.
  - apply writes_bind; [apply writes_bind|].
    + by apply writes_writeInt, in_range_version.
    + by apply writes_writeString.
    + by apply writes_writeInt.
  - by rewrite <- app_assoc.
Qed.

Lemma writeMessageBegin_seqid (name : string) (type seqid : Z) (out : bytes) :
  0 <= type < 256 ->
  fits_i32 (String.length name) ->
  in_range 4 seqid = false ->
  writeMessageBegin name type seqid out =
    (Raise StructError,
     out ++ be_encode 4 (Z.lor VERSION_1 type) ++ enc_string name).
Proof.
  intros Ht Hn Hs. unfold writeMessageBegin.
  assert (Hw : writes (writeI32 (Z.lor VERSION_1 type) >> writeString name)
                 (be_encode 4 (Z.lor VERSION_1 type) ++ enc_string name)).
  { apply writes_bind; [by apply writes_writeInt, in_range_version|].
    by apply writes_writeString. }
  rewrite (bind_Ok _ _ _ _ _ (Hw out)).
  unfold writeI32, writeInt. by rewrite Hs.
Qed.

Lemma fits_Log : fits_i32 (String.length "Log").
Proof. unfold fits_i32. simpl. lia. Qed.

(** X4: the sequence id of a connection is a Python integer without
    bound, the one on the wire an [i32].  Once [_seqid] has reached
    2^31 - 1, [Log] still counts it up and enters the new Deferred in
    [_reqs], and then fails in [send_Log] with the error of
    [struct.pack]: nothing is sent, the Deferred stays pending, and the
    part of the header written so far stays in the write buffer. *)
Theorem Log_seqid_out_of_range (p : pid) (messages : list LogEntry.t)
    (w : World) (c : Client) :
  protocols w !! p = Some c ->
  2 ^ 31 - 1 <= _seqid c ->
  exists w',
    Log p messages w = (Raise StructError, w') /\
    deferreds w' = deferreds w ++ [with_cbs []] /\
    fired w' = fired w /\
    protocols w' =
      <[p := {| _seqid := _seqid c + 1;
                _reqs := <[_seqid c + 1 := length (deferreds w)]> (_reqs c);
                wbuf := wbuf c ++
                        be_encode 4 (Z.lor VERSION_1 TMessageType.CALL) ++
                        enc_string "Log";
                sent := sent c |}]> (protocols w).
Proof.
  intros Hp Hmax. unfold Log.
  assert (Hlt : (p < length (protocols w))%nat) by (by eapply lookup_lt_Some).
  assert (Hr : in_range 4 (_seqid c + 1) = false).
  { unfold in_range. apply andb_false_iff. right. apply Z.ltb_ge.
    change (8 * Z.of_nat 4 - 1) with 31. lia. }
  rewrite (bind_Ok _ _ _ _ _ (modify_Client_Some _ _ _ _ Hp)).
  rewrite (bind_Ok _ _ _ _ _ (new_Deferred_eq _)).
  rewrite bind_assoc.
  erewrite bind_Ok
    by (apply modify_Client_Some; simpl; by apply list_lookup_insert_eq).
  unfold send_Log.
  erewrite (bind_Raise (bind (get_Client p) _)).
  2:{ erewrite bind_Ok
        by (apply get_Client_Some; simpl; apply list_lookup_insert_eq;
            by rewrite length_insert).
      unfold on_transport.
      erewrite (bind_Raise (bind (get_Client p) _)); [reflexivity|].
      erewrite bind_Ok
        by (apply get_Client_Some; simpl; apply list_lookup_insert_eq;
            by rewrite length_insert).
      cbn [wbuf _seqid].
      rewrite bind_assoc.
      rewrite (bind_Raise _ _ _ _ _
                 (writeMessageBegin_seqid "Log" TMessageType.CALL _ _
                    ltac:(done) fits_Log Hr)).
      erewrite bind_Ok
        by (apply modify_Client_Some; simpl; apply list_lookup_insert_eq;
            by rewrite length_insert).
      reflexivity. }
  eexists. split; [reflexivity|]. simpl.
  repeat split. by rewrite !list_insert_insert_eq.
Qed.

Lemma Log_seqid_out_of_range_witness :
  protocols last_seqid_connection !! 0%nat =
    Some {| _seqid := 2 ^ 31 - 1; _reqs := ∅; wbuf := []; sent := [] |} /\
  exists w',
    Log 0%nat hello_batch last_seqid_connection = (Raise StructError, w') /\
    deferreds w' = deferreds last_seqid_connection ++ [with_cbs []] /\
    fired w' = fired last_seqid_connection /\
    protocols w' =
      <[0%nat := {| _seqid := 2 ^ 31 - 1 + 1;
                    _reqs := <[2 ^ 31 - 1 + 1 :=
                                 length (deferreds last_seqid_connection)]> ∅;
                    wbuf := [] ++
                            be_encode 4 (Z.lor VERSION_1 TMessageType.CALL) ++
                            enc_string "Log";
                    sent := [] |}]> (protocols last_seqid_connection).
Proof.
  split; [reflexivity|].
  exact (Log_seqid_out_of_range 0%nat hello_batch last_seqid_connection
           {| _seqid := 2 ^ 31 - 1; _reqs := ∅; wbuf := []; sent := [] |}
           eq_refl (Z.le_refl _)).
Defined.

(** ** The caller that started a connect that fails *)

(** X5: the Deferred [log] returned to the caller that started a
    connect carries [_connection_made] / [_connection_failed] and then
    [_log].  When the connect fails, [_connection_failed] returns None,
    so the failure is taken as handled and [_log] is called with None:
    the caller's Deferred ends with AttributeError, not with the reason
    of the failed connect, and nothing is sent. *)
Theorem failed_connect_first_caller (d : did) (reason : string)
    (entries : list LogEntry.t) (w : World) :
  deferreds w !! d = Some (with_cbs [cb_connection; cb_log entries]) ->
  exists w',
    connect_failed d reason w = (Ok tt, w') /\
    _state (scribe w') = NOT_CONNECTED /\
    _client (scribe w') = None /\
    _waiting (scribe w') = _waiting (scribe w) /\
    deferreds w' =
      <[d := {| callbacks := []; called := Some (Failure AttributeError) |}]>
        (deferreds w) /\
    fired w' = fired w ++ [(d, Failure (ConnectError reason))] /\
    protocols w' = protocols w /\
    connects w' = connects w.
Proof.
  intros Hd. unfold connect_failed, errback, fire.
  rewrite (bind_Ok _ _ _ _ _ (get_Deferred_Some _ _ _ Hd)).
  eexists. split; [reflexivity|]. simpl.
  repeat split. by rewrite !list_insert_insert_eq.
Qed.

Lemma failed_connect_first_caller_witness :
  deferreds one_caller !! 0%nat =
    Some (with_cbs [cb_connection;
                    cb_log (log_entries "app" (one_message "a"))]) /\
  exists w',
    connect_failed 0%nat "refused" one_caller = (Ok tt, w') /\
    _state (scribe w') = NOT_CONNECTED /\
    _client (scribe w') = None /\
    _waiting (scribe w') = _waiting (scribe one_caller) /\
    deferreds w' =
      <[0%nat := {| callbacks := []; called := Some (Failure AttributeError) |}]>
        (deferreds one_caller) /\
    fired w' = fired one_caller ++ [(0%nat, Failure (ConnectError "refused"))] /\
    protocols w' = protocols one_caller /\
    connects w' = connects one_caller.
Proof.
  split; [reflexivity|].
  exact (failed_connect_first_caller 0%nat "refused"
           (log_entries "app" (one_message "a")) one_caller eq_refl).
Defined.

(** ** [log] returns *)

Lemma run_callback_log_Ok (entries : list LogEntry.t) (r : outcome) (w : World) :
  exists r' w', run_callback connection_callbacks (cb_log entries) r w = (Ok r', w').
Proof.
  destruct r as [client|e]; simpl.
  - destruct (as_outcome_ok (_log entries client) w) as [o Ho]. eauto.
  - eauto.
Qed.

Lemma log_returns (category : string) (messages : messages_arg) (w : World) :
  exists w', log category messages w = (Ok (length (deferreds w)), w').
Proof.
  destruct (_state (scribe w)) eqn:Hs.
  - rewrite (log_NOT_CONNECTED _ _ w Hs). eauto.
  - rewrite (log_CONNECTING _ _ w Hs). eauto.
  - unfold log. rewrite (bind_Ok _ _ _ _ _ (_get_client_CONNECTED w Hs)).
    match goal with |- context [bind (addCallbacks ?h ?d ?cb) _ ?w0] =>
      assert (Ha : exists w', addCallbacks h d cb w0 = (Ok tt, w')) end.
    { unfold addCallbacks.
      erewrite bind_Ok by (apply get_Deferred_Some; simpl; apply lookup_fresh).
      cbn [called callbacks app].
      destruct (_client (scribe w)) as [p|]; cbn [client_value];
        cbn [run_callbacks]; rewrite bind_assoc;
        match goal with |- exists _, bind (run_callback _ _ ?r) _ ?w0 = _ =>
          destruct (run_callback_log_Ok (log_entries category messages)
                      r w0) as (r' & w1 & Hr)
        end;
        rewrite (bind_Ok _ _ _ _ _ Hr);
        destruct r' as [[| | | |d']|e]; eexists; reflexivity. }
    destruct Ha as [w' Ha]. rewrite (bind_Ok _ _ _ _ _ Ha). eauto.
Qed.

(** ** The logging handler *)

(** X6: [emit] never reaches [handleError], and it raises only when
    formatting the record raises.  [log] returns a Deferred in every
    state of the client: a connect that fails, a batch that cannot be
    written or a connection that is gone show only in that Deferred,
    which [emit] drops. *)
Theorem emit_never_handles_error (LogRecord : Type)
    (format : LogRecord -> result string)
    (self : ScribeLogHandler.t) (record : LogRecord)
    (s : ScribeLogHandler.Logging) :
  ScribeLogHandler.handled
    (snd (ScribeLogHandler.emit LogRecord format self record s)) =
    ScribeLogHandler.handled s /\
  match format record with
  | Ok _ => fst (ScribeLogHandler.emit LogRecord format self record s) = Ok tt
  | Raise e =>
      ScribeLogHandler.emit LogRecord format self record s = (Raise e, s)
  end.
Proof.
  unfold ScribeLogHandler.emit.
  destruct (format record) as [formatted|e]; [|done].
  match goal with |- context [log ?c ?m ?w] =>
    destruct (log_returns c m w) as [w' Hw'] end.
  by rewrite Hw'.
Qed.

(** X7: a handler made without a category, or with the empty string for
    one, logs under the category "default"; its messages are the extra
    words joined by blanks, one blank, and the formatted record, so a
    handler made without extra words puts a blank in front of every
    message.  Each record is one call of [log] with that one string,
    hence a batch of one entry. *)
Theorem emit_logs_one_entry (LogRecord : Type)
    (format : LogRecord -> result string)
    (category : option string) (extra : option (list string))
    (record : LogRecord) (formatted : string)
    (s : ScribeLogHandler.Logging) :
  format record = Ok formatted ->
  let self := ScribeLogHandler.init category extra in
  let c := match category with
           | Some c => if (c =? "")%string then "default"%string else c
           | None => "default"%string
           end in
  let words := match extra with
               | Some l => String.concat " " l
               | None => ""%string
               end in
  ScribeLogHandler.get_category self = c /\
  ScribeLogHandler.extra self = words /\
  log_entries c (one_message (words ++ " " ++ formatted)) =
    [LogEntry_new c (words ++ " " ++ formatted)] /\
  ScribeLogHandler.emit LogRecord format self record s =
    (Ok tt,
     {| ScribeLogHandler.world :=
          snd (log c (one_message (words ++ " " ++ formatted))
                 (ScribeLogHandler.world s));
        ScribeLogHandler.handled := ScribeLogHandler.handled s |}).
Proof.
  intros Hf self c words.
  assert (Hc : ScribeLogHandler.get_category self = c).
  { subst self c. destruct category as [c|], extra as [[|x l]|]; simpl;
      try done; by destruct (c =? "")%string. }
  assert (Hw : ScribeLogHandler.extra self = words).
  { subst self words. by destruct extra as [[|x l]|]. }
  repeat split; try done.
  unfold ScribeLogHandler.emit. rewrite Hf, Hc, Hw.
  match goal with |- context [log ?c ?m ?w] =>
    destruct (log_returns c m w) as [w' Hw'] end.
  by rewrite Hw'.
Qed.

Lemma emit_logs_one_entry_witness :
  let s := {| ScribeLogHandler.world := World_init;
              ScribeLogHandler.handled := [] |} in
  (fun r : string => Ok r) "boot"%string = Ok "boot"%string /\
  ScribeLogHandler.get_category (ScribeLogHandler.init None None) =
    "default"%string /\
  ScribeLogHandler.extra (ScribeLogHandler.init None None) = ""%string /\
  log_entries "default" (one_message " boot") =
    [LogEntry_new "default" " boot"] /\
  ScribeLogHandler.emit string (fun r => Ok r)
    (ScribeLogHandler.init None None) "boot"%string s =
    (Ok tt,
     {| ScribeLogHandler.world :=
          snd (log "default" (one_message " boot") World_init);
        ScribeLogHandler.handled := [] |}).
Proof.
  intros s. split; [reflexivity|].
  exact (emit_logs_one_entry string (fun r => Ok r) None None
           "boot"%string "boot"%string s eq_refl).
Defined.

(** ** What a call puts on the wire *)

Lemma writes_Log_call (seqid : Z) (messages : list LogEntry.t) :
  in_range 4 seqid = true ->
  batch_fits messages ->
  writes (writeMessageBegin "Log" TMessageType.CALL seqid >>
          Log_args.write (Log_args.mk (Some messages)) >>
          writeMessageEnd)
         (enc_Log_call seqid messages).
Proof.
  intros Hs Hfit. unfold enc_Log_call.
  eapply writes_as; cycle 1.
  - apply writes_bind; [apply writes_bind|].
    + by apply writes_writeMessageBegin; [|apply fits_Log|].
    + by apply writes_Log_args.
    + apply writes_ret.
  - by rewrite app_nil_r.
Qed.

(** A [Log] call whose batch and sequence id fit: the id is counted
    up, the new Deferred entered under it, and the message flushed. *)
Lemma Log_sends (p : pid) (messages : list LogEntry.t) (w : World) (c : Client) :
  protocols w !! p = Some c ->
  in_range 4 (_seqid c + 1) = true ->
  batch_fits messages ->
  Log p messages w =
    (Ok (length (deferreds w)),
     {| scribe := scribe w;
        deferreds := deferreds w ++ [with_cbs []];
        protocols :=
          <[p := {| _seqid := _seqid c + 1;
                    _reqs := <[_seqid c + 1 := length (deferreds w)]> (_reqs c);
                    wbuf := [];
                    sent := sent c ++
                            [wbuf c ++ enc_Log_call (_seqid c + 1) messages] |}]>
            (protocols w);
        connects := connects w;
        fired := fired w |}).
Proof.
  intros Hp Hr Hfit. unfold Log.
  assert (Hlt : (p < length (protocols w))%nat) by (by eapply lookup_lt_Some).
  rewrite (bind_Ok _ _ _ _ _ (modify_Client_Some _ _ _ _ Hp)).
  rewrite (bind_Ok _ _ _ _ _ (new_Deferred_eq _)).
  rewrite bind_assoc.
  erewrite bind_Ok
    by (apply modify_Client_Some; simpl; by apply list_lookup_insert_eq).
  erewrite (bind_Ok (send_Log p messages)).
  2:{ unfold send_Log.
      erewrite bind_Ok
        by (apply get_Client_Some; simpl; apply list_lookup_insert_eq;
            by rewrite length_insert).
      erewrite (bind_Ok (on_transport _ _)).
      2:{ unfold on_transport.
          erewrite bind_Ok
            by (apply get_Client_Some; simpl; apply list_lookup_insert_eq;
                by rewrite length_insert).
          cbn [wbuf _seqid].
          rewrite (writes_Log_call _ _ Hr Hfit).
          erewrite bind_Ok
            by (apply modify_Client_Some; simpl; apply list_lookup_insert_eq;
                by rewrite length_insert).
          reflexivity. }
      unfold flush. apply modify_Client_Some. simpl.
      apply list_lookup_insert_eq. by rewrite !length_insert. }
  unfold ret, set_protocols, set_deferreds. simpl.
  by rewrite !list_insert_insert_eq.
Qed.

Lemma _log_sends (p : pid) (entries : list LogEntry.t) (w : World) (c : Client) :
  protocols w !! p = Some c ->
  in_range 4 (_seqid c + 1) = true ->
  batch_fits entries ->
  _log entries (VProtocol p) w =
    (Ok (VDeferred (length (deferreds w))),
     {| scribe := scribe w;
        deferreds := deferreds w ++ [with_cbs []];
        protocols :=
          <[p := {| _seqid := _seqid c + 1;
                    _reqs := <[_seqid c + 1 := length (deferreds w)]> (_reqs c);
                    wbuf := [];
                    sent := sent c ++
                            [wbuf c ++ enc_Log_call (_seqid c + 1) entries] |}]>
            (protocols w);
        connects := connects w;
        fired := fired w |}).
Proof.
  intros Hp Hr Hfit. unfold _log.
  rewrite (bind_Ok _ _ _ _ _ (get_Client_Some _ _ _ Hp)).
  by rewrite (bind_Ok _ _ _ _ _ (Log_sends _ _ _ _ Hp Hr Hfit)).
Qed.

(** X8: on a live connection [log] sends the batch before it returns:
    the call takes the next sequence id, its message (header, then the
    batch as the argument struct) is flushed as the next message of the
    connection, and the Deferred of the call is pending under that id.
    The Deferred handed to the caller is a new one, already fired with
    the connection and now waiting for the Deferred of the call.  An
    empty list of messages is sent like any other batch. *)
Theorem log_connected_sends (category : string) (messages : messages_arg)
    (p : pid) (c : Client) (w : World) :
  _state (scribe w) = CONNECTED ->
  _client (scribe w) = Some p ->
  protocols w !! p = Some c ->
  in_range 4 (_seqid c + 1) = true ->
  batch_fits (log_entries category messages) ->
  let d := length (deferreds w) in
  log category messages w =
    (Ok d,
     {| scribe := scribe w;
        deferreds :=
          deferreds w ++
            [{| callbacks := []; called := Some (Success (VDeferred (S d))) |};
             with_cbs []];
        protocols :=
          <[p := {| _seqid := _seqid c + 1;
                    _reqs := <[_seqid c + 1 := S d]> (_reqs c);
                    wbuf := [];
                    sent := sent c ++
                            [wbuf c ++
                             enc_Log_call (_seqid c + 1)
                               (log_entries category messages)] |}]>
            (protocols w);
        connects := connects w;
        fired := fired w ++ [(d, Success (VProtocol p))] |}).
Proof.
  intros Hs Hc Hp Hr Hfit d. unfold log.
  rewrite (bind_Ok _ _ _ _ _ (_get_client_CONNECTED w Hs)).
  rewrite Hc. cbn [client_value].
  erewrite (bind_Ok (addCallbacks _ _ _)); [reflexivity|].
  unfold addCallbacks.
  erewrite bind_Ok by (apply get_Deferred_Some; simpl; apply lookup_fresh).
  cbn [called callbacks app run_callbacks run_callback].
  rewrite bind_assoc. unfold as_outcome, try_except. rewrite bind_assoc.
  unfold bind at 1.
  erewrite _log_sends; [|exact Hp|exact Hr|exact Hfit].
  unfold bind, ret, put_Deferred, modify, set_deferreds. simpl.
  rewrite length_app. simpl.
  replace (length (deferreds w) + 1)%nat with (S (length (deferreds w))) by lia.
  f_equal. f_equal.
  rewrite <- app_assoc. simpl.
  replace (length (deferreds w)) with (length (deferreds w) + 0)%nat at 1 by lia.
  by rewrite insert_app_r.
Qed.

Lemma log_connected_sends_witness :
  _state (scribe idle_connection) = CONNECTED /\
  _client (scribe idle_connection) = Some 0%nat /\
  protocols idle_connection !! 0%nat = Some Client_init /\
  in_range 4 (_seqid Client_init + 1) = true /\
  batch_fits (log_entries "app" (many_messages [])) /\
  log "app" (many_messages []) idle_connection =
    (Ok (length (deferreds idle_connection)),
     {| scribe := scribe idle_connection;
        deferreds :=
          deferreds idle_connection ++
            [{| callbacks := [];
                called := Some (Success (VDeferred
                                  (S (length (deferreds idle_connection))))) |};
             with_cbs []];
        protocols :=
          <[0%nat := {| _seqid := _seqid Client_init + 1;
                        _reqs := <[_seqid Client_init + 1 :=
                                     S (length (deferreds idle_connection))]>
                                   (_reqs Client_init);
                        wbuf := [];
                        sent := sent Client_init ++
                                [wbuf Client_init ++
                                 enc_Log_call (_seqid Client_init + 1)
                                   (log_entries "app" (many_messages []))] |}]>
            (protocols idle_connection);
        connects := connects idle_connection;
        fired := fired idle_connection ++
                 [(length (deferreds idle_connection), Success (VProtocol 0%nat))] |}).
Proof.
  assert (Hfit : batch_fits (log_entries "app" (many_messages [])))
    by (split; [unfold fits_i32; simpl; lia|constructor]).
  repeat (split; [done|]).
  exact (log_connected_sends "app" (many_messages []) 0%nat Client_init
           idle_connection eq_refl eq_refl eq_refl eq_refl Hfit).
Defined.

(** ** A call and its reply *)

(** X9: a [Log] call followed by the reply a peer writes for it with
    [Log_result.write], under the sequence id of the call, resolves the
    Deferred [Log] returned with the status of the reply, fires nothing
    else, and leaves the pending calls of the connection as they were
    before the call: what [Log] enters in [_reqs], [recv_Log] finds and
    removes. *)
Theorem call_round_trip (p : pid) (messages : list LogEntry.t) (v : Z)
    (w : World) (c : Client) :
  protocols w !! p = Some c ->
  reqs_bounded c ->
  in_range 4 (_seqid c + 1) = true ->
  batch_fits messages ->
  in_range 4 v = true ->
  let k := _seqid c + 1 in
  let d := length (deferreds w) in
  let reply := snd (Log_result.write (Log_result.mk (Some v)) []) in
  exists w1 w2,
    Log p messages w = (Ok d, w1) /\
    recv_Log p reply TMessageType.REPLY k w1 = (Ok tt, w2) /\
    deferreds w2 =
      deferreds w ++ [{| callbacks := []; called := Some (Success (VInt v)) |}] /\
    fired w2 = fired w ++ [(d, Success (VInt v))] /\
    protocols w2 =
      <[p := {| _seqid := k; _reqs := _reqs c; wbuf := [];
                sent := sent c ++ [wbuf c ++ enc_Log_call k messages] |}]>
        (protocols w) /\
    scribe w2 = scribe w /\
    connects w2 = connects w.
Proof.
  intros Hp Hb Hr Hfit Hv k d reply.
  assert (Hlt : (p < length (protocols w))%nat) by (by eapply lookup_lt_Some).
  assert (Hreply : reply = enc_Log_result (Log_result.mk (Some v)) ++ []).
  { subst reply. rewrite (writes_Log_result (Log_result.mk (Some v)) Hv).
    by rewrite app_nil_r. }
  assert (Hnone : _reqs c !! k = None).
  { destruct (_reqs c !! k) as [d'|] eqn:Hk; [|done].
    specialize (Hb k (mk_is_Some _ _ Hk)). subst k. lia. }
  eexists _, _. split; [by apply Log_sends|].
  erewrite recv_Log_pending;
    [|simpl; by apply list_lookup_insert_eq|simpl; apply lookup_insert_eq].
  change (TMessageType.REPLY =? TMessageType.EXCEPTION) with false. cbn iota.
  erewrite bind_Ok.
  2:{ apply on_message_Ok. apply read_then_end. rewrite Hreply.
      by rewrite (reads_Log_result (Log_result.mk (Some v)) Hv []). }
  cbn [Log_result.success]. unfold callback.
  rewrite fire_no_callbacks by (simpl; apply lookup_fresh).
  split; [reflexivity|]. simpl.
  repeat split.
  - by rewrite insert_fresh.
  - rewrite list_insert_insert_eq. by rewrite delete_insert_id.
Qed.

Lemma call_round_trip_witness :
  protocols idle_connection !! 0%nat = Some Client_init /\
  reqs_bounded Client_init /\
  in_range 4 (_seqid Client_init + 1) = true /\
  batch_fits hello_batch /\
  in_range 4 0 = true /\
  exists w1 w2,
    Log 0%nat hello_batch idle_connection =
      (Ok (length (deferreds idle_connection)), w1) /\
    recv_Log 0%nat (snd (Log_result.write (Log_result.mk (Some 0)) []))
      TMessageType.REPLY (_seqid Client_init + 1) w1 = (Ok tt, w2) /\
    deferreds w2 =
      deferreds idle_connection ++
        [{| callbacks := []; called := Some (Success (VInt 0)) |}] /\
    fired w2 =
      fired idle_connection ++
        [(length (deferreds idle_connection), Success (VInt 0))] /\
    protocols w2 =
      <[0%nat := {| _seqid := _seqid Client_init + 1;
                    _reqs := _reqs Client_init; wbuf := [];
                    sent := sent Client_init ++
                            [wbuf Client_init ++
                             enc_Log_call (_seqid Client_init + 1)
                               hello_batch] |}]>
        (protocols idle_connection) /\
    scribe w2 = scribe idle_connection /\
    connects w2 = connects idle_connection.
Proof.
  assert (Hfit : batch_fits hello_batch).
  { split; [unfold fits_i32; simpl; lia|].
    repeat constructor; unfold fits_i32; simpl; lia. }
  split; [reflexivity|]. split; [exact reqs_bounded_init|].
  split; [reflexivity|]. split; [exact Hfit|]. split; [reflexivity|].
  exact (call_round_trip 0%nat hello_batch 0 idle_connection Client_init
           eq_refl reqs_bounded_init eq_refl Hfit eq_refl).
Defined.

(** ** The order in which queued batches go out *)

Lemma do_logs_CONNECTING (bs : list log_call) :
  forall w,
    _state (scribe w) = CONNECTING ->
    do_logs bs w =
      (Ok tt,
       {| scribe := {| _state := CONNECTING; _client := _client (scribe w);
                       _waiting := _waiting (scribe w) ++
                                   seq (length (deferreds w)) (length bs) |};
          deferreds := deferreds w ++
                       ((fun b => with_cbs [cb_log (entries_of b)]) <$> bs);
          protocols := protocols w;
          connects := connects w;
          fired := fired w |}).
Proof.
  induction bs as [|[category messages] bs IH]; intros w Hs.
  - destruct w as [[st cl wt] ds ps cs fi]. simpl in *. subst st.
    by rewrite !app_nil_r.
  - cbn [do_logs fst snd].
    rewrite (bind_Ok _ _ _ _ _ (log_CONNECTING category messages w Hs)).
    rewrite IH by done. simpl.
    rewrite length_app. simpl.
    replace (length (deferreds w) + 1)%nat with (S (length (deferreds w))) by lia.
    by rewrite <- !app_assoc.
Qed.

(** [d.callback(client)] on a waiter queued by [log]: its batch is
    sent, and no other Deferred that existed changes. *)
Lemma callback_waiter_sends (d : did) (e : list LogEntry.t) (p : pid)
    (c : Client) (w : World) :
  deferreds w !! d = Some (with_cbs [cb_log e]) ->
  protocols w !! p = Some c ->
  in_range 4 (_seqid c + 1) = true ->
  batch_fits e ->
  exists w',
    callback_waiter d (VProtocol p) w = (Ok tt, w') /\
    scribe w' = scribe w /\
    connects w' = connects w /\
    protocols w' =
      <[p := {| _seqid := _seqid c + 1;
                _reqs := <[_seqid c + 1 := length (deferreds w)]> (_reqs c);
                wbuf := [];
                sent := sent c ++ [wbuf c ++ enc_Log_call (_seqid c + 1) e] |}]>
        (protocols w) /\
    (forall d', d' <> d -> (d' < length (deferreds w))%nat ->
                deferreds w' !! d' = deferreds w !! d').
Proof.
  intros Hd Hp Hr Hfit. unfold callback_waiter, fire.
  assert (Hlt : (d < length (deferreds w))%nat) by (by eapply lookup_lt_Some).
  rewrite (bind_Ok _ _ _ _ _ (get_Deferred_Some _ _ _ Hd)).
  cbn [called with_cbs callbacks].
  erewrite bind_Ok by (unfold bind, modify, put_Deferred; simpl; reflexivity).
  cbn [run_callbacks run_callback].
  rewrite !bind_assoc. unfold as_outcome, try_except. rewrite bind_assoc.
  unfold bind at 1.
  erewrite _log_sends; [|exact Hp|exact Hr|exact Hfit].
  unfold bind, ret, put_Deferred, modify, set_deferreds. simpl.
  eexists. split; [reflexivity|]. simpl. rewrite length_insert.
  repeat split.
  intros d' Hne Hlt'.
  rewrite list_lookup_insert_ne by done.
  rewrite lookup_app_l by (by rewrite length_insert).
  by rewrite list_lookup_insert_ne.
Qed.

(** The loop of [_connection_made] over waiters queued by [log]: their
    batches go out in the order of the queue, under consecutive
    sequence ids. *)
Lemma while_waiting_sends (p : pid) (es : list (list LogEntry.t)) :
  forall (n : nat) (d1 : did) (w : World) (c : Client),
    _waiting (scribe w) = seq d1 (length es) ->
    (length es <= n)%nat ->
    (forall i e, es !! i = Some e ->
                 deferreds w !! (d1 + i)%nat = Some (with_cbs [cb_log e])) ->
    _client (scribe w) = Some p ->
    protocols w !! p = Some c ->
    wbuf c = [] ->
    0 <= _seqid c ->
    _seqid c + Z.of_nat (length es) < 2 ^ 31 ->
    Forall batch_fits es ->
    exists w' c',
      while_waiting n w = (Ok tt, w') /\
      _state (scribe w') = _state (scribe w) /\
      _client (scribe w') = Some p /\
      _waiting (scribe w') = [] /\
      connects w' = connects w /\
      protocols w' = <[p := c']> (protocols w) /\
      _seqid c' = _seqid c + Z.of_nat (length es) /\
      wbuf c' = [] /\
      sent c' = sent c ++ enc_Log_calls (_seqid c) es.
Proof.
  induction es as [|e es IH]; intros n d1 w c Hw Hn Hd Hcl Hp Hb H0 Hmax Hfit.
  - exists w, c. simpl in *. unfold enc_Log_calls. simpl.
    rewrite app_nil_r, Z.add_0_r, list_insert_id by done.
    destruct n; simpl; unfold bind, gets; rewrite Hw; by repeat split.
  - destruct n as [|n]; [simpl in Hn; lia|].
    apply Forall_cons in Hfit as [Hfe Hfit].
    cbn [length] in *. cbn [seq] in Hw.
    cbn [while_waiting]. unfold bind at 1. unfold gets at 1. rewrite Hw.
    unfold bind at 1. unfold bind at 1. unfold modify at 1.
    set (w1 := set_scribe _ w). rewrite Hcl. cbn [client_value].
    assert (Hr : in_range 4 (_seqid c + 1) = true).
    { unfold in_range. apply andb_true_iff.
      change (8 * Z.of_nat 4 - 1) with 31.
      split; [apply Z.leb_le|apply Z.ltb_lt]; lia. }
    assert (Hd1 : deferreds w1 !! d1 = Some (with_cbs [cb_log e])).
    { specialize (Hd 0%nat e eq_refl). by rewrite Nat.add_0_r in Hd. }
    destruct (callback_waiter_sends d1 e p c w1 Hd1 Hp Hr Hfe)
      as (w2 & Hcb & Hs2 & Hc2 & Hp2 & Hoth).
    rewrite Hcb.
    assert (Hlt : (p < length (protocols w))%nat) by (by eapply lookup_lt_Some).
    set (c2 := {| _seqid := _seqid c + 1;
                  _reqs := <[_seqid c + 1 := length (deferreds w1)]> (_reqs c);
                  wbuf := [];
                  sent := sent c ++ [wbuf c ++ enc_Log_call (_seqid c + 1) e] |})
      in *.
    destruct (IH n (S d1) w2 c2)
      as (w' & c' & Hrun & Hst & Hcl' & Hwt & Hcn & Hpr & Hsq & Hwb & Hsent).
    + by rewrite Hs2.
    + lia.
    + intros i e' He'.
      rewrite Hoth.
      * specialize (Hd (S i) e' He').
        by replace (d1 + S i)%nat with (S d1 + i)%nat in Hd by lia.
      * lia.
      * pose proof (Hd (S i) e' He') as Hd'. apply lookup_lt_Some in Hd'.
        subst w1. simpl. lia.
    + by rewrite Hs2.
    + rewrite Hp2. by apply list_lookup_insert_eq.
    + done.
    + subst c2. simpl. lia.
    + subst c2. simpl. lia.
    + done.
    + exists w', c'. split; [done|].
      rewrite Hs2 in *. subst w1. simpl in *.
      repeat split; try done.
      * by rewrite Hcn, Hc2.
      * rewrite Hpr, Hp2. by rewrite list_insert_insert_eq.
      * rewrite Hsq. lia.
      * rewrite Hsent. simpl. rewrite Hb. simpl. rewrite <- app_assoc.
        f_equal. unfold enc_Log_calls. rewrite imap_cons. simpl.
        rewrite Z.add_0_r. f_equal.
        apply imap_ext. intros i x _. simpl. f_equal. lia.
Qed.

Lemma _connection_made_sends (p : pid) (es : list (list LogEntry.t))
    (d1 : did) (w : World) (c : Client) :
  _waiting (scribe w) = seq d1 (length es) ->
  (forall i e, es !! i = Some e ->
               deferreds w !! (d1 + i)%nat = Some (with_cbs [cb_log e])) ->
  protocols w !! p = Some c ->
  wbuf c = [] ->
  0 <= _seqid c ->
  _seqid c + Z.of_nat (length es) < 2 ^ 31 ->
  Forall batch_fits es ->
  exists w' c',
    _connection_made (VWrapper {| wrapped := p |}) w = (Ok (VProtocol p), w') /\
    _state (scribe w') = CONNECTED /\
    _client (scribe w') = Some p /\
    _waiting (scribe w') = [] /\
    connects w' = connects w /\
    protocols w' = <[p := c']> (protocols w) /\
    _seqid c' = _seqid c + Z.of_nat (length es) /\
    wbuf c' = [] /\
    sent c' = sent c ++ enc_Log_calls (_seqid c) es.
Proof.
  intros Hw Hd Hp Hb H0 Hmax Hfit. unfold _connection_made.
  erewrite bind_Ok by reflexivity.
  erewrite bind_Ok by reflexivity.
  erewrite bind_Ok by reflexivity.
  match goal with |- context [bind (while_waiting ?n) _ ?w0] =>
    destruct (while_waiting_sends p es n d1 w0 c)
      as (w' & c' & Hrun & Hst & Hcl & Hwt & Hcn & Hpr & Hsq & Hwb & Hsent);
      [done | simpl; rewrite Hw, length_seq; lia | done | done | done | done
      | done | done | done |]
  end.
  rewrite (bind_Ok _ _ _ _ _ Hrun).
  simpl in *. unfold bind, gets, ret. rewrite Hcl. simpl.
  exists w', c'. by repeat split.
Qed.

(** X10: batches logged while there is no connection go out when the
    connect succeeds, none before.  The batches of the callers that
    were queued go first, in the order of their calls, because
    [_connection_made] fires the waiters before it returns; the batch
    of the caller that started the connect goes last, although it was
    logged first, because its [_log] runs after [_connection_made] in
    the callback chain of the connect.  The calls take the sequence ids
    1, 2, ... in the order they go out. *)
Theorem queued_batches_sent_in_order (first : log_call)
    (later : list log_call) (w : World) :
  _state (scribe w) = NOT_CONNECTED ->
  _waiting (scribe w) = [] ->
  Forall (fun b => batch_fits (entries_of b)) (first :: later) ->
  Z.of_nat (length later) + 1 < 2 ^ 31 ->
  exists w1 w2 c,
    do_logs (first :: later) w = (Ok tt, w1) /\
    protocols w1 = protocols w /\
    connects w1 = connects w ++ [length (deferreds w)] /\
    connect_succeeded (length (deferreds w)) w1 = (Ok tt, w2) /\
    _state (scribe w2) = CONNECTED /\
    _client (scribe w2) = Some (length (protocols w)) /\
    _waiting (scribe w2) = [] /\
    protocols w2 = protocols w ++ [c] /\
    sent c = enc_Log_calls 0 (entries_of <$> (later ++ [first])) /\
    _seqid c = Z.of_nat (length later) + 1.
Proof.
  intros Hs Hwt Hfit Hmax.
  apply Forall_cons in Hfit as [Hf0 Hfit].
  destruct first as [category messages].
  set (d0 := length (deferreds w)). set (p := length (protocols w)).
  set (e0 := log_entries category messages).
  eassert (Hlogs : do_logs ((category, messages) :: later) w = (Ok tt, _)).
  { cbn [do_logs fst snd].
    rewrite (bind_Ok _ _ _ _ _ (log_NOT_CONNECTED category messages w Hs)).
    rewrite do_logs_CONNECTING by done.
    cbn [scribe _waiting _client deferreds protocols connects fired].
    rewrite Hwt. cbn [app]. rewrite length_app. cbn [length].
    replace (length (deferreds w) + 1)%nat with (S d0) by (subst d0; lia).
    fold d0 e0. reflexivity. }
  match type of Hlogs with _ = (_, ?W) => set (w1 := W) in * end.
  exists w1.
  assert (Hgo : exists w2 c,
             connect_succeeded d0 w1 = (Ok tt, w2) /\
             _state (scribe w2) = CONNECTED /\
             _client (scribe w2) = Some p /\
             _waiting (scribe w2) = [] /\
             protocols w2 = protocols w ++ [c] /\
             sent c = enc_Log_calls 0 (entries_of <$> (later ++ [(category, messages)])) /\
             _seqid c = Z.of_nat (length later) + 1).
  2:{ destruct Hgo as (w2 & c & Hgo). exists w2, c.
      split; [exact Hlogs|]. split; [done|]. split; [done|]. exact Hgo. }
  unfold connect_succeeded.
  erewrite bind_Ok by reflexivity.
  erewrite bind_Ok by reflexivity.
  cbn [protocols w1]. fold p.
  unfold callback, fire.
  erewrite bind_Ok.
  2:{ apply get_Deferred_Some. cbn [deferreds set_protocols w1].
      rewrite lookup_app_l by (rewrite length_app; simpl; lia).
      apply lookup_fresh. }
  cbn [called with_cbs callbacks].
  erewrite bind_Ok by (unfold bind, modify, put_Deferred; simpl; reflexivity).
  cbn [run_callbacks run_callback connection_callbacks].
  rewrite !bind_assoc. unfold as_outcome at 1, try_except at 1.
  rewrite bind_assoc. unfold bind at 1.
  match goal with |- context [_connection_made _ ?w0] =>
    destruct (_connection_made_sends p (entries_of <$> later) (S d0) w0
                Client_init)
      as (wb & cb & Hmade & Hst & Hcl & Hwb & Hcn & Hpr & Hsq & Hbuf & Hsent)
  end.
  { simpl. by rewrite length_fmap. }
  { intros i e He. simpl.
    rewrite list_lookup_insert_ne by lia.
    rewrite lookup_app_r by (rewrite length_app; simpl; lia).
    rewrite length_app. simpl.
    replace (S (d0 + i) - (length (deferreds w) + 1))%nat with i
      by (subst d0; lia).
    rewrite list_lookup_fmap in He. rewrite list_lookup_fmap.
    destruct (later !! i) as [b|]; [|done]. simpl in *. by inversion He. }
  { simpl. subst p. apply lookup_fresh. }
  { done. }
  { simpl. lia. }
  { simpl. rewrite length_fmap. lia. }
  { apply Forall_fmap. eapply Forall_impl; [exact Hfit|]. by intros b Hb. }
  rewrite Hmade. unfold ret at 1. unfold bind at 1.
  cbn [run_callback]. rewrite !bind_assoc.
  unfold as_outcome at 1, try_except at 1. rewrite bind_assoc.
  unfold bind at 1.
  assert (Hpb : protocols wb !! p = Some cb).
  { rewrite Hpr. apply list_lookup_insert_eq. simpl.
    rewrite length_app. simpl. subst p. lia. }
  assert (Hr : in_range 4 (_seqid cb + 1) = true).
  { rewrite Hsq. simpl. rewrite length_fmap.
    unfold in_range. apply andb_true_iff.
    change (8 * Z.of_nat 4 - 1) with 31.
    split; [apply Z.leb_le|apply Z.ltb_lt]; lia. }
  rewrite (_log_sends p e0 wb cb Hpb Hr Hf0).
  unfold bind, ret, put_Deferred, modify, set_deferreds. simpl.
  eexists _, _. split; [reflexivity|]. simpl.
  rewrite Hst, Hcl, Hwb, Hpr, Hsq, Hbuf, Hsent. simpl.
  rewrite list_insert_insert_eq. subst p. rewrite insert_fresh.
  repeat split; try done.
  - unfold enc_Log_calls. rewrite fmap_app, imap_app. simpl.
    rewrite length_fmap.
    by replace (0 + Z.of_nat (length later) + 1)
      with (0 + 1 + Z.of_nat (length later + 0)) by lia.
  - rewrite length_fmap. cbn [_seqid]. lia.
Qed.

Lemma queued_batches_sent_in_order_witness :
  let first : log_call := ("app", one_message "a")%string in
  let later : list log_call :=
    [("app", many_messages ["b"; "c"]); ("db", one_message "d")]%string in
  _state (scribe World_init) = NOT_CONNECTED /\
  _waiting (scribe World_init) = [] /\
  Forall (fun b => batch_fits (entries_of b)) (first :: later) /\
  Z.of_nat (length later) + 1 < 2 ^ 31 /\
  exists w1 w2 c,
    do_logs (first :: later) World_init = (Ok tt, w1) /\
    protocols w1 = protocols World_init /\
    connects w1 = connects World_init ++ [length (deferreds World_init)] /\
    connect_succeeded (length (deferreds World_init)) w1 = (Ok tt, w2) /\
    _state (scribe w2) = CONNECTED /\
    _client (scribe w2) = Some (length (protocols World_init)) /\
    _waiting (scribe w2) = [] /\
    protocols w2 = protocols World_init ++ [c] /\
    sent c = enc_Log_calls 0 (entries_of <$> (later ++ [first])) /\
    _seqid c = Z.of_nat (length later) + 1.
Proof.
  intros first later.
  assert (Hfit : Forall (fun b => batch_fits (entries_of b)) (first :: later)).
  { repeat constructor; unfold fits_i32; simpl; lia. }
  split; [reflexivity|]. split; [reflexivity|]. split; [exact Hfit|].
  split; [reflexivity|].
  exact (queued_batches_sent_in_order first later World_init
           eq_refl eq_refl Hfit eq_refl).
Defined.

(** ** After the connection is lost *)

(** X11: [_connection_lost] resets the client whatever its state was,
    and the next [log] starts a new connect: it returns the unfired
    Deferred of that connect, carrying the connection callbacks and the
    batch, writes to no connection, fires nothing, and leaves the queue
    of waiters as it was. *)
Theorem connection_lost_then_log (reason : exn) (category : string)
    (messages : messages_arg) (w : World) :
  exists w1,
    _connection_lost reason w = (Ok VNone, w1) /\
    _state (scribe w1) = NOT_CONNECTED /\
    _client (scribe w1) = None /\
    log category messages w1 =
      (Ok (length (deferreds w)),
       {| scribe := {| _state := CONNECTING; _client := None;
                       _waiting := _waiting (scribe w) |};
          deferreds :=
            deferreds w ++
              [with_cbs [cb_connection;
                         cb_log (log_entries category messages)]];
          protocols := protocols w;
          connects := connects w ++ [length (deferreds w)];
          fired := fired w |}).
Proof.
  eexists. split; [reflexivity|]. split; [done|]. split; [done|].
  by rewrite log_NOT_CONNECTED.
Qed.

(** ** What the decoders accept *)

(** X12: [Log_args.read] reads the elements of the list as LogEntry
    structs without looking at the element type the list announces, and
    runs [xrange] over the count as it comes: any element type is
    accepted, and a count of zero or below gives the empty list. *)
Theorem Log_args_read_any_list (etype size : Z) (ms : list LogEntry.t) :
  in_range 1 etype = true ->
  in_range 4 size = true ->
  Z.to_nat size = length ms ->
  Forall entry_fits ms ->
  forall rest,
    Log_args.read Log_args.init
      (enc_messages_as etype size ms ++ be_encode 1 TType.STOP ++ rest) =
      (Ok (Log_args.mk (Some ms)), rest).
Proof.
  intros He Hsz Hlen Hms rest.
  pose proof (fun H => reads_as (Log_args.read Log_args.init)
                ([] ++ (enc_messages_as etype size ms ++
                        be_encode 1 TType.STOP) ++ [] ++ [])
                (enc_messages_as etype size ms ++ be_encode 1 TType.STOP)
                (Log_args.mk (Some ms)) H) as Has.
  rewrite app_assoc. apply Has; [simpl; by rewrite !app_nil_r|].
  unfold Log_args.read.
  eapply reads_bind; [apply reads_ret|].
  eapply reads_bind; [|eapply reads_bind; apply reads_ret].
  apply reads_with_budget. intros n Hn.
  unfold enc_messages_as, enc_field_begin in Hn.
  rewrite ?length_app, ?length_be_encode in Hn.
  destruct n as [|[|n]]; try lia.
  cbn [Log_args.read_fields]. unfold enc_messages_as.
  rewrite <- app_assoc.
  eapply reads_bind; [by apply reads_readFieldBegin|].
  cbn beta iota.
  change (TType.LIST =? TType.STOP) with false.
  change (1 =? 1) with true.
  change (TType.LIST =? TType.LIST) with true. cbn iota.
  eapply reads_bind; [|apply Log_args_read_stop].
  eapply reads_as; cycle 1.
  - eapply reads_bind.
    + unfold readListBegin.
      eapply reads_bind; [by apply (reads_readInt 1 etype); [lia|]|].
      eapply reads_bind; [by apply (reads_readInt 4 size); [lia|]|].
      apply reads_ret.
    + cbn beta iota. rewrite Hlen.
      eapply reads_bind; [by apply (reads_entries ms [])|].
      eapply reads_bind; apply reads_ret.
  - rewrite !app_nil_r. by rewrite <- !app_assoc.
Qed.

Lemma Log_args_read_any_list_witness :
  in_range 1 TType.I32 = true /\
  in_range 4 (-1) = true /\
  Z.to_nat (-1) = length (@nil LogEntry.t) /\
  Forall entry_fits [] /\
  forall rest,
    Log_args.read Log_args.init
      (enc_messages_as TType.I32 (-1) [] ++ be_encode 1 TType.STOP ++ rest) =
      (Ok (Log_args.mk (Some [])), rest).
Proof.
  assert (Hms : Forall entry_fits []) by constructor.
  repeat (split; [done|]).
  exact (Log_args_read_any_list TType.I32 (-1) [] eq_refl eq_refl eq_refl Hms).
Defined.

(** X13: a field that comes twice is taken twice: [Log_args.read]
    starts the list of messages anew at every messages field and
    [Log_result.read] assigns [success] at every success field, so of
    two such fields in one struct the later one is the value read. *)
Theorem repeated_field_last_wins (ms1 ms2 : list LogEntry.t) (v1 v2 : Z) :
  batch_fits ms1 ->
  batch_fits ms2 ->
  in_range 4 v1 = true ->
  in_range 4 v2 = true ->
  (forall rest,
     Log_args.read Log_args.init
       (enc_messages_field ms1 ++ enc_messages_field ms2 ++
        be_encode 1 TType.STOP ++ rest) =
       (Ok (Log_args.mk (Some ms2)), rest)) /\
  (forall rest,
     Log_result.read Log_result.init
       (enc_success_field v1 ++ enc_success_field v2 ++
        be_encode 1 TType.STOP ++ rest) =
       (Ok (Log_result.mk (Some v2)), rest)).
Proof.
  intros [Hn1 Hms1] [Hn2 Hms2] Hv1 Hv2. split; intros rest.
  - pose proof (fun H => reads_as (Log_args.read Log_args.init)
                  ([] ++ (enc_messages_field ms1 ++ enc_messages_field ms2 ++
                          be_encode 1 TType.STOP) ++ [] ++ [])
                  (enc_messages_field ms1 ++ enc_messages_field ms2 ++
                   be_encode 1 TType.STOP)
                  (Log_args.mk (Some ms2)) H) as Has.
    rewrite 2!app_assoc. rewrite <- (app_assoc (enc_messages_field ms1)).
    apply Has; [simpl; by rewrite !app_nil_r|].
    unfold Log_args.read.
    eapply reads_bind; [apply reads_ret|].
    eapply reads_bind; [|eapply reads_bind; apply reads_ret].
    apply reads_with_budget. intros n Hn.
    unfold enc_messages_field, enc_field_begin in Hn.
    rewrite ?length_app, ?length_be_encode in Hn.
    destruct n as [|[|[|n]]]; try lia.
    apply Log_args_read_messages; [done|done|].
    apply Log_args_read_messages; [done|done|].
    apply Log_args_read_stop.
  - pose proof (fun H => reads_as (Log_result.read Log_result.init)
                  ([] ++ (enc_success_field v1 ++ enc_success_field v2 ++
                          be_encode 1 TType.STOP) ++ [] ++ [])
                  (enc_success_field v1 ++ enc_success_field v2 ++
                   be_encode 1 TType.STOP)
                  (Log_result.mk (Some v2)) H) as Has.
    rewrite 2!app_assoc. rewrite <- (app_assoc (enc_success_field v1)).
    apply Has; [cbn [app]; by rewrite !app_nil_r|].
    unfold Log_result.read.
    eapply reads_bind; [apply reads_ret|].
    eapply reads_bind; [|eapply reads_bind; apply reads_ret].
    apply reads_with_budget. intros n Hn.
    unfold enc_success_field, enc_field_begin in Hn.
    rewrite ?length_app, ?length_be_encode in Hn.
    destruct n as [|[|[|n]]]; try lia.
    apply Log_result_read_success; [done|].
    apply Log_result_read_success; [done|].
    apply Log_result_read_stop.
Qed.

Lemma repeated_field_last_wins_witness :
  batch_fits hello_batch /\
  batch_fits [] /\
  in_range 4 0 = true /\
  in_range 4 7 = true /\
  (forall rest,
     Log_args.read Log_args.init
       (enc_messages_field hello_batch ++ enc_messages_field [] ++
        be_encode 1 TType.STOP ++ rest) =
       (Ok (Log_args.mk (Some [])), rest)) /\
  (forall rest,
     Log_result.read Log_result.init
       (enc_success_field 0 ++ enc_success_field 7 ++
        be_encode 1 TType.STOP ++ rest) =
       (Ok (Log_result.mk (Some 7)), rest)).
Proof.
  assert (H1 : batch_fits hello_batch).
  { split; [unfold fits_i32; simpl; lia|].
    repeat constructor; unfold fits_i32; simpl; lia. }
  assert (H2 : batch_fits []).
  { split; [unfold fits_i32; simpl; lia|constructor]. }
  split; [exact H1|]. split; [exact H2|].
  split; [reflexivity|]. split; [reflexivity|].
  exact (repeated_field_last_wins hello_batch [] 0 7 H1 H2 eq_refl eq_refl).
Defined.

(** ** A successful connect in any reachable state *)

(** X21: in every state the client can reach (by calls of [log] and
    [_get_client], connects that succeed or fail, lost connections and
    replies), [_connection_made] does not raise: it returns the
    connection, leaves the state CONNECTED and the queue of waiters
    empty, and has fired every waiter that was queued, each once, in
    the order of the queue. *)
Theorem reachable_connection_made (w : World)
    (wr : _LossNotifyingWrapperProtocol) :
  reachable w ->
  exists w',
    _connection_made (VWrapper wr) w = (Ok (VProtocol (wrapped wr)), w') /\
    _state (scribe w') = CONNECTED /\
    _client (scribe w') = Some (wrapped wr) /\
    _waiting (scribe w') = [] /\
    fired w' =
      fired w ++
        map (fun d => (d, Success (VProtocol (wrapped wr))))
            (_waiting (scribe w)).
Proof.
  intros Hr. destruct (reachable_well_formed w Hr) as [[Hnd Hp] _].
  unfold _connection_made.
  erewrite bind_Ok by reflexivity.
  erewrite bind_Ok by reflexivity.
  erewrite bind_Ok by reflexivity.
  match goal with |- context [bind (while_waiting ?n) _ ?w0] =>
    destruct (while_waiting_pending (_waiting (scribe w)) n w0)
      as (w' & Hrun & Hst & Hcl & Hwt & Hcn & Hfi & Hall & Hoth & Hlen);
      [done | simpl; lia | done | done |]
  end.
  rewrite (bind_Ok _ _ _ _ _ Hrun).
  simpl in *. unfold bind, gets, ret. rewrite Hcl. simpl.
  exists w'. by repeat split.
Qed.

Lemma reachable_connection_made_witness :
  reachable two_waiters /\
  exists w',
    _connection_made (VWrapper {| wrapped := 0%nat |}) two_waiters =
      (Ok (VProtocol 0%nat), w') /\
    _state (scribe w') = CONNECTED /\
    _client (scribe w') = Some 0%nat /\
    _waiting (scribe w') = [] /\
    fired w' =
      fired two_waiters ++
        map (fun d => (d, Success (VProtocol 0%nat)))
            (_waiting (scribe two_waiters)).
Proof.
  assert (Hr : reachable two_waiters).
  { exact (reachable_step
             (ev_log "app" (many_messages ["b"; "c"]%string)) _
             (reachable_step ev_get_client _
                (reachable_step (ev_log "app" (one_message "a")) _
                   reachable_init))). }
  split; [exact Hr|].
  exact (reachable_connection_made two_waiters {| wrapped := 0%nat |} Hr).
Defined.

(** ** The header of a message *)

Lemma lor_version (type : Z) :
  0 <= type < 256 -> Z.lor VERSION_1 type = VERSION_1 + type.
Proof.
  intros Ht. rewrite <- Z.add_nocarry_lor; [lia|].
  apply Z.bits_inj'. intros n Hn. rewrite Z.land_spec, Z.bits_0.
  destruct (Z.lt_ge_cases n 8) as [Hlt|Hge].
  - replace (Z.testbit VERSION_1 n) with false; [done|].
    unfold VERSION_1.
    assert (Hn' : n = 0 \/ n = 1 \/ n = 2 \/ n = 3 \/ n = 4 \/ n = 5 \/
                  n = 6 \/ n = 7) by lia.
    by destruct Hn' as [->|[->|[->|[->|[->|[->|[->| ->]]]]]]].
  - rewrite (Z.bits_above_log2 type n); [by rewrite andb_false_r|lia|].
    destruct (Z.eq_dec type 0) as [->|Hne]; [simpl; lia|].
    apply Z.log2_lt_pow2; [lia|].
    apply Z.lt_le_trans with (2 ^ 8); [simpl; lia|].
    apply Z.pow_le_mono_r; lia.
Qed.

Lemma land_small_mask (type : Z) :
  0 <= type < 256 -> Z.land type VERSION_MASK = 0.
Proof.
  intros Ht. apply Z.bits_inj'. intros n Hn.
  rewrite Z.land_spec, Z.bits_0.
  destruct (Z.lt_ge_cases n 16) as [Hlt|Hge].
  - replace VERSION_MASK with (Z.lnot (Z.ones 16)) by reflexivity.
    rewrite Z.lnot_spec by done. rewrite Z.ones_spec_low by lia.
    by rewrite andb_false_r.
  - rewrite (Z.bits_above_log2 type n); [done|lia|].
    destruct (Z.eq_dec type 0) as [->|Hne]; [simpl; lia|].
    apply Z.log2_lt_pow2; [lia|].
    apply Z.lt_le_trans with (2 ^ 8); [simpl; lia|].
    apply Z.pow_le_mono_r; lia.
Qed.

Lemma version_word (type : Z) :
  0 <= type < 256 ->
  (Z.lor VERSION_1 type <? 0) = true /\
  Z.land (Z.lor VERSION_1 type) VERSION_MASK = VERSION_1 /\
  Z.land (Z.lor VERSION_1 type) TYPE_MASK = type.
Proof.
  intros Ht. split; [|split].
  - rewrite lor_version by done. apply Z.ltb_lt. unfold VERSION_1. lia.
  - rewrite Z.land_lor_distr_l, (land_small_mask type) by done.
    by rewrite Z.lor_0_r.
  - rewrite Z.land_lor_distr_l.
    replace (Z.land VERSION_1 TYPE_MASK) with 0 by reflexivity.
    rewrite Z.lor_0_l.
    replace TYPE_MASK with (Z.ones 8) by reflexivity.
    rewrite Z.land_ones by lia. apply Z.mod_small. simpl. lia.
Qed.

(** [readMessageBegin] reads back the header [writeMessageBegin]
    wrote. *)
Lemma reads_readMessageBegin (name : string) (type seqid : Z) :
  0 <= type < 256 ->
  fits_i32 (String.length name) ->
  in_range 4 seqid = true ->
  reads readMessageBegin (enc_message_begin name type seqid)
        (inr (name, type, seqid)).
Proof.
  intros Ht Hn Hs. destruct (version_word type Ht) as (Hneg & Hver & Hty).
  unfold readMessageBegin, enc_message_begin.
  eapply reads_bind;
    [apply (reads_readInt 4 (Z.lor VERSION_1 type));
     [lia|by apply in_range_version]|].
  cbn beta. rewrite Hneg, Hver, Z.eqb_refl, Hty.
  eapply reads_bind; [by apply reads_readString|].
  rewrite <- (app_nil_r (be_encode 4 seqid)).
  eapply reads_bind; [by apply (reads_readInt 4 seqid); [lia|]|].
  apply reads_ret.
Qed.

(** ** The processor *)

Lemma on_iprot_reads {A} (m : Trans A) (bs rest : bytes) (a : A)
    (s : Processor.Server) :
  reads m bs a ->
  Processor.iprot s = bs ++ rest ->
  Processor.on_iprot m s =
    (Ok a, {| Processor.iprot := rest; Processor.oprot := Processor.oprot s;
              Processor.out := Processor.out s |}).
Proof.
  intros Hm Hs. unfold Processor.on_iprot. by rewrite Hs, Hm.
Qed.

Lemma on_oprot_writes (m : Trans unit) (bs : bytes) (s : Processor.Server) :
  writes m bs ->
  Processor.on_oprot m s =
    (Ok tt, {| Processor.iprot := Processor.iprot s;
               Processor.oprot := Processor.oprot s ++ bs;
               Processor.out := Processor.out s |}).
Proof. intros Hm. unfold Processor.on_oprot. by rewrite Hm. Qed.

Lemma reads_then_end {A} (m : Trans A) (bs : bytes) (a : A) :
  reads m bs a -> reads (let* x := m in readMessageEnd >> ret x) bs a.
Proof.
  intros Hm. rewrite <- (app_nil_r bs).
  eapply reads_bind; [exact Hm|].
  rewrite <- (app_nil_r []).
  eapply reads_bind; apply reads_ret.
Qed.

Lemma writes_reply (seqid : Z) (result : Log_result.t) :
  in_range 4 seqid = true ->
  match Log_result.success result with
  | Some v => in_range 4 v = true
  | None => True
  end ->
  writes (writeMessageBegin "Log" TMessageType.REPLY seqid >>
          Log_result.write result >>
          writeMessageEnd)
         (enc_message_begin "Log" TMessageType.REPLY seqid ++
          enc_Log_result result).
Proof.
  intros Hs Hv.
  eapply writes_as; cycle 1.
  - apply writes_bind; [apply writes_bind|].
    + by apply writes_writeMessageBegin; [|apply fits_Log|].
    + by apply writes_Log_result.
    + apply writes_ret.
  - by rewrite app_nil_r.
Qed.

Lemma reads_Log_call (seqid : Z) (messages : list LogEntry.t) :
  in_range 4 seqid = true ->
  batch_fits messages ->
  reads (let* args := Log_args.read Log_args.init in
         readMessageEnd >> ret args)
        (enc_Log_args (Log_args.mk (Some messages)))
        (Log_args.mk (Some messages)).
Proof. intros Hs Hfit. by apply reads_then_end, reads_Log_args. Qed.

Lemma write_results_success_Log_eq (success : option Z)
    (result : Log_result.t) (seqid : Z) (s : Processor.Server) :
  in_range 4 seqid = true ->
  match success with
  | Some v => in_range 4 v = true
  | None => True
  end ->
  Processor.write_results_success_Log success result seqid s =
    (Ok tt,
     {| Processor.iprot := Processor.iprot s;
        Processor.oprot := [];
        Processor.out :=
          Processor.out s ++
            [Processor.oprot s ++
             enc_message_begin "Log" TMessageType.REPLY seqid ++
             enc_Log_result (Log_result.mk success)] |}).
Proof.
  intros Hs Hv. unfold Processor.write_results_success_Log.
  erewrite bind_Ok by (apply on_oprot_writes; by apply writes_reply).
  reflexivity.
Qed.

(** X14: the processor reads the message [send_Log] writes and calls
    the handler with the very batch that was logged.  When the handler
    returns, a message of kind REPLY with the sequence id of the call
    and the result struct is flushed, and the Deferred returned has
    fired; when the handler raises, nothing is written or flushed, and
    the Deferred returned carries the exception. *)
Theorem process_answers_Log (handler : Processor.Handler)
    (messages : list LogEntry.t) (seqid : Z) (s : Processor.Server) :
  batch_fits messages ->
  in_range 4 seqid = true ->
  Processor.iprot s = enc_Log_call seqid messages ->
  match handler (Some messages) with
  | Processor.Returns success =>
      match success with
      | Some v => in_range 4 v = true
      | None => True
      end ->
      Processor.process (Processor.init handler) s =
        (Ok (inr (Success VNone)),
         {| Processor.iprot := [];
            Processor.oprot := [];
            Processor.out :=
              Processor.out s ++
                [Processor.oprot s ++
                 enc_message_begin "Log" TMessageType.REPLY seqid ++
                 enc_Log_result (Log_result.mk success)] |})
  | Processor.Throws e =>
      Processor.process (Processor.init handler) s =
        (Ok (inr (Failure e)),
         {| Processor.iprot := [];
            Processor.oprot := Processor.oprot s;
            Processor.out := Processor.out s |})
  end.
Proof.
  intros Hfit Hs Hi.
  assert (Hhead : Processor.on_iprot readMessageBegin s =
            (Ok (inr ("Log"%string, TMessageType.CALL, seqid)),
             {| Processor.iprot := enc_Log_args (Log_args.mk (Some messages));
                Processor.oprot := Processor.oprot s;
                Processor.out := Processor.out s |})).
  { apply (on_iprot_reads _ (enc_message_begin "Log" TMessageType.CALL seqid));
      [|exact Hi].
    by apply reads_readMessageBegin; [|apply fits_Log|]. }
  unfold Processor.process.
  rewrite (bind_Ok _ _ _ _ _ Hhead).
  cbn [Processor.init Processor._processMap Processor._handler
       Processor.lookup_method].
  change ("Log" =? "Log")%string with true. cbn iota.
  unfold Processor.process_Log.
  rewrite bind_assoc.
  erewrite bind_Ok.
  2:{ apply (on_iprot_reads _ (enc_Log_args (Log_args.mk (Some messages))) []).
      - by apply reads_Log_call with (seqid := seqid).
      - simpl. by rewrite app_nil_r. }
  cbn [Log_args.messages Processor.oprot Processor.out].
  destruct (handler (Some messages)) as [success|e]; [|done].
  intros Hv. unfold try_except, bind, ret.
  by rewrite write_results_success_Log_eq.
Qed.

Lemma process_answers_Log_witness :
  let handler : Processor.Handler := fun _ => Processor.Returns (Some 0) in
  let s := {| Processor.iprot := enc_Log_call 1 hello_batch;
              Processor.oprot := []; Processor.out := [] |} in
  batch_fits hello_batch /\
  in_range 4 1 = true /\
  Processor.iprot s = enc_Log_call 1 hello_batch /\
  in_range 4 0 = true /\
  Processor.process (Processor.init handler) s =
    (Ok (inr (Success VNone)),
     {| Processor.iprot := [];
        Processor.oprot := [];
        Processor.out :=
          Processor.out s ++
            [Processor.oprot s ++
             enc_message_begin "Log" TMessageType.REPLY 1 ++
             enc_Log_result (Log_result.mk (Some 0))] |}).
Proof.
  intros handler s.
  assert (Hfit : batch_fits hello_batch).
  { split; [unfold fits_i32; simpl; lia|].
    repeat constructor; unfold fits_i32; simpl; lia. }
  split; [exact Hfit|]. split; [reflexivity|]. split; [reflexivity|].
  split; [reflexivity|].
  exact (process_answers_Log handler hello_batch 1 s Hfit eq_refl eq_refl
           eq_refl).
Defined.

(** ** A call, through the server and back *)

(** The result a caller gets for the status the handler returned. *)
Lemma recv_Log_reply (p : pid) (success : option Z) (k : Z) (d : did)
    (w : World) (c : Client) :
  protocols w !! p = Some c ->
  _reqs c !! k = Some d ->
  deferreds w !! d = Some {| callbacks := []; called := None |} ->
  match success with
  | Some v => in_range 4 v = true
  | None => True
  end ->
  let r := match success with
           | Some v => Success (VInt v)
           | None => Failure missing_result
           end in
  recv_Log p (enc_Log_result (Log_result.mk success)) TMessageType.REPLY k w =
    (Ok tt,
     {| scribe := scribe w;
        deferreds := <[d := {| callbacks := []; called := Some r |}]> (deferreds w);
        protocols := <[p := {| _seqid := _seqid c; _reqs := delete k (_reqs c);
                               wbuf := wbuf c; sent := sent c |}]> (protocols w);
        connects := connects w;
        fired := fired w ++ [(d, r)] |}).
Proof.
  intros Hp Hk Hd Hv r.
  rewrite (recv_Log_pending _ _ _ _ _ _ _ Hp Hk).
  change (TMessageType.REPLY =? TMessageType.EXCEPTION) with false. cbn iota.
  erewrite bind_Ok.
  2:{ apply on_message_Ok. apply read_then_end.
      rewrite <- (app_nil_r (enc_Log_result _)).
      by rewrite (reads_Log_result (Log_result.mk success) Hv []). }
  subst r. destruct success as [v|]; cbn [Log_result.success];
    unfold callback, errback; by rewrite fire_no_callbacks.
Qed.

(** X15: a call through both halves of the generated code.  The message
    [Client.Log] sends is the one [Processor.process] reads; the reply
    the processor flushes for a handler that returns a status is the
    one [readMessageBegin] and [recv_Log] take on the client; the
    Deferred of the call then has the status the handler returned, and
    when the handler returned None it has the missing-result error.
    The pending calls of the connection are again what they were. *)
Theorem rpc_round_trip (p : pid) (messages : list LogEntry.t)
    (handler : Processor.Handler) (success : option Z)
    (w : World) (c : Client) :
  protocols w !! p = Some c ->
  wbuf c = [] ->
  reqs_bounded c ->
  in_range 4 (_seqid c + 1) = true ->
  batch_fits messages ->
  handler (Some messages) = Processor.Returns success ->
  match success with
  | Some v => in_range 4 v = true
  | None => True
  end ->
  let k := _seqid c + 1 in
  let d := length (deferreds w) in
  let r := match success with
           | Some v => Success (VInt v)
           | None => Failure missing_result
           end in
  exists w1 call reply body w2,
    Log p messages w = (Ok d, w1) /\
    sent <$> protocols w1 !! p = Some (sent c ++ [call]) /\
    Processor.process (Processor.init handler)
      {| Processor.iprot := call; Processor.oprot := []; Processor.out := [] |} =
      (Ok (inr (Success VNone)),
       {| Processor.iprot := []; Processor.oprot := [];
          Processor.out := [reply] |}) /\
    readMessageBegin reply = (Ok (inr ("Log"%string, TMessageType.REPLY, k)), body) /\
    recv_Log p body TMessageType.REPLY k w1 = (Ok tt, w2) /\
    deferreds w2 = deferreds w ++ [{| callbacks := []; called := Some r |}] /\
    fired w2 = fired w ++ [(d, r)] /\
    _reqs <$> protocols w2 !! p = Some (_reqs c).
Proof.
  intros Hp Hb Hbound Hr Hfit Hh Hv k d r.
  assert (Hlt : (p < length (protocols w))%nat) by (by eapply lookup_lt_Some).
  assert (Hnone : _reqs c !! k = None).
  { destruct (_reqs c !! k) as [d'|] eqn:Hk; [|done].
    specialize (Hbound k (mk_is_Some _ _ Hk)). subst k. lia. }
  pose proof (process_answers_Log handler messages k
                {| Processor.iprot := enc_Log_call k messages;
                   Processor.oprot := []; Processor.out := [] |}
                Hfit Hr eq_refl) as Hproc.
  rewrite Hh in Hproc. specialize (Hproc Hv). cbn in Hproc.
  pose proof (reads_readMessageBegin "Log" TMessageType.REPLY k
                ltac:(done) fits_Log Hr
                (enc_Log_result (Log_result.mk success))) as Hhead.
  eexists _, (enc_Log_call k messages), _, _, _.
  split; [by apply Log_sends|].
  split; [simpl; rewrite list_lookup_insert_eq by done; simpl;
          by rewrite Hb|].
  split; [exact Hproc|]. split; [exact Hhead|].
  split.
  { apply (recv_Log_reply p success k d); simpl.
    - by apply list_lookup_insert_eq.
    - apply lookup_insert_eq.
    - apply lookup_fresh.
    - done. }
  cbn [deferreds fired protocols]. subst d k r.
  split; [by rewrite insert_fresh|]. split; [done|].
  rewrite list_insert_insert_eq, list_lookup_insert_eq by done. simpl.
  by rewrite delete_insert_id.
Qed.

Lemma rpc_round_trip_witness :
  let handler : Processor.Handler := fun _ => Processor.Returns (Some 0) in
  protocols idle_connection !! 0%nat = Some Client_init /\
  wbuf Client_init = [] /\
  reqs_bounded Client_init /\
  in_range 4 (_seqid Client_init + 1) = true /\
  batch_fits hello_batch /\
  handler (Some hello_batch) = Processor.Returns (Some 0) /\
  in_range 4 0 = true /\
  exists w1 call reply body w2,
    Log 0%nat hello_batch idle_connection =
      (Ok (length (deferreds idle_connection)), w1) /\
    sent <$> protocols w1 !! 0%nat = Some (sent Client_init ++ [call]) /\
    Processor.process (Processor.init handler)
      {| Processor.iprot := call; Processor.oprot := []; Processor.out := [] |} =
      (Ok (inr (Success VNone)),
       {| Processor.iprot := []; Processor.oprot := [];
          Processor.out := [reply] |}) /\
    readMessageBegin reply =
      (Ok (inr ("Log"%string, TMessageType.REPLY, _seqid Client_init + 1)), body) /\
    recv_Log 0%nat body TMessageType.REPLY (_seqid Client_init + 1) w1 =
      (Ok tt, w2) /\
    deferreds w2 =
      deferreds idle_connection ++
        [{| callbacks := []; called := Some (Success (VInt 0)) |}] /\
    fired w2 =
      fired idle_connection ++
        [(length (deferreds idle_connection), Success (VInt 0))] /\
    _reqs <$> protocols w2 !! 0%nat = Some (_reqs Client_init).
Proof.
  intros handler.
  assert (Hfit : batch_fits hello_batch).
  { split; [unfold fits_i32; simpl; lia|].
    repeat constructor; unfold fits_i32; simpl; lia. }
  split; [reflexivity|]. split; [reflexivity|].
  split; [exact reqs_bounded_init|]. split; [reflexivity|].
  split; [exact Hfit|]. split; [reflexivity|]. split; [reflexivity|].
  exact (rpc_round_trip 0%nat hello_batch handler (Some 0) idle_connection
           Client_init eq_refl eq_refl reqs_bounded_init eq_refl Hfit
           eq_refl eq_refl).
Defined.

(** ** A method the processor does not know *)

Lemma writes_TApplicationException (x : TApplicationException.t) :
  string_fits (TApplicationException.message x) ->
  in_range 4 (TApplicationException.type x) = true ->
  writes (TApplicationException_write x) (enc_TApplicationException x).
Proof.
  intros Hm Ht. unfold TApplicationException_write, enc_TApplicationException.
  eapply writes_as; cycle 1.
  - apply writes_bind;
      [apply writes_bind;
       [apply writes_bind; [apply writes_bind; [apply writes_ret|]|]|]|].
    + by apply writes_string_field.
    + apply writes_bind; [apply writes_bind|apply writes_ret].
      * by apply writes_writeFieldBegin.
      * by apply writes_writeInt.
    + apply writes_writeFieldStop.
    + apply writes_ret.
  - cbn [app]. rewrite !app_nil_r. by rewrite <- !app_assoc.
Qed.

(** X16: for a message whose method name is not in [_processMap] (any
    name but "Log"), [process] skips the argument struct whatever its
    fields are, calls no handler, and flushes a message of kind
    EXCEPTION under the same name and sequence id that carries
    TApplicationException(UNKNOWN_METHOD, "Unknown function <name>");
    the Deferred it returns has fired with None. *)
Theorem process_unknown_method (handler : Processor.Handler)
    (name : string) (type seqid : Z) (fields : list (Z * tvalue))
    (s : Processor.Server) :
  name <> "Log"%string ->
  0 <= type < 256 ->
  fits_i32 (String.length name) ->
  fits_i32 (String.length ("Unknown function " ++ name)) ->
  in_range 4 seqid = true ->
  value_ok (TStruct fields) ->
  Processor.iprot s =
    enc_message_begin name type seqid ++ enc_value (TStruct fields) ->
  Processor.process (Processor.init handler) s =
    (Ok (inr (Success VNone)),
     {| Processor.iprot := [];
        Processor.oprot := [];
        Processor.out :=
          Processor.out s ++
            [Processor.oprot s ++
             enc_message_begin name TMessageType.EXCEPTION seqid ++
             enc_TApplicationException
               (TApplicationException.mk
                  TApplicationException_UNKNOWN_METHOD
                  (Some ("Unknown function " ++ name)%string))] |}).
Proof.
  intros Hne Ht Hn Hmsg Hs Hok Hi.
  assert (Hhead : Processor.on_iprot readMessageBegin s =
            (Ok (inr (name, type, seqid)),
             {| Processor.iprot := enc_value (TStruct fields);
                Processor.oprot := Processor.oprot s;
                Processor.out := Processor.out s |})).
  { apply (on_iprot_reads _ (enc_message_begin name type seqid)); [|exact Hi].
    by apply reads_readMessageBegin. }
  unfold Processor.process.
  rewrite (bind_Ok _ _ _ _ _ Hhead).
  cbn [Processor.init Processor._processMap Processor._handler
       Processor.lookup_method].
  assert (Hneq : ("Log" =? name)%string = false)
    by (apply String.eqb_neq; congruence).
  rewrite Hneq. cbn iota beta zeta.
  erewrite (bind_Ok (Processor.on_iprot _)).
  2:{ apply (on_iprot_reads _ (enc_value (TStruct fields)) [] tt).
      - rewrite <- (app_nil_r (enc_value (TStruct fields))).
        eapply reads_bind; [exact (reads_skip (TStruct fields) Hok)|].
        apply reads_ret.
      - simpl. by rewrite app_nil_r. }
  rewrite !bind_assoc.
  erewrite (bind_Ok (Processor.on_oprot _)).
  2:{ apply on_oprot_writes.
      eapply writes_as; cycle 1.
      - apply writes_bind; [apply writes_bind|apply writes_ret].
        + by apply writes_writeMessageBegin.
        + by apply writes_TApplicationException.
      - by rewrite app_nil_r. }
  unfold Processor.flush, modify, bind, ret.
  cbn [Processor.iprot Processor.oprot Processor.out].
  done.
Qed.

Lemma process_unknown_method_witness :
  let handler : Processor.Handler := fun _ => Processor.Throws AttributeError in
  let fields := [(1, TString "x"); (2, TList TType.I32 [TI32 1; TI32 2])] in
  let s := {| Processor.iprot :=
                enc_message_begin "Ping" TMessageType.CALL 7 ++
                enc_value (TStruct fields);
              Processor.oprot := []; Processor.out := [] |} in
  "Ping"%string <> "Log"%string /\
  0 <= TMessageType.CALL < 256 /\
  fits_i32 (String.length "Ping") /\
  fits_i32 (String.length ("Unknown function " ++ "Ping")) /\
  in_range 4 7 = true /\
  value_ok (TStruct fields) /\
  Processor.iprot s =
    enc_message_begin "Ping" TMessageType.CALL 7 ++ enc_value (TStruct fields) /\
  Processor.process (Processor.init handler) s =
    (Ok (inr (Success VNone)),
     {| Processor.iprot := [];
        Processor.oprot := [];
        Processor.out :=
          Processor.out s ++
            [Processor.oprot s ++
             enc_message_begin "Ping" TMessageType.EXCEPTION 7 ++
             enc_TApplicationException
               (TApplicationException.mk
                  TApplicationException_UNKNOWN_METHOD
                  (Some ("Unknown function " ++ "Ping")%string))] |}).
Proof.
  intros handler fields s.
  assert (Hne : "Ping"%string <> "Log"%string) by discriminate.
  assert (Ht : 0 <= TMessageType.CALL < 256) by (unfold TMessageType.CALL; lia).
  assert (Hn : fits_i32 (String.length "Ping")) by (unfold fits_i32; simpl; lia).
  assert (Hm : fits_i32 (String.length ("Unknown function " ++ "Ping")))
    by (unfold fits_i32; simpl; lia).
  assert (Hok : value_ok (TStruct fields)).
  { subst fields. constructor.
    apply Forall_cons_2; [split; [reflexivity|]|].
    { constructor. unfold fits_i32. simpl. lia. }
    apply Forall_cons_2; [split; [reflexivity|]|apply Forall_nil_2].
    constructor; [reflexivity|unfold fits_i32; simpl; lia|].
    apply Forall_cons_2; [split; [reflexivity|by constructor]|].
    apply Forall_cons_2; [split; [reflexivity|by constructor]|].
    apply Forall_nil_2. }
  split; [exact Hne|]. split; [exact Ht|]. split; [exact Hn|].
  split; [exact Hm|]. split; [reflexivity|]. split; [exact Hok|].
  split; [reflexivity|].
  exact (process_unknown_method handler "Ping" TMessageType.CALL 7 fields s
           Hne Ht Hn Hm eq_refl Hok eq_refl).
Defined.

(** ** Replies and sequence ids *)

(** X17: a call is answered at most once.  Whatever the first message
    for a sequence id was (a result, an exception, or bytes that could
    not be decoded), a second message for the same id finds no pending
    call: [recv_Log] raises KeyError for it and changes nothing. *)
Theorem duplicate_reply_rejected (p : pid) (iprot iprot' : bytes)
    (mtype mtype' k : Z) (w : World) (c : Client) :
  protocols w !! p = Some c ->
  let w1 := snd (recv_Log p iprot mtype k w) in
  recv_Log p iprot' mtype' k w1 = (Raise (KeyError k), w1).
Proof.
  intros Hp w1.
  destruct (recv_Log_removes p iprot mtype k w c Hp) as (c' & Hp' & _ & Hr').
  apply (recv_Log_no_call p iprot' mtype' k w1 c' Hp').
  rewrite Hr'. apply lookup_delete_eq.
Qed.

Lemma duplicate_reply_rejected_witness :
  protocols one_pending_call !! 0%nat = Some pending_client /\
  let w1 := snd (recv_Log 0%nat empty_reply TMessageType.REPLY 1
                   one_pending_call) in
  recv_Log 0%nat empty_reply TMessageType.REPLY 1 w1 = (Raise (KeyError 1), w1).
Proof.
  assert (Hp : protocols one_pending_call !! 0%nat = Some pending_client)
    by (vm_compute; reflexivity).
  split; [exact Hp|].
  exact (duplicate_reply_rejected 0%nat empty_reply empty_reply
           TMessageType.REPLY TMessageType.REPLY 1 one_pending_call
           pending_client Hp).
Defined.

(** X18: replies are matched to calls by sequence id, not by the order
    in which they arrive.  Of two calls pending on a connection, the
    reply to the second may come first: each Deferred gets the status
    of its own reply, and when both are in, the pending calls of the
    connection are what they were before the two calls. *)
Theorem replies_matched_by_seqid (p : pid) (ms1 ms2 : list LogEntry.t)
    (v1 v2 : Z) (w : World) (c : Client) :
  protocols w !! p = Some c ->
  reqs_bounded c ->
  0 <= _seqid c ->
  _seqid c + 2 < 2 ^ 31 ->
  batch_fits ms1 ->
  batch_fits ms2 ->
  in_range 4 v1 = true ->
  in_range 4 v2 = true ->
  let k := _seqid c in
  let d := length (deferreds w) in
  let reply v := snd (Log_result.write (Log_result.mk (Some v)) []) in
  exists w1 w2 w3 w4,
    Log p ms1 w = (Ok d, w1) /\
    Log p ms2 w1 = (Ok (S d), w2) /\
    recv_Log p (reply v2) TMessageType.REPLY (k + 2) w2 = (Ok tt, w3) /\
    recv_Log p (reply v1) TMessageType.REPLY (k + 1) w3 = (Ok tt, w4) /\
    deferreds w4 =
      deferreds w ++
        [{| callbacks := []; called := Some (Success (VInt v1)) |};
         {| callbacks := []; called := Some (Success (VInt v2)) |}] /\
    fired w4 =
      fired w ++ [(S d, Success (VInt v2)); (d, Success (VInt v1))] /\
    _reqs <$> protocols w4 !! p = Some (_reqs c).
Proof.
  intros Hp Hb H0 Hmax Hf1 Hf2 Hv1 Hv2 k d reply.
  assert (Hlt : (p < length (protocols w))%nat) by (by eapply lookup_lt_Some).
  assert (Hr : forall i, 1 <= i <= 2 -> in_range 4 (_seqid c + i) = true).
  { intros i Hi. unfold in_range. apply andb_true_iff.
    change (8 * Z.of_nat 4 - 1) with 31.
    split; [apply Z.leb_le|apply Z.ltb_lt]; lia. }
  assert (Hnone : forall i, 1 <= i -> _reqs c !! (_seqid c + i) = None).
  { intros i Hi. destruct (_reqs c !! (_seqid c + i)) as [d'|] eqn:Hk; [|done].
    specialize (Hb _ (mk_is_Some _ _ Hk)). lia. }
  assert (Hreply : forall v, in_range 4 v = true ->
            reply v = enc_Log_result (Log_result.mk (Some v))).
  { intros v Hv. subst reply. cbn beta.
    by rewrite (writes_Log_result (Log_result.mk (Some v)) Hv). }
  subst k d.
  eexists _, _, _, _.
  split; [by apply Log_sends; [|apply Hr; lia|]|].
  split.
  { erewrite Log_sends;
      [|simpl; by apply list_lookup_insert_eq|simpl|done].
    - simpl. rewrite length_app. simpl.
      replace (length (deferreds w) + 1)%nat with (S (length (deferreds w)))
        by lia.
      reflexivity.
    - replace (_seqid c + 1 + 1) with (_seqid c + 2) by lia. apply Hr. lia. }
  split.
  { rewrite (Hreply v2 Hv2).
    erewrite (recv_Log_reply p (Some v2) (_seqid c + 2) (S (length (deferreds w))));
      [reflexivity| | | |done].
    - simpl. apply list_lookup_insert_eq. by rewrite length_insert.
    - simpl. replace (_seqid c + 1 + 1) with (_seqid c + 2) by lia.
      apply lookup_insert_eq.
    - simpl. rewrite <- app_assoc. simpl.
      replace (S (length (deferreds w))) with (length (deferreds w) + 1)%nat
        by lia.
      by rewrite lookup_app_r, Nat.add_comm, Nat.add_sub by lia. }
  split.
  { rewrite (Hreply v1 Hv1).
    erewrite (recv_Log_reply p (Some v1) (_seqid c + 1) (length (deferreds w)));
      [reflexivity| | | |done].
    - simpl. apply list_lookup_insert_eq. by rewrite !length_insert.
    - simpl. replace (_seqid c + 1 + 1) with (_seqid c + 2) by lia.
      rewrite lookup_delete_ne by lia.
      rewrite lookup_insert_ne by lia. apply lookup_insert_eq.
    - simpl. rewrite list_lookup_insert_ne by lia.
      rewrite <- app_assoc. cbn [app]. by rewrite list_lookup_middle. }
  simpl. split; [|split].
  - rewrite <- !app_assoc. simpl.
    replace (S (length (deferreds w))) with (length (deferreds w) + 1)%nat
      by lia.
    rewrite insert_app_r. simpl.
    replace (length (deferreds w)) with (length (deferreds w) + 0)%nat at 1
      by lia.
    by rewrite insert_app_r.
  - by rewrite <- !app_assoc.
  - rewrite !list_insert_insert_eq, list_lookup_insert_eq by done. simpl.
    replace (_seqid c + 1 + 1) with (_seqid c + 2) by lia.
    rewrite (delete_insert_id _ (_seqid c + 2))
      by (rewrite lookup_insert_ne by lia; apply Hnone; lia).
    by rewrite delete_insert_id by (apply Hnone; lia).
Qed.

Lemma replies_matched_by_seqid_witness :
  let reply v := snd (Log_result.write (Log_result.mk (Some v)) []) in
  protocols idle_connection !! 0%nat = Some Client_init /\
  reqs_bounded Client_init /\
  0 <= _seqid Client_init /\
  _seqid Client_init + 2 < 2 ^ 31 /\
  batch_fits hello_batch /\
  batch_fits [] /\
  in_range 4 0 = true /\
  in_range 4 7 = true /\
  exists w1 w2 w3 w4,
    Log 0%nat hello_batch idle_connection =
      (Ok (length (deferreds idle_connection)), w1) /\
    Log 0%nat [] w1 = (Ok (S (length (deferreds idle_connection))), w2) /\
    recv_Log 0%nat (reply 7) TMessageType.REPLY (_seqid Client_init + 2) w2 =
      (Ok tt, w3) /\
    recv_Log 0%nat (reply 0) TMessageType.REPLY (_seqid Client_init + 1) w3 =
      (Ok tt, w4) /\
    deferreds w4 =
      deferreds idle_connection ++
        [{| callbacks := []; called := Some (Success (VInt 0)) |};
         {| callbacks := []; called := Some (Success (VInt 7)) |}] /\
    fired w4 =
      fired idle_connection ++
        [(S (length (deferreds idle_connection)), Success (VInt 7));
         (length (deferreds idle_connection), Success (VInt 0))] /\
    _reqs <$> protocols w4 !! 0%nat = Some (_reqs Client_init).
Proof.
  intros reply.
  assert (H1 : batch_fits hello_batch).
  { split; [unfold fits_i32; simpl; lia|].
    repeat constructor; unfold fits_i32; simpl; lia. }
  assert (H2 : batch_fits []).
  { split; [unfold fits_i32; simpl; lia|constructor]. }
  split; [reflexivity|]. split; [exact reqs_bounded_init|].
  split; [reflexivity|]. split; [reflexivity|].
  split; [exact H1|]. split; [exact H2|].
  split; [reflexivity|]. split; [reflexivity|].
  exact (replies_matched_by_seqid 0%nat hello_batch [] 0 7 idle_connection
           Client_init eq_refl reqs_bounded_init (Z.le_refl 0) eq_refl
           H1 H2 eq_refl eq_refl).
Defined.

(** ** No stored connection unless connected *)

Lemma nsc_same_scribe {A} (m : M A) :
  preserves same_scribe m -> preserves (carried no_stale_client) m.
Proof.
  intros Hm w Hw. unfold no_stale_client. by rewrite (Hm w).
Qed.

Lemma nsc_modify (f : World -> World) :
  (forall w, scribe (f w) = scribe w) ->
  preserves (carried no_stale_client) (modify f).
Proof.
  intros Hf. apply nsc_same_scribe, preserves_modify. intros w. apply Hf.
Qed.

(** However it ends, [_connection_made] leaves the state CONNECTED. *)
Lemma _connection_made_state (v : value) (w : World) :
  _state (scribe (snd (_connection_made v w))) = CONNECTED.
Proof.
  destruct v as [|wr|p|i|d]; try reflexivity.
  apply _connection_made_scribe.
Qed.

Lemma nsc_connection_callbacks r :
  preserves (carried no_stale_client) (connection_callbacks r).
Proof.
  destruct r as [client|reason]; simpl;
    apply (preserves_as_outcome _ _ (carried_refl _) (carried_trans _)).
  - intros w _ Hne. destruct Hne. apply _connection_made_state.
  - by intros w _ _.
Qed.

Lemma nsc_fire d r :
  preserves (carried no_stale_client) (fire connection_callbacks d r).
Proof.
  apply (preserves_fire _ _ _ _ (carried_refl _) (carried_trans _)).
  - apply nsc_connection_callbacks.
  - intros entries client. apply nsc_same_scribe, same_scribe__log.
  - apply nsc_same_scribe, same_scribe_get_Deferred.
  - intros x. by apply nsc_modify.
  - intros f. by apply nsc_modify.
Qed.

Lemma nsc_addCallbacks d cb :
  preserves (carried no_stale_client) (addCallbacks connection_callbacks d cb).
Proof.
  unfold addCallbacks.
  apply (preserves_bind _ (carried_trans _));
    [apply nsc_same_scribe, same_scribe_get_Deferred|].
  intros x. destruct (called x) as [[[| | | |d']|e]|];
    try (by apply nsc_modify);
    (apply (preserves_bind _ (carried_trans _));
     [apply (preserves_run_callbacks _ _ _ _ (carried_refl _) (carried_trans _));
      [apply nsc_connection_callbacks
      |intros entries v0; apply nsc_same_scribe, same_scribe__log]
     |intros [rest r']; by apply nsc_modify]).
Qed.

Lemma nsc__get_client : preserves (carried no_stale_client) _get_client.
Proof.
  intros w Hw. unfold no_stale_client in *.
  destruct (_state (scribe w)) eqn:Hs.
  - rewrite (_get_client_NOT_CONNECTED w Hs). simpl. intros _. by apply Hw.
  - rewrite (_get_client_CONNECTING w Hs). simpl. rewrite Hs.
    intros _. by apply Hw.
  - by rewrite (_get_client_CONNECTED w Hs).
Qed.

Lemma nsc_run_event (e : event) (w : World) :
  no_stale_client w -> no_stale_client (run_event e w).
Proof.
  intros Hw.
  assert (Hgo : forall {A} (m : M A),
             preserves (carried no_stale_client) m ->
             no_stale_client (snd (m w))).
  { intros A m Hm. by apply Hm. }
  destruct e as [category messages| |d|d reason|reason
                |p iprot mtype rseqid]; simpl.
  - apply Hgo. unfold log.
    apply (preserves_bind _ (carried_trans _)); [apply nsc__get_client|].
    intros d. apply (preserves_bind _ (carried_trans _));
      [apply nsc_addCallbacks|].
    intros _. apply (preserves_ret _ (carried_refl _)).
  - apply Hgo, nsc__get_client.
  - destruct (decide (d ∈ connects w)); [|done].
    apply Hgo. unfold connect_succeeded.
    apply (preserves_bind _ (carried_trans _));
      [apply (preserves_gets _ (carried_refl _))|].
    intros p. apply (preserves_bind _ (carried_trans _));
      [by apply nsc_modify|].
    intros _. apply nsc_fire.
  - destruct (decide (d ∈ connects w)); [|done].
    apply Hgo, nsc_fire.
  - by intros _.
  - apply Hgo. unfold recv_Log, get_Client.
    apply (preserves_bind _ (carried_trans _)).
    { apply (preserves_bind _ (carried_trans _));
        [apply (preserves_gets _ (carried_refl _))|].
      intros [c|]; [apply (preserves_ret _ (carried_refl _))
                   |apply (preserves_raise _ (carried_refl _))]. }
    intros c. destruct (_reqs c !! rseqid) as [d|];
      [|apply (preserves_raise _ (carried_refl _))].
    apply (preserves_bind _ (carried_trans _)).
    { unfold modify_Client. by apply nsc_modify. }
    intros _. destruct (mtype =? TMessageType.EXCEPTION).
    + apply (preserves_bind _ (carried_trans _));
        [apply preserves_on_message, carried_refl|].
      intros x. apply nsc_fire.
    + apply (preserves_bind _ (carried_trans _));
        [apply preserves_on_message, carried_refl|].
      intros result. destruct (Log_result.success result); apply nsc_fire.
Qed.

(** X19: in every state the client can reach, it stores no connection
    unless it is CONNECTED: in NOT_CONNECTED and in CONNECTING
    [_client] is None, whatever calls, connect outcomes, lost
    connections and replies came before, in whatever order. *)
Theorem reachable_no_stale_client (w : World) :
  reachable w ->
  _state (scribe w) <> CONNECTED -> _client (scribe w) = None.
Proof.
  induction 1 as [|e w _ IH]; [done|].
  by apply nsc_run_event.
Qed.

Lemma reachable_no_stale_client_witness :
  reachable two_waiters /\
  _state (scribe two_waiters) <> CONNECTED /\
  _client (scribe two_waiters) = None.
Proof.
  assert (Hr : reachable two_waiters).
  { exact (reachable_step
             (ev_log "app" (many_messages ["b"; "c"]%string)) _
             (reachable_step ev_get_client _
                (reachable_step (ev_log "app" (one_message "a")) _
                   reachable_init))). }
  assert (Hs : _state (scribe two_waiters) <> CONNECTED) by discriminate.
  split; [exact Hr|]. split; [exact Hs|].
  exact (reachable_no_stale_client two_waiters Hr Hs).
Defined.

(** ** Sequence ids in every reachable state *)

Lemma arb_modify (f : World -> World) :
  (forall w, protocols (f w) = protocols w) ->
  preserves (carried all_reqs_bounded) (modify f).
Proof.
  intros Hf w Hw p c Hp. apply (Hw p). unfold modify in Hp. simpl in Hp.
  by rewrite Hf in Hp.
Qed.

Lemma arb_modify_Client (p : pid) (f : Client -> Client) :
  (forall c, reqs_bounded c -> reqs_bounded (f c)) ->
  preserves (carried all_reqs_bounded) (modify_Client p f).
Proof.
  intros Hf w Hw q c' Hq.
  destruct (protocols w !! p) as [c|] eqn:Hp.
  - rewrite (modify_Client_Some _ _ _ _ Hp) in Hq. simpl in Hq.
    destruct (decide (q = p)) as [->|Hne].
    + rewrite list_lookup_insert_eq in Hq by (by eapply lookup_lt_Some).
      inversion Hq; subst. apply Hf. by apply (Hw p).
    + rewrite list_lookup_insert_ne in Hq by done. by apply (Hw q).
  - rewrite (modify_Client_None _ _ _ Hp) in Hq. by apply (Hw q).
Qed.

Lemma reqs_bounded_buffers (c : Client) (buf : bytes) (msgs : list bytes) :
  reqs_bounded c ->
  reqs_bounded {| _seqid := _seqid c; _reqs := _reqs c;
                  wbuf := buf; sent := msgs |}.
Proof. by intros Hb. Qed.

Lemma reqs_bounded_next (c : Client) :
  reqs_bounded c ->
  reqs_bounded {| _seqid := _seqid c + 1; _reqs := _reqs c;
                  wbuf := wbuf c; sent := sent c |}.
Proof. intros Hb k Hk. specialize (Hb k Hk). simpl. lia. Qed.

Lemma reqs_bounded_enter (c : Client) (d : did) :
  reqs_bounded c ->
  reqs_bounded {| _seqid := _seqid c; _reqs := <[_seqid c := d]> (_reqs c);
                  wbuf := wbuf c; sent := sent c |}.
Proof.
  intros Hb k Hk. simpl in *.
  apply lookup_insert_is_Some in Hk as [<-|[_ Hk]]; [lia|by apply Hb].
Qed.

Lemma reqs_bounded_pop (c : Client) (k0 : Z) :
  reqs_bounded c ->
  reqs_bounded {| _seqid := _seqid c; _reqs := delete k0 (_reqs c);
                  wbuf := wbuf c; sent := sent c |}.
Proof.
  intros Hb k Hk. simpl in *.
  apply lookup_delete_is_Some in Hk as [_ Hk]. by apply Hb.
Qed.

Ltac arb_step :=
  first
    [ apply (preserves_ret _ (carried_refl all_reqs_bounded))
    | apply (preserves_raise _ (carried_refl all_reqs_bounded))
    | apply (preserves_gets _ (carried_refl all_reqs_bounded))
    | apply arb_modify; intros ?; reflexivity
    | apply arb_modify_Client; intros ? ?;
      first [ by apply reqs_bounded_buffers
            | by apply reqs_bounded_next
            | by apply reqs_bounded_enter
            | by apply reqs_bounded_pop ]
    | apply (preserves_bind _ (carried_trans all_reqs_bounded)); [|intros ?] ].

Ltac arb_steps := repeat arb_step.

Lemma arb_get_Deferred d : preserves (carried all_reqs_bounded) (get_Deferred d).
Proof.
  unfold get_Deferred. arb_steps.
  match goal with o : option Deferred |- _ => destruct o end; arb_steps.
Qed.

Lemma arb_get_Client p : preserves (carried all_reqs_bounded) (get_Client p).
Proof.
  unfold get_Client. arb_steps.
  match goal with o : option Client |- _ => destruct o end; arb_steps.
Qed.

Lemma arb_on_transport {A} p (m : Trans A) :
  preserves (carried all_reqs_bounded) (on_transport p m).
Proof.
  unfold on_transport.
  apply (preserves_bind _ (carried_trans _)); [apply arb_get_Client|].
  intros c. destruct (m (wbuf c)) as [[x|e] buf]; arb_steps.
Qed.

Lemma arb_Log p messages : preserves (carried all_reqs_bounded) (Log p messages).
Proof.
  unfold Log, send_Log, flush, new_Deferred.
  repeat first [ apply arb_get_Client | apply arb_on_transport | arb_step ].
Qed.

Lemma arb__log entries client :
  preserves (carried all_reqs_bounded) (_log entries client).
Proof.
  unfold _log. destruct client;
    repeat first [ apply arb_get_Client | apply arb_Log | arb_step ].
Qed.

Lemma arb_put_Deferred d x :
  preserves (carried all_reqs_bounded) (put_Deferred d x).
Proof. unfold put_Deferred. arb_steps. Qed.

Lemma arb_fire (h : outcome -> M outcome) d r :
  (forall r, preserves (carried all_reqs_bounded) (h r)) ->
  preserves (carried all_reqs_bounded) (fire h d r).
Proof.
  intros Hh.
  apply (preserves_fire _ _ _ _ (carried_refl _) (carried_trans _)).
  - apply Hh.
  - apply arb__log.
  - apply arb_get_Deferred.
  - apply arb_put_Deferred.
  - intros f. arb_steps.
Qed.

Lemma arb_callback_waiter d v :
  preserves (carried all_reqs_bounded) (callback_waiter d v).
Proof.
  apply arb_fire. intros r.
  apply (preserves_raise _ (carried_refl all_reqs_bounded)).
Qed.

Lemma arb_while_waiting n :
  preserves (carried all_reqs_bounded) (while_waiting n).
Proof.
  induction n as [|n IH]; simpl.
  - apply (preserves_bind _ (carried_trans _));
      [apply (preserves_gets _ (carried_refl _))|].
    intros s. destruct (_waiting s); arb_step.
  - apply (preserves_bind _ (carried_trans _));
      [apply (preserves_gets _ (carried_refl _))|].
    intros s. destruct (_waiting s) as [|d rest]; [arb_step|].
    apply (preserves_bind _ (carried_trans _)); [|intros _; apply IH].
    apply (preserves_bind _ (carried_trans _));
      [by apply arb_modify|intros _; apply arb_callback_waiter].
Qed.

Lemma arb_connection_callbacks r :
  preserves (carried all_reqs_bounded) (connection_callbacks r).
Proof.
  destruct r as [v|reason]; simpl;
    apply (preserves_as_outcome _ _ (carried_refl _) (carried_trans _)).
  - unfold _connection_made. destruct v;
      repeat first [ apply arb_while_waiting | arb_step ].
  - unfold _connection_failed. arb_steps.
Qed.

Lemma arb_addCallbacks d cb :
  preserves (carried all_reqs_bounded) (addCallbacks connection_callbacks d cb).
Proof.
  unfold addCallbacks.
  apply (preserves_bind _ (carried_trans _)); [apply arb_get_Deferred|].
  intros x. destruct (called x) as [[[| | | |d']|e]|];
    try apply arb_put_Deferred;
    (apply (preserves_bind _ (carried_trans _));
     [apply (preserves_run_callbacks _ _ _ _ (carried_refl _) (carried_trans _));
      [apply arb_connection_callbacks|apply arb__log]
     |intros [rest r']; apply arb_put_Deferred]).
Qed.

Lemma arb__get_client : preserves (carried all_reqs_bounded) _get_client.
Proof.
  unfold _get_client, endpoint_connect, _notify_connected, succeed, callback,
    new_Deferred.
  apply (preserves_bind _ (carried_trans _));
    [apply (preserves_gets _ (carried_refl _))|].
  intros s. destruct (_state s);
    repeat first [ apply arb_addCallbacks
                 | apply arb_fire, arb_connection_callbacks
                 | arb_step ].
Qed.

Lemma arb_run_event (e : event) (w : World) :
  all_reqs_bounded w -> all_reqs_bounded (run_event e w).
Proof.
  intros Hw.
  assert (Hgo : forall {A} (m : M A),
             preserves (carried all_reqs_bounded) m ->
             all_reqs_bounded (snd (m w))).
  { intros A m Hm. by apply Hm. }
  destruct e as [category messages| |d|d reason|reason
                |p iprot mtype rseqid]; simpl.
  - apply Hgo. unfold log.
    apply (preserves_bind _ (carried_trans _)); [apply arb__get_client|].
    intros d. apply (preserves_bind _ (carried_trans _));
      [apply arb_addCallbacks|].
    intros _. apply (preserves_ret _ (carried_refl _)).
  - apply Hgo, arb__get_client.
  - destruct (decide (d ∈ connects w)); [|done].
    apply Hgo. unfold connect_succeeded.
    apply (preserves_bind _ (carried_trans _));
      [apply (preserves_gets _ (carried_refl _))|].
    intros p. apply (preserves_bind _ (carried_trans _));
      [|intros _; apply arb_fire, arb_connection_callbacks].
    intros w0 Hw0 q c Hq. unfold modify in Hq. simpl in Hq.
    apply lookup_app_Some in Hq as [Hq|[_ Hq]]; [by apply (Hw0 q)|].
    apply list_lookup_singleton_Some in Hq as [_ <-].
    apply reqs_bounded_init.
  - destruct (decide (d ∈ connects w)); [|done].
    apply Hgo, arb_fire, arb_connection_callbacks.
  - exact Hw.
  - apply Hgo. unfold recv_Log.
    apply (preserves_bind _ (carried_trans _)); [apply arb_get_Client|].
    intros c. destruct (_reqs c !! rseqid) as [d|];
      [|apply (preserves_raise _ (carried_refl _))].
    apply (preserves_bind _ (carried_trans _)); [arb_steps|].
    intros _. destruct (mtype =? TMessageType.EXCEPTION).
    + apply (preserves_bind _ (carried_trans _));
        [apply preserves_on_message, carried_refl|].
      intros x. apply arb_fire, arb_connection_callbacks.
    + apply (preserves_bind _ (carried_trans _));
        [apply preserves_on_message, carried_refl|].
      intros result. destruct (Log_result.success result);
        apply arb_fire, arb_connection_callbacks.
Qed.

(** X20: in every state the client can reach, on every connection, no
    pending call has a sequence id above the last one allocated; so the
    id the next [Log] takes is the id of no pending call, and a call is
    never entered in [_reqs] over another one. *)
Theorem reachable_seqid_fresh (w : World) (p : pid) (c : Client) :
  reachable w ->
  protocols w !! p = Some c ->
  reqs_bounded c /\ _reqs c !! (_seqid c + 1) = None.
Proof.
  intros Hr Hp.
  assert (Hall : all_reqs_bounded w).
  { clear Hp. induction Hr as [|e w _ IH]; [by intros q c'|].
    by apply arb_run_event. }
  assert (Hb : reqs_bounded c) by (by apply (Hall p)).
  split; [exact Hb|].
  destruct (_reqs c !! (_seqid c + 1)) as [d|] eqn:Hk; [|done].
  specialize (Hb _ (mk_is_Some _ _ Hk)). lia.
Qed.

Lemma reachable_one_pending_call : reachable one_pending_call.
Proof.
  assert (Heq : run_event (ev_connect_succeeded 0%nat)
                  (run_event (ev_log "app" (one_message "hello")) World_init)
                = one_pending_call) by (vm_compute; reflexivity).
  rewrite <- Heq. apply reachable_step, reachable_step, reachable_init.
Qed.

Lemma reachable_seqid_fresh_witness :
  reachable one_pending_call /\
  protocols one_pending_call !! 0%nat = Some pending_client /\
  reqs_bounded pending_client /\
  _reqs pending_client !! (_seqid pending_client + 1) = None.
Proof.
  assert (Hp : protocols one_pending_call !! 0%nat = Some pending_client)
    by (vm_compute; reflexivity).
  split; [exact reachable_one_pending_call|]. split; [exact Hp|].
  exact (reachable_seqid_fresh one_pending_call 0%nat pending_client
           reachable_one_pending_call Hp).
Defined.
